(** * Montreal Forced Aligner: the TextGrid reconstruction core

    A shallow embedding of [montreal_forced_aligner/textgrid.py] and the
    properties its specification states about it.

    Conventions of the embedding.
    - Python [str] is [string]; a character is an [ascii].
    - Python [float] times are exact rationals [Q]; binary64 rounding error
      is outside the model. [float(s)] may also give an infinity or a NaN,
      with which Python goes on: the exceptions that follow are raised as
      the code raises them, and an interval with such a time is an
      [OutOfModel].
    - A Python exception is a [Raise] in the [result] type. [OutOfModel] is
      not a Python exception: it marks a run that leaves the modelled part
      of Python (a regular-expression escape, an exhausted recursion
      budget, an interval with a non-finite time).
    - Interval objects that the code mutates in place live in a [heap]
      and are passed around as references, so aliasing is visible. *)

From Stdlib Require Import Ascii String QArith Qround Qabs Lqa.
From stdpp Require Import strings gmap list.

Local Open Scope string_scope.

Set Default Proof Using "Type".

(** ** Exceptions and fallible computations *)

Inductive exn : Type :=
| IndexError
| ValueError
| AttributeError
| ReError
| ExportError
| OutOfModel.

Inductive result (A : Type) : Type :=
| Ok (a : A)
| Raise (e : exn).

Arguments Ok {A} a.
Arguments Raise {A} e.

#[global] Instance result_ret : MRet result := fun A a => Ok a.

#[global] Instance result_bind : MBind result := fun A B k m =>
  match m with
  | Ok a => k a
  | Raise e => Raise e
  end.

Definition returns {A : Type} (m : result A) : Prop := exists a, m = Ok a.

(** [l[i]] for a non-negative index. *)
Definition index {A : Type} (l : list A) (i : nat) : result A :=
  match l !! i with
  | Some a => Ok a
  | None => Raise IndexError
  end.

(** ** Python string primitives *)

(** [s.split(sep)] for a one-character separator: every occurrence cuts,
    empty fields are kept. *)
Fixpoint split_char (sep : ascii) (s : string) : list string :=
  match s with
  | "" => [""]
  | String c s' =>
      if Ascii.eqb c sep then "" :: split_char sep s'
      else match split_char sep s' with
           | h :: t => String c h :: t
           | [] => [String c ""]
           end
  end.

(** [c in s] for a character [c]. *)
Fixpoint char_in (c : ascii) (s : string) : bool :=
  match s with
  | "" => false
  | String d s' => Ascii.eqb c d || char_in c s'
  end.

Definition startswith (s : string) (c : ascii) : bool :=
  match s with
  | String d _ => Ascii.eqb d c
  | "" => false
  end.

Fixpoint endswith (s : string) (c : ascii) : bool :=
  match s with
  | "" => false
  | String d "" => Ascii.eqb d c
  | String _ s' => endswith s' c
  end.

(** [any(f(x) for x in s)] over the characters of [s]. *)
Fixpoint any_char (f : ascii -> bool) (s : string) : bool :=
  match s with
  | "" => false
  | String c s' => f c || any_char f s'
  end.

(** [s.replace(d, "")]: the non-overlapping occurrences of [d] are removed
    from left to right; [skip] counts the characters of an occurrence that
    are still to be dropped. An empty [d] removes nothing. *)
Fixpoint remove_from (d : string) (skip : nat) (s : string) : string :=
  match s with
  | "" => ""
  | String c s' =>
      match skip with
      | S k => remove_from d k s'
      | O =>
          if String.prefix d s && negb (String.eqb d "")
          then remove_from d (String.length d - 1) s'
          else String c (remove_from d 0 s')
      end
  end.

Definition replace_empty (s d : string) : string := remove_from d 0 s.

(** ** The character class [[markers]] of Python's [re]

    The source interpolates a marker string into a character class:
    [re.split(rf"[{markers}]", item)]. The class body is read as [sre_parse]
    reads it: a leading [^] negates, [a-b] is a range, a [-] at the end of
    the body and a closing bracket at its start are literals, and a body
    with no item is an error. A backslash, or a closing bracket that ends
    the class early, is outside the model. *)

Inductive class_item : Type :=
| Lit (c : ascii)
| Range (lo hi : ascii).

Record char_class : Type := mkClass {
  negated : bool;
  items : list class_item
}.

Definition is_backslash (c : ascii) : bool := Ascii.eqb c "\".
Definition is_close (c : ascii) : bool := Ascii.eqb c "]".

Definition is_dash (c : ascii) : bool := Ascii.eqb c "-".

Fixpoint parse_items (first : bool) (s : string) : result (list class_item) :=
  match s with
  | "" => Ok []
  | String c rest =>
      if is_backslash c || (is_close c && negb first) then Raise OutOfModel
      else
        match rest with
        | String dash after =>
            if is_dash dash then
              match after with
              | "" => Ok [Lit c; Lit "-"]
              | String d rest' =>
                  if is_backslash d || is_close d then Raise OutOfModel
                  else if (nat_of_ascii d <? nat_of_ascii c)%nat then Raise ReError
                  else more ← parse_items false rest'; Ok (Range c d :: more)
              end
            else more ← parse_items false rest; Ok (Lit c :: more)
        | "" => more ← parse_items false rest; Ok (Lit c :: more)
        end
  end.

Definition compile_class (markers : string) : result char_class :=
  let '(neg, body) :=
    match markers with
    | String c body => if Ascii.eqb c "^" then (true, body) else (false, markers)
    | "" => (false, markers)
    end in
  its ← parse_items true body;
  match its with
  | [] => Raise ReError
  | _ => Ok (mkClass neg its)
  end.

Definition item_matches (c : ascii) (it : class_item) : bool :=
  match it with
  | Lit d => Ascii.eqb c d
  | Range lo hi =>
      (nat_of_ascii lo <=? nat_of_ascii c)%nat && (nat_of_ascii c <=? nat_of_ascii hi)%nat
  end.

Definition class_matches (cl : char_class) (c : ascii) : bool :=
  xorb (negated cl) (existsb (item_matches c) (items cl)).

(** The pieces between the characters that satisfy [p]. *)
Fixpoint split_where (p : ascii -> bool) (s : string) : list string :=
  match s with
  | "" => [""]
  | String c s' =>
      if p c then "" :: split_where p s'
      else match split_where p s' with
           | h :: t => String c h :: t
           | [] => [String c ""]
           end
  end.

(** As [split_where], cutting at the first such character only. *)
Fixpoint split_first (p : ascii -> bool) (s : string) : list string :=
  match s with
  | "" => [""]
  | String c s' =>
      if p c then [""; s']
      else match split_first p s' with
           | h :: t => String c h :: t
           | [] => [String c ""]
           end
  end.

(** [re.split(rf"[{markers}]", item)] *)
Definition re_split (markers item : string) : result (list string) :=
  cl ← compile_class markers;
  Ok (split_where (class_matches cl) item).

(** [re.split(rf"[{markers}]", item, maxsplit=1)] *)
Definition re_split_once (markers item : string) : result (list string) :=
  cl ← compile_class markers;
  Ok (split_first (class_matches cl) item).

(** ** Numbers *)

(** [round(x, 4)]: the nearest multiple of 1/10000, ties to the even one. *)
Definition round_half_even (x : Q) : Z :=
  let f := Qfloor x in
  let twice := (2 * (x - inject_Z f))%Q in
  match (twice ?= 1)%Q with
  | Lt => f
  | Gt => (f + 1)%Z
  | Eq => if Z.even f then f else (f + 1)%Z
  end.

Definition round4 (x : Q) : Q :=
  Qred (round_half_even (x * 10000) # 10000).

Definition Qltb (x y : Q) : bool := negb (Qle_bool y x).

(** What Python's [float(s)] does: it gives a finite number, it gives an
    infinity or a NaN, or it raises [ValueError]. *)
Inductive float_outcome : Type :=
| Number (q : Q)
| InfOrNan
| NoNumber.

(** Plain decimal literals, the part of Python's [float] and [int] grammar
    that alignment records use: an optional sign, digits, and for a float an
    optional fractional part or the name of a non-finite value. They serve
    as the conversions in the worked examples, where a decimal is read as
    the rational it denotes and not as the binary64 number next to it; the
    general results below hold for any conversion. *)
Definition digit_of (c : ascii) : option Z :=
  let n := nat_of_ascii c in
  if (48 <=? n)%nat && (n <=? 57)%nat then Some (Z.of_nat (n - 48)) else None.

Fixpoint digits_value (acc : Z) (s : string) : option Z :=
  match s with
  | "" => Some acc
  | String c s' =>
      match digit_of c with
      | Some d => digits_value (10 * acc + d)%Z s'
      | None => None
      end
  end.

Definition split_sign (s : string) : bool * string :=
  match s with
  | String "-" s' => (true, s')
  | String "+" s' => (false, s')
  | _ => (false, s)
  end.

Definition decimal_int (s : string) : option Z :=
  let '(neg, body) := split_sign s in
  match body with
  | "" => None
  | _ =>
      match digits_value 0 body with
      | Some n => Some (if neg then (- n)%Z else n)
      | None => None
      end
  end.

Definition lower_case (c : ascii) : ascii :=
  let n := nat_of_ascii c in
  if (65 <=? n)%nat && (n <=? 90)%nat then ascii_of_nat (n + 32) else c.

Fixpoint lower_cased (s : string) : string :=
  match s with
  | "" => ""
  | String c s' => String (lower_case c) (lower_cased s')
  end.

Definition non_finite_name (body : string) : bool :=
  let name := lower_cased body in
  String.eqb name "inf" || String.eqb name "infinity" || String.eqb name "nan".

Definition decimal_float (s : string) : float_outcome :=
  let '(neg, body) := split_sign s in
  if non_finite_name body then InfOrNan
  else
    match split_char "." body with
    | [whole] =>
        match whole, digits_value 0 whole with
        | String _ _, Some n => Number (inject_Z (if neg then (- n)%Z else n))
        | _, _ => NoNumber
        end
    | [whole; frac] =>
        match String.length whole + String.length frac, digits_value 0 (whole ++ frac) with
        | S _, Some n =>
            Number (Qred ((if neg then (- n)%Z else n) # Pos.of_nat (10 ^ String.length frac)))
        | _, _ => NoNumber
        end
    | _ => NoNumber
    end.

(** ** Intervals *)

(** [CtmInterval]. The [utterance] field is declared [str], but
    [parse_from_word] stores [None] there when it consumed nothing. *)
Record CtmInterval : Type := mkCtm {
  begin_ : Q;
  end_ : Q;
  label : string;
  utterance : option string
}.

(** praatio's [Interval(start, end, label)]. *)
Record Interval : Type := mkInterval {
  tg_start : Q;
  tg_end : Q;
  tg_label : string
}.

Definition shift_times (offset : Q) (c : CtmInterval) : CtmInterval :=
  mkCtm (begin_ c + offset) (end_ c + offset) (label c) (utterance c).

Definition to_tg_interval (c : CtmInterval) : Interval :=
  mkInterval (begin_ c) (end_ c) (label c).

(** ** Interval objects

    [map_to_original_pronunciation] and [export_textgrid] assign to the
    fields of the interval objects they are handed. An object is a cell of
    the heap, a list of interval objects holds references, and the same
    reference may occur more than once. *)

Definition ref : Type := nat.

Record heap : Type := mkHeap {
  obj : ref -> CtmInterval;
  next : ref
}.

Definition update (r : ref) (c : CtmInterval) (h : heap) : heap :=
  mkHeap (fun r' => if Nat.eqb r' r then c else obj h r') (next h).

(** [r.label = l] *)
Definition set_label (r : ref) (l : string) (h : heap) : heap :=
  update r (mkCtm (begin_ (obj h r)) (end_ (obj h r)) l (utterance (obj h r))) h.

(** [r.end = t] *)
Definition set_end (r : ref) (t : Q) (h : heap) : heap :=
  update r (mkCtm (begin_ (obj h r)) t (label (obj h r)) (utterance (obj h r))) h.

(** A new object, at the first free address. *)
Definition alloc (c : CtmInterval) (h : heap) : ref * heap :=
  (next h, mkHeap (fun r' => if Nat.eqb r' (next h) then c else obj h r') (S (next h))).

(** A heap holding the given objects at addresses 0, 1, ... *)
Definition heap_of (l : list CtmInterval) : heap :=
  mkHeap (fun r => nth r l (mkCtm 0 0 "" None)) (length l).

(** ** Phone remapper *)

(** A pronunciation entry of the lexicon: the simplified phones and, when
    the entry has the key, the original ones. *)
Record PronunciationEntry : Type := mkEntry {
  pronunciation : list string;
  original_pronunciation : option (list string)
}.

(** The variables of [map_to_original_pronunciation]. [relabels] is a
    history that the code does not keep: one triple (object, label before,
    label after) for each executed [phones[mapping_ind].label = pi]. *)
Record remap_state : Type := mkRemap {
  rs_heap : heap;
  new_phones : list ref;
  mapping_ind : nat;
  transcription_ind : nat;
  relabels : list (ref * string * string)
}.

(** The condition under which the inner loop passes everything through. *)
Definition exact_match (transcription : list string) (p : PronunciationEntry) : bool :=
  match original_pronunciation p with
  | Some orig =>
      bool_decide (transcription = pronunciation p) && bool_decide (pronunciation p = orig)
  | None => bool_decide (transcription = pronunciation p)
  end.

(** [p["pronunciation"] == transcription[ind : ind + len(p["pronunciation"])]] *)
Definition prefix_match (transcription : list string) (ind : nat) (p : PronunciationEntry)
  : bool :=
  bool_decide (pronunciation p = take (length (pronunciation p)) (drop ind transcription)).

(** The [for p in pronunciations] loop: whether it left through the exact
    match, and the value of [pron]. *)
Fixpoint scan (transcription : list string) (ind : nat) (ps : list PronunciationEntry)
    (pron : option PronunciationEntry) : bool * option PronunciationEntry :=
  match ps with
  | [] => (false, pron)
  | p :: ps' =>
      if exact_match transcription p then (true, pron)
      else scan transcription ind ps'
             (match pron with
              | None => if prefix_match transcription ind p then Some p else None
              | Some q => Some q
              end)
  end.

(** [for diacritic in strip_diacritics: modded_phone =
    modded_phone.replace(diacritic, "")] *)
Definition strip_all (strip_diacritics : list string) (pi : string) : string :=
  fold_left replace_empty strip_diacritics pi.

(** [new_phones.extend(l); mapping_ind += len(l)] *)
Definition extend (l : list ref) (st : remap_state) : remap_state :=
  mkRemap (rs_heap st) (new_phones st ++ l) (mapping_ind st + length l)
    (transcription_ind st) (relabels st).

(** One pass of [for pi in p["original_pronunciation"]]. *)
Definition walk_step (phones : list ref) (strip_diacritics : list string) (pi : string)
    (st : remap_state) : remap_state * result unit :=
  let h := rs_heap st in
  let i := mapping_ind st in
  match phones !! i with
  | None => (st, Raise IndexError)
  | Some r =>
      let lab := label (obj h r) in
      if String.eqb pi lab then
        (mkRemap h (new_phones st ++ [r]) (S i) (transcription_ind st) (relabels st), Ok ())
      else
        let modded_phone := strip_all strip_diacritics pi in
        if String.eqb modded_phone lab then
          (mkRemap (set_label r pi h) (new_phones st ++ [r]) (S i) (transcription_ind st)
             (relabels st ++ [(r, lab, pi)]), Ok ())
        else if negb (Nat.eqb i (length phones - 1)) then
          match phones !! S i with
          | None => (st, Raise IndexError)
          | Some r' =>
              let new_p := lab ++ label (obj h r') in
              if String.eqb modded_phone new_p then
                let '(fresh, h') :=
                  alloc (mkCtm (begin_ (obj h r)) (end_ (obj h r')) new_p
                           (utterance (obj h r))) h in
                (mkRemap h' (new_phones st ++ [fresh]) (S (S i)) (transcription_ind st)
                   (relabels st), Ok ())
              else
                (mkRemap h (new_phones st) (S i) (transcription_ind st) (relabels st), Ok ())
          end
        else
          (mkRemap h (new_phones st) (S i) (transcription_ind st) (relabels st), Ok ())
  end.

Fixpoint walk (phones : list ref) (strip_diacritics : list string) (orig : list string)
    (st : remap_state) : remap_state * result unit :=
  match orig with
  | [] => (st, Ok ())
  | pi :: orig' =>
      match walk_step phones strip_diacritics pi st with
      | (st', Ok _) => walk phones strip_diacritics orig' st'
      | (st', Raise e) => (st', Raise e)
      end
  end.

(** The [for pronunciations in subpronunciations] loop. *)
Fixpoint remap_loop (phones : list ref) (transcription : list string)
    (strip_diacritics : list string) (subpronunciations : list (list PronunciationEntry))
    (st : remap_state) : remap_state * result unit :=
  match subpronunciations with
  | [] => (st, Ok ())
  | pronunciations :: rest =>
      if (length phones <=? mapping_ind st)%nat then (st, Ok ())
      else
        let '(exact, pron) := scan transcription (transcription_ind st) pronunciations None in
        let st1 := if exact then extend phones st else st in
        if (length phones <=? mapping_ind st1)%nat then (st1, Ok ())
        else
          match pron with
          | None => (extend phones st1, Ok ())
          | Some p =>
              let n := length (pronunciation p) in
              let to_extend := take n (drop (transcription_ind st1) phones) in
              let st2 := mkRemap (rs_heap st1) (new_phones st1) (mapping_ind st1)
                           (transcription_ind st1 + n) (relabels st1) in
              match original_pronunciation p with
              | None => (extend to_extend st2, Ok ())
              | Some orig =>
                  if bool_decide (pronunciation p = orig) then (extend to_extend st2, Ok ())
                  else
                    match walk phones strip_diacritics orig st2 with
                    | (st3, Ok _) =>
                        remap_loop phones transcription strip_diacritics rest st3
                    | (st3, Raise e) => (st3, Raise e)
                    end
              end
          end
  end.

(** The call leaves the heap it has mutated, the relabelling history, and
    either the list [new_phones] or the exception. *)
Definition map_to_original_pronunciation (h : heap) (phones : list ref)
    (subpronunciations : list (list PronunciationEntry)) (strip_diacritics : list string)
  : remap_state * result (list ref) :=
  let transcription := map (fun x => label (obj h x)) phones in
  match remap_loop phones transcription strip_diacritics subpronunciations
          (mkRemap h [] 0 0 []) with
  | (st, Ok _) => (st, Ok (new_phones st))
  | (st, Raise e) => (st, Raise e)
  end.

(** ** Dictionary data *)

(** The fields of [DictionaryData] that [parse_from_word] reads. *)
Record DictionaryData : Type := mkDictionaryData {
  words_mapping : gmap string Z;
  punctuation : string;
  clitic_set : gset string;
  clitic_markers : string;
  compound_markers : string;
  oov_int : Z
}.

(** ** Error collector *)

Definition nl : string := String (ascii_of_nat 10) "".

(** [d[k] = v] on a dict kept in insertion order. *)
Fixpoint dict_set (k v : string) (d : list (string * string)) : list (string * string) :=
  match d with
  | [] => [(k, v)]
  | (k', v') :: d' =>
      if String.eqb k' k then (k', v) :: d' else (k', v') :: dict_set k v d'
  end.

(** A file of a job. [export_outcome first_file_write] is what
    [ctm_to_textgrid(file, aligner, first_file_write)] does: [None] when it
    returns, the traceback text when it raises. *)
Record job_file : Type := mkJobFile {
  name : string;
  export_outcome : bool -> option string
}.

(** The [for file in j.job_files().values()] loop. With [debug] set the
    exception is raised again. *)
Fixpoint export_job (debug : bool) (files : list job_file) (processed_files : gset string)
    (export_errors : list (string * string)) : result (list (string * string)) :=
  match files with
  | [] => Ok export_errors
  | file :: rest =>
      let first_file_write := negb (bool_decide (name file ∈ processed_files)) in
      match export_outcome file first_file_write with
      | None => export_job debug rest ({[name file]} ∪ processed_files) export_errors
      | Some text =>
          if debug then Raise ExportError
          else export_job debug rest processed_files (dict_set (name file) text export_errors)
      end
  end.

(** The [for j in aligner.corpus.jobs] loop, restricted to the export of
    each job's files. *)
Fixpoint export_jobs (debug : bool) (jobs : list (list job_file))
    (export_errors : list (string * string)) : result (list (string * string)) :=
  match jobs with
  | [] => Ok export_errors
  | files :: rest =>
      export_errors ← export_job debug files ∅ export_errors;
      export_jobs debug rest export_errors
  end.

Definition header : string :=
  "The following exceptions were encountered during the output of the alignments to TextGrids:"
  ++ nl ++ nl.

(** The [for file_name, result in export_errors.items()] loop on the
    content of [output_errors.txt]; [None] when the file does not exist. *)
Fixpoint write_errors (export_errors : list (string * string)) (error_log : option string)
  : option string :=
  match export_errors with
  | [] => error_log
  | (file_name, result) :: rest =>
      let opened := match error_log with
                    | None => header
                    | Some text => text
                    end in
      write_errors rest (Some (opened ++ file_name ++ ":" ++ nl ++ result ++ nl ++ nl))
  end.

(** [os.remove] when the report exists, then the loop. *)
Definition output_textgrid_writing_errors (export_errors : list (string * string))
    (error_log : option string) : option string :=
  write_errors export_errors None.

(** The export part of [ctms_to_textgrids_non_mp]: the content of
    [output_errors.txt] afterwards. *)
Definition ctms_to_textgrids_non_mp (debug : bool) (jobs : list (list job_file))
    (error_log : option string) : result (option string) :=
  export_errors ← export_jobs debug jobs [];
  Ok (output_textgrid_writing_errors export_errors error_log).

(** The report that lists the given files. *)
Definition report_entry (entry : string * string) : string :=
  fst entry ++ ":" ++ nl ++ snd entry ++ nl ++ nl.

Fixpoint entries_text (entries : list (string * string)) : string :=
  match entries with
  | [] => ""
  | entry :: rest => report_entry entry ++ entries_text rest
  end.

Definition report (entries : list (string * string)) : string :=
  header ++ entries_text entries.

(** The files that fail, with their error text, when every file is written
    for the first time. *)
Definition failing (files : list job_file) : list (string * string) :=
  omap (fun f => match export_outcome f true with
                 | Some text => Some (name f, text)
                 | None => None
                 end) files.

(** ** Vocabulary of the specification *)

(** The whitespace-delimited fields of a line, as [line.split()] gives
    them: runs of whitespace separate, and no field is empty. *)
Definition is_whitespace (c : ascii) : bool :=
  let n := nat_of_ascii c in
  (n =? 32)%nat || ((9 <=? n)%nat && (n <=? 13)%nat) || ((28 <=? n)%nat && (n <=? 31)%nat).

Definition whitespace_fields (line : string) : list string :=
  filter (fun f => f <> "") (split_where is_whitespace line).

(** The characters of a word or of a list of tokens, markers ignored. *)
Fixpoint without_markers (markers : string) (s : string) : string :=
  match s with
  | "" => ""
  | String c s' =>
      if char_in c markers then without_markers markers s'
      else String c (without_markers markers s')
  end.

Fixpoint join (tokens : list string) : string :=
  match tokens with
  | [] => ""
  | token :: rest => token ++ join rest
  end.

Definition content (clitic_markers compound_markers : string) (tokens : list string)
  : string :=
  without_markers (clitic_markers ++ compound_markers) (join tokens).

(** The number of tokens of a split that are not in the vocabulary, as the
    specification counts them. *)
Fixpoint unknown_tokens (words_mapping : gmap string Z) (tokens : list string) : nat :=
  match tokens with
  | [] => 0
  | token :: rest =>
      match words_mapping !! token with
      | Some _ => unknown_tokens words_mapping rest
      | None => S (unknown_tokens words_mapping rest)
      end
  end.

(** A marker string that the character class takes literally: no
    backslash, no bracket, no leading [^], and a [-] only at one of its
    two ends. *)
Fixpoint no_inner_dash (s : string) : bool :=
  match s with
  | "" => true
  | String _ "" => true
  | String c s' => negb (Ascii.eqb c "-") && no_inner_dash s'
  end.

Definition plain_markers (markers : string) : bool :=
  negb (char_in "\" markers) && negb (char_in "]" markers) && negb (char_in "[" markers)
  && negb (startswith markers "^")
  && match markers with
     | "" => false
     | String _ rest => no_inner_dash rest
     end.

(** An end that lies within [frame_shift] of the duration [d]. *)
Definition within (d frame_shift end' : Q) : Prop :=
  (Qabs (d - end') < frame_shift)%Q.

(** An interval object after the boundary rule has been applied to it. *)
Definition snapped (d frame_shift : Q) (c : CtmInterval) : CtmInterval :=
  if Qltb (d - end_ c) frame_shift
  then mkCtm (begin_ c) d (label c) (utterance c)
  else c.

(** Modelled from the spec: [sanitize], which [_lookup] imports from
    [montreal_forced_aligner.dictionary] and which is not part of the
    sources at hand. The specification says that it strips the punctuation
    that is not used as a clitic marker. *)
Fixpoint strip_punctuation (item punctuation clitic_markers : string) : string :=
  match item with
  | "" => ""
  | String c item' =>
      if char_in c punctuation && negb (char_in c clitic_markers)
      then strip_punctuation item' punctuation clitic_markers
      else String c (strip_punctuation item' punctuation clitic_markers)
  end.

(** A relabelling (object, label before, label after) whose new label,
    stripped of the diacritics, is the label it replaced. *)
Definition faithful (strip_diacritics : list string) (ev : ref * string * string) : Prop :=
  strip_all strip_diacritics (snd ev) = snd (fst ev).

(** What the walk keeps true of the aligned objects when no object occurs
    twice in [phones] and the heap has allocated them all: an object is
    relabelled at most once, to a label whose stripped form is the label it
    had at the call, and the objects still ahead of the cursor are
    untouched. *)
Definition relabelled_once (strip_diacritics : list string) (h0 : heap) (phones : list ref)
    (st : remap_state) : Prop :=
  (next h0 <= next (rs_heap st))%nat
  /\ (forall r, (r < next h0)%nat ->
        begin_ (obj (rs_heap st) r) = begin_ (obj h0 r)
        /\ end_ (obj (rs_heap st) r) = end_ (obj h0 r)
        /\ (label (obj (rs_heap st) r) = label (obj h0 r)
            \/ strip_all strip_diacritics (label (obj (rs_heap st) r)) = label (obj h0 r)))
  /\ (forall i r, (mapping_ind st <= i)%nat -> phones !! i = Some r ->
        label (obj (rs_heap st) r) = label (obj h0 r)).

(** ** Sample data *)

(** A vocabulary with the word "cat" and the clitic "'s". *)
Definition cats_dictionary : DictionaryData :=
  mkDictionaryData {[ "cat" := 5%Z; "'s" := 6%Z ]} ".,?" {[ "'s" ]} "'" "-" 1.

(** A list of named tiers that stands in for praatio's container in the
    worked examples: a tier is added under a new name only, and replaced
    under an existing one only. *)
Definition toy_textgrid : Type := list (string * list Interval).

Definition toy_has (tg : toy_textgrid) (tier_name : string) : bool :=
  existsb (fun t => String.eqb (fst t) tier_name) tg.

Definition toy_tier (tier_name : string) (entries : list Interval) (minT maxT : Q)
  : result (string * list Interval) :=
  Ok (tier_name, entries).

Definition toy_add (tg : toy_textgrid) (tier : string * list Interval)
  : result toy_textgrid :=
  if toy_has tg (fst tier) then Raise ExportError else Ok (tg ++ [tier])%list.

Definition toy_replace (tg : toy_textgrid) (tier_name : string)
    (tier : string * list Interval) : result toy_textgrid :=
  if toy_has tg tier_name
  then Ok (map (fun t => if String.eqb (fst t) tier_name then tier else t) tg)
  else Raise ExportError.

(** Two word objects and three phone objects of a file of two seconds. *)
Definition two_seconds : heap :=
  heap_of [mkCtm 0 1 "the" (Some "u"); mkCtm 1 (399 # 200) "cat" (Some "u");
           mkCtm 0 (1 # 2) "DH" (Some "u"); mkCtm (1 # 2) 1 "AH" (Some "u");
           mkCtm 1 (399 # 200) "K" (Some "u")].

(** The aligned phones of "cat's", four objects. *)
Definition cats_phones : heap :=
  heap_of [mkCtm 0 (1 # 10) "k" (Some "u"); mkCtm (1 # 10) (2 # 10) "ae" (Some "u");
           mkCtm (2 # 10) (3 # 10) "t" (Some "u"); mkCtm (3 # 10) (1 # 2) "s" (Some "u")].

(** One aligned phone "a". *)
Definition one_phone : heap := heap_of [mkCtm 0 1 "a" (Some "u")].

(** A batch of two jobs with three files, two of which fail. *)
Definition sample_batch : list (list job_file) :=
  [[mkJobFile "a.wav" (fun _ => None); mkJobFile "b.wav" (fun _ => Some "boom")];
   [mkJobFile "c.wav" (fun _ => Some "bang")]].

(** ** The remaining functions of the module

    The functions below also index dicts, so their outcome has a third
    case beside a value and an exception of [exn]: the [KeyError] of a
    missing key. *)

Inductive attempt (A : Type) : Type :=
| Done (a : A)
| Failed (e : exn)
| KeyError.

Arguments Done {A} a.
Arguments Failed {A} e.
Arguments KeyError {A}.

Definition lift {A : Type} (m : result A) : attempt A :=
  match m with
  | Ok a => Done a
  | Raise e => Failed e
  end.

(** [d[k]] *)
Definition getitem {K : Type} `{Countable K} {V : Type} (d : gmap K V) (k : K)
  : attempt V :=
  match d !! k with
  | Some v => Done v
  | None => KeyError
  end.

(** [self.begin += offset; self.end += offset] on the object [r]. *)
Definition shift_times_at (r : ref) (offset : Q) (h : heap) : heap :=
  update r (shift_times offset (obj h r)) h.

(** The objects of [h0] have in [h] the times and the utterance they have
    in [h0], and [h] has allocated no less. *)
Definition times_kept (h0 h : heap) : Prop :=
  (next h0 <= next h)%nat
  /\ forall r, (r < next h0)%nat ->
       begin_ (obj h r) = begin_ (obj h0 r)
       /\ end_ (obj h r) = end_ (obj h0 r)
       /\ utterance (obj h r) = utterance (obj h0 r).

(** An object that [map_to_original_pronunciation] has built in [h] for
    two aligned phones that follow one another: it is new, it begins with
    the first and ends with the second, and its label is their two labels,
    all as they were in [h0]. *)
Definition merged (h0 : heap) (phones : list ref) (h : heap) (r : ref) : Prop :=
  (next h0 <= r < next h)%nat
  /\ exists i a b,
       phones !! i = Some a /\ phones !! S i = Some b
       /\ obj h r = mkCtm (begin_ (obj h0 a)) (end_ (obj h0 b))
                      (label (obj h0 a) ++ label (obj h0 b)) (utterance (obj h0 a)).

(** What the walk keeps true of [new_phones] beside [relabelled_once]. *)
Definition remap_sound (strip_diacritics : list string) (h0 : heap) (phones : list ref)
    (st : remap_state) : Prop :=
  relabelled_once strip_diacritics h0 phones st
  /\ times_kept h0 (rs_heap st)
  /\ Forall (fun r => r ∈ phones \/ merged h0 phones (rs_heap st) r) (new_phones st).

(** The entries of [export_errors] have different names, and each is the
    name of a file with the text of an export of it that failed. *)
Definition recorded (files : list job_file) (errors : list (string * string)) : Prop :=
  NoDup (map fst errors)
  /\ forall n text, (n, text) ∈ errors ->
       exists f b, f ∈ files /\ name f = n /\ export_outcome f b = Some text.

(** ** CTM reader

    What the two loops of [ctms_to_textgrids_non_mp] over the CTM files of
    a job read of the corpus, for an utterance object [U]: the dict
    [aligner.corpus.utterances], the test [utt != cur_utt], the attributes
    [is_segment], [begin] and [text] of an utterance, and, through its
    speaker, the dictionary data, the two reversed mappings and the word
    positions. *)
Record Corpus (U : Type) : Type := mkCorpus {
  corpus_utterances : gmap string U;
  differs : U -> U -> bool;
  is_segment : U -> bool;
  segment_begin : U -> Q;
  utt_text : U -> string;
  utt_dictionary : U -> DictionaryData;
  reversed_words_mapping : U -> gmap Z string;
  reversed_phone_mapping : U -> gmap Z string;
  positions : U -> list string
}.

Arguments mkCorpus {U}.
Arguments corpus_utterances {U}.
Arguments differs {U}.
Arguments is_segment {U}.
Arguments segment_begin {U}.
Arguments utt_text {U}.
Arguments utt_dictionary {U}.
Arguments reversed_words_mapping {U}.
Arguments reversed_phone_mapping {U}.
Arguments positions {U}.

(** The variables of one of the loops: the interval objects, [cur_utt],
    [current_labels], and the assignments to [cur_utt.word_labels] or
    [cur_utt.phone_labels] made so far, in order, each with the list as it
    was when it was assigned. *)
Record reader (U : Type) : Type := mkReader {
  rd_heap : heap;
  cur_utt : option U;
  current_labels : list ref;
  assignments : list (U * list ref)
}.

Arguments mkReader {U}.
Arguments rd_heap {U}.
Arguments cur_utt {U}.
Arguments current_labels {U}.
Arguments assignments {U}.

(** [line.strip()], on the whitespace of ASCII. *)
Fixpoint lstrip (s : string) : string :=
  match s with
  | "" => ""
  | String c s' => if is_whitespace c then lstrip s' else s
  end.

Fixpoint rstrip (s : string) : string :=
  match s with
  | "" => ""
  | String c s' =>
      let t := rstrip s' in
      if String.eqb t "" && is_whitespace c then "" else String c t
  end.

Definition strip (s : string) : string := rstrip (lstrip s).

(** New objects for the intervals that [parse_from_word] builds. *)
Fixpoint alloc_all (l : list CtmInterval) (h : heap) : list ref * heap :=
  match l with
  | [] => ([], h)
  | c :: l' =>
      let '(r, h1) := alloc c h in
      let '(rs, h2) := alloc_all l' h1 in
      (r :: rs, h2)
  end.

(** [utt.begin] for a segment, 0 otherwise. *)
Definition utt_begin_of {U : Type} (corpus : Corpus U) (u : U) : Q :=
  if is_segment corpus u then segment_begin corpus u else 0%Q.

(** The corpus as the word loop without cleanup reads it, seen from the
    phone loop: the words in the place of the phones, and no position. *)
Definition words_as_phones {U : Type} (corpus : Corpus U) : Corpus U :=
  mkCorpus (corpus_utterances corpus) (differs corpus) (is_segment corpus)
    (segment_begin corpus) (utt_text corpus) (utt_dictionary corpus)
    (reversed_words_mapping corpus) (reversed_words_mapping corpus) (fun _ => []).

Section Textgrid.

(** Python's [float(s)] and [int(s)]; for [int], [None] stands for the
    exception of a failed conversion. *)
Variable py_float : string -> float_outcome.
Variable py_int : string -> option Z.

(** [float(s)]; [None] stands for an infinity or a nan, with which the
    code goes on as with any float. *)
Definition to_float (s : string) : result (option Q) :=
  match py_float s with
  | Number q => Ok (Some q)
  | InfOrNan => Ok None
  | NoNumber => Raise ValueError
  end.

Definition to_integer (s : string) : result Z :=
  match py_int s with
  | Some z => Ok z
  | None => Raise ValueError
  end.

(** *** Interval parser *)

(** The exceptions are raised where the code raises them and in its
    order. An interval with a time that is an infinity or a nan is not an
    interval of the model, which stops there. *)
Definition process_ctm_line (line : string) : result CtmInterval :=
  let line := split_char " " line in
  utt ← index line 0;
  f2 ← index line 2;
  x ← to_float f2;
  f3 ← index line 3;
  duration ← to_float f3;
  label ← index line 4;
  match x, duration with
  | Some x, Some duration =>
      let begin := round4 x in
      let end' := round4 (begin + duration) in
      Ok (mkCtm begin end' label (Some utt))
  | _, _ => Raise OutOfModel
  end.

(** *** Lexical lookup and splitting *)

(** [montreal_forced_aligner.dictionary.sanitize(item, punctuation,
    clitic_markers)], imported by [_lookup]. *)
Variable sanitize : string -> string -> string -> string.

Section Dictionary.

Variable words_mapping : gmap string Z.
Variable punctuation : string.
Variable clitic_set : gset string.
Variable clitic_markers : string.
Variable compound_markers : string.
Variable oov_int : Z.

(** [item in words_mapping] *)
Definition in_mapping (item : string) : bool :=
  bool_decide (is_Some (words_mapping !! item)).

(** [any(x in item for x in markers)] *)
Definition has_marker (markers item : string) : bool :=
  any_char (fun x => char_in x item) markers.

(** [any(x in item and not item.endswith(x) and not item.startswith(x)
    for x in markers)] *)
Definition has_inner_marker (markers item : string) : bool :=
  any_char (fun x => char_in x item && negb (endswith item x) && negb (startswith item x))
    markers.

(** The [for seg in s] loop of the compound branch. *)
Fixpoint split_segments (rec : string -> result (list string)) (s : list string)
  : result (list string) :=
  match s with
  | [] => Ok []
  | seg :: s' =>
      here ← (if has_marker clitic_markers seg then rec seg else Ok [seg]);
      rest ← split_segments rec s';
      Ok (here ++ rest)%list
  end.

(** The [for clitic in clitic_markers] loop; [None] when the loop ends
    without returning. *)
Fixpoint attach_clitic (initial : string) (final : list string) (markers : string)
  : result (option (list string)) :=
  match markers with
  | "" => Ok None
  | String clitic markers' =>
      if bool_decide (initial ++ String clitic "" ∈ clitic_set)
      then Ok (Some ((initial ++ String clitic "") :: final))
      else
        f0 ← index final 0;
        if bool_decide (String clitic f0 ∈ clitic_set)
        then Ok (Some (initial :: <[0%nat := String clitic f0]> final))
        else attach_clitic initial final markers'
  end.

(** [split_clitics], with a budget for the depth of its recursion. *)
Fixpoint split_clitics_fuel (fuel : nat) (item : string) : result (list string) :=
  match fuel with
  | O => Raise OutOfModel
  | S fuel' =>
      if in_mapping item then Ok [item]
      else if has_marker compound_markers item then
        s ← re_split compound_markers item;
        if has_marker clitic_markers item
        then split_segments (split_clitics_fuel fuel') s
        else Ok s
      else if has_inner_marker clitic_markers item then
        parts ← re_split_once clitic_markers item;
        match parts with
        | [initial; final] =>
            final ← (if has_marker clitic_markers final
                     then split_clitics_fuel fuel' final
                     else Ok [final]);
            found ← attach_clitic initial final clitic_markers;
            match found with
            | Some tokens => Ok tokens
            | None => Ok [item]
            end
        | _ => Raise ValueError
        end
      else Ok [item]
  end.

(** Every recursive call is on a strictly shorter string, so a budget of
    one more than the length of the word is never exhausted. *)
Definition split_clitics (item : string) : result (list string) :=
  split_clitics_fuel (S (String.length item)) item.

Definition oov_count (split : list string) : nat :=
  length (filter (fun x => in_mapping x = false) split).

Definition _lookup (item : string) : result (list string) :=
  if in_mapping item then Ok [item]
  else
    let sanitized := sanitize item punctuation clitic_markers in
    if in_mapping sanitized then Ok [sanitized]
    else
      split ← split_clitics sanitized;
      if (oov_count split <? length split)%nat then Ok split
      else Ok [sanitized].

(** The loop body of [to_int]: empty tokens are skipped. *)
Definition token_id (item : string) : list Z :=
  if String.eqb item "" then []
  else match words_mapping !! item with
       | Some i => [i]
       | None => [oov_int]
       end.

Definition to_int (item : string) : result (list Z) :=
  if String.eqb item "" then Ok []
  else
    sanitized ← _lookup item;
    Ok (concat (map token_id sanitized)).

End Dictionary.

(** *** Word reconstructor *)

(** The variables of [parse_from_word] that its inner loop updates. *)
Record word_state : Type := mkWordState {
  cur_ind : nat;
  utt : option string;
  b : Q;
  e : Q
}.

(** One pass of [for i in ints]. *)
Definition consume_entry (ctm_labels : list CtmInterval) (i : Z) (st : word_state)
  : result word_state :=
  cur ← index ctm_labels (cur_ind st);
  let utterance' := match utt st with
                    | None => utterance cur
                    | Some u => Some u
                    end in
  n ← to_integer (label cur);
  if (i =? n)%Z then
    let b' := if Qltb (begin_ cur) (b st) then begin_ cur else b st in
    let e' := if Qltb (e st) (end_ cur) then end_ cur else e st in
    Ok (mkWordState (S (cur_ind st)) utterance' b' e')
  else
    Ok (mkWordState (S (cur_ind st)) utterance' (b st) (e st)).

Fixpoint consume (ctm_labels : list CtmInterval) (ints : list Z) (st : word_state)
  : result word_state :=
  match ints with
  | [] => Ok st
  | i :: ints' =>
      st' ← consume_entry ctm_labels i st;
      consume ctm_labels ints' st'
  end.

(** The [for word in text] loop, from cursor [ind] on. *)
Fixpoint parse_words (ctm_labels : list CtmInterval) (dictionary_data : DictionaryData)
    (text : list string) (ind : nat) (utterance : option string)
  : result (list CtmInterval) :=
  match text with
  | [] => Ok []
  | word :: text' =>
      ints ← to_int (words_mapping dictionary_data) (punctuation dictionary_data)
                    (clitic_set dictionary_data) (clitic_markers dictionary_data)
                    (compound_markers dictionary_data) (oov_int dictionary_data) word;
      st ← consume ctm_labels ints (mkWordState ind utterance 1000000 (-1));
      rest ← parse_words ctm_labels dictionary_data text' (cur_ind st) (utt st);
      Ok (mkCtm (b st) (e st) word (utt st) :: rest)
  end.

Definition parse_from_word (ctm_labels : list CtmInterval) (text : list string)
    (dictionary_data : DictionaryData) : result (list CtmInterval) :=
  parse_words ctm_labels dictionary_data text 0 None.

(** What a word consumes, for stating the properties of the reconstruction:
    its expected ids and the aligned entries taken from the stream for
    them. *)
Record chunk : Type := mkChunk {
  ch_word : string;
  ch_ids : list Z;
  ch_entries : list CtmInterval
}.

(** The consumed entries whose numeric label is the expected id. *)
Fixpoint matched (ids : list Z) (entries : list CtmInterval) : list CtmInterval :=
  match ids, entries with
  | i :: ids', c :: entries' =>
      if bool_decide (py_int (label c) = Some i)
      then c :: matched ids' entries'
      else matched ids' entries'
  | _, _ => []
  end.

(** Neighbouring entries leave no gap and are ordered in time. *)
Fixpoint chained (l : list CtmInterval) : Prop :=
  match l with
  | c :: ((c' :: _) as l') =>
      (begin_ c <= begin_ c')%Q /\ (begin_ c' <= end_ c)%Q /\ chained l'
  | _ => True
  end.

(** [t] lies in the span of one of the entries. *)
Definition covered (l : list CtmInterval) (t : Q) : Prop :=
  exists c, c ∈ l /\ (begin_ c <= t)%Q /\ (t <= end_ c)%Q.

(** The running minimum of the begins and maximum of the ends, as the
    two comparisons of the inner loop compute them. *)
Definition lower (b0 : Q) (l : list CtmInterval) : Q :=
  fold_left (fun b c => if Qltb (begin_ c) b then begin_ c else b) l b0.

Definition upper (e0 : Q) (l : list CtmInterval) : Q :=
  fold_left (fun e c => if Qltb e (end_ c) then end_ c else e) l e0.

(** An entry whose times are ordered and lie strictly between the two
    initial values [-1] and [1000000] of the bounds. *)
Definition well_timed (c : CtmInterval) : Prop :=
  (begin_ c <= end_ c)%Q /\ (begin_ c < 1000000)%Q /\ (-1 < end_ c)%Q.

(** The words of a text with what each consumes, the stream being read
    from position [ind] on. *)
Fixpoint chunks (ctm_labels : list CtmInterval) (dictionary_data : DictionaryData)
    (text : list string) (ind : nat) : result (list chunk) :=
  match text with
  | [] => Ok []
  | word :: text' =>
      ints ← to_int (words_mapping dictionary_data) (punctuation dictionary_data)
                    (clitic_set dictionary_data) (clitic_markers dictionary_data)
                    (compound_markers dictionary_data) (oov_int dictionary_data) word;
      rest ← chunks ctm_labels dictionary_data text' (ind + length ints);
      Ok (mkChunk word ints (take (length ints) (drop ind ctm_labels)) :: rest)
  end.

(** The interval that the loop builds for a word from what it consumed. *)
Definition merged_from (ch : chunk) (iv : CtmInterval) : Prop :=
  label iv = ch_word ch
  /\ length (ch_entries ch) = length (ch_ids ch)
  /\ begin_ iv = lower 1000000 (matched (ch_ids ch) (ch_entries ch))
  /\ end_ iv = upper (-1) (matched (ch_ids ch) (ch_entries ch)).

(** *** Annotation exporter *)

(** The fields of [File] that the exporter reads. A speaker is the text it
    formats to. *)
Record File : Type := mkFile {
  duration : Q;
  speaker_ordering : list string
}.

(** The tier data of one speaker: [data["words"]] and [data["phones"]]. *)
Record tier_data : Type := mkTierData {
  words : list ref;
  phones : list ref
}.

(** praatio's tier container and its operations. They are library code;
    each may raise. [tg_new d] is [Textgrid()] with [minTimestamp = 0] and
    [maxTimestamp = d]; [IntervalTier name entries minT maxT] is the
    constructor call. *)
Variable Textgrid : Type.
Variable Tier : Type.
Variable tg_new : Q -> Textgrid.
Variable openTextgrid : string -> result Textgrid.
Variable IntervalTier : string -> list Interval -> Q -> Q -> result Tier.
Variable addTier : Textgrid -> Tier -> result Textgrid.
Variable replaceTier : Textgrid -> string -> Tier -> result Textgrid.
Variable save : Textgrid -> string -> result unit.

(** [if frame_shift > 1: frame_shift = round(frame_shift / 1000, 4)] *)
Definition frame_shift_seconds (frame_shift : Q) : Q :=
  if Qltb 1 frame_shift then round4 (frame_shift / 1000) else frame_shift.

(** Two empty tiers are built, then added. *)
Definition add_empty_pair (word_tier_name phone_tier_name : string) (d : Q) (tg : Textgrid)
  : result Textgrid :=
  word_tier ← IntervalTier word_tier_name [] 0 d;
  phone_tier ← IntervalTier phone_tier_name [] 0 d;
  tg ← addTier tg word_tier;
  addTier tg phone_tier.

Fixpoint add_speaker_pairs (speakers : list string) (d : Q) (tg : Textgrid)
  : result Textgrid :=
  match speakers with
  | [] => Ok tg
  | speaker :: rest =>
      tg ← add_empty_pair (speaker ++ " - words") (speaker ++ " - phones") d tg;
      add_speaker_pairs rest d tg
  end.

(** The textgrid before the speaker loop. *)
Definition initial_textgrid (file : File) (output_path : string) (first_file_write : bool)
  : result Textgrid :=
  if first_file_write then
    let tg := tg_new (duration file) in
    if (1 <? length (speaker_ordering file))%nat
    then add_speaker_pairs (speaker_ordering file) (duration file) tg
    else add_empty_pair "words" "phones" (duration file) tg
  else
    tg ← openTextgrid output_path;
    add_empty_pair "words" "phones" (duration file) tg.

(** [for w in words: ...]: an end close to the end of the file is
    overwritten in the object, then the object is converted. *)
Fixpoint snap_tier (d frame_shift : Q) (l : list ref) (h : heap) : heap * list Interval :=
  match l with
  | [] => (h, [])
  | w :: l' =>
      let h1 := if Qltb (d - end_ (obj h w)) frame_shift then set_end w d h else h in
      let iv := to_tg_interval (obj h1 w) in
      let '(h2, rest) := snap_tier d frame_shift l' h1 in
      (h2, iv :: rest)
  end.

(** The [for speaker, data in speaker_data.items()] loop. The heap is
    returned also when a library call raises: the assignments made before
    it stay. *)
Fixpoint export_speakers (file : File) (frame_shift : Q)
    (speaker_data : list (string * tier_data)) (h : heap) (tg : Textgrid)
  : heap * result Textgrid :=
  match speaker_data with
  | [] => (h, Ok tg)
  | (speaker, data) :: rest =>
      let '(h1, tg_words) := snap_tier (duration file) frame_shift (words data) h in
      let '(h2, tg_phones) := snap_tier (duration file) frame_shift (phones data) h1 in
      let multi := (1 <? length (speaker_ordering file))%nat in
      let word_tier_name := if multi then speaker ++ " - words" else "words" in
      let phone_tier_name := if multi then speaker ++ " - phones" else "phones" in
      match
        (word_tier ← IntervalTier word_tier_name tg_words 0 (duration file);
         phone_tier ← IntervalTier phone_tier_name tg_phones 0 (duration file);
         tg ← replaceTier tg word_tier_name word_tier;
         replaceTier tg phone_tier_name phone_tier)
      with
      | Ok tg' => export_speakers file frame_shift rest h2 tg'
      | Raise e => (h2, Raise e)
      end
  end.

Definition export_textgrid (h : heap) (file : File) (output_path : string)
    (speaker_data : list (string * tier_data)) (frame_shift : Q) (first_file_write : bool)
  : heap * result unit :=
  let frame_shift := frame_shift_seconds frame_shift in
  match initial_textgrid file output_path first_file_write with
  | Raise e => (h, Raise e)
  | Ok tg =>
      match export_speakers file frame_shift speaker_data h tg with
      | (h', Ok tg') => (h', save tg' output_path)
      | (h', Raise e) => (h', Raise e)
      end
  end.

(** The interval lists handed to the tier constructors, speaker by
    speaker, when no library call raises. *)
Fixpoint exported_intervals (d frame_shift : Q) (speaker_data : list (string * tier_data))
    (h : heap) : list (string * (list Interval * list Interval)) :=
  match speaker_data with
  | [] => []
  | (speaker, data) :: rest =>
      let '(h1, tg_words) := snap_tier d frame_shift (words data) h in
      let '(h2, tg_phones) := snap_tier d frame_shift (phones data) h1 in
      (speaker, (tg_words, tg_phones)) :: exported_intervals d frame_shift rest h2
  end.

(** The tier part of the speaker loop, on interval lists that are already
    built: the tiers of each speaker are constructed and put in place. *)
Fixpoint replace_tiers (file : File)
    (tiers : list (string * (list Interval * list Interval))) (tg : Textgrid)
  : result Textgrid :=
  match tiers with
  | [] => Ok tg
  | (speaker, (tg_words, tg_phones)) :: rest =>
      let multi := (1 <? length (speaker_ordering file))%nat in
      let word_tier_name := if multi then speaker ++ " - words" else "words" in
      let phone_tier_name := if multi then speaker ++ " - phones" else "phones" in
      word_tier ← IntervalTier word_tier_name tg_words 0 (duration file);
      phone_tier ← IntervalTier phone_tier_name tg_phones 0 (duration file);
      tg ← replaceTier tg word_tier_name word_tier;
      tg ← replaceTier tg phone_tier_name phone_tier;
      replace_tiers file rest tg
  end.

(** The heap after the speaker loop has run over all of [speaker_data]. *)
Fixpoint snap_all (d frame_shift : Q) (speaker_data : list (string * tier_data)) (h : heap)
  : heap :=
  match speaker_data with
  | [] => h
  | (_, data) :: rest =>
      let h1 := fst (snap_tier d frame_shift (words data) h) in
      let h2 := fst (snap_tier d frame_shift (phones data) h1) in
      snap_all d frame_shift rest h2
  end.

(** Every interval object that [speaker_data] refers to. *)
Definition all_refs (speaker_data : list (string * tier_data)) : list ref :=
  concat (map (fun sd => words (snd sd) ++ phones (snd sd))%list speaker_data).

(** The interval written for an object of the heap [h]. *)
Definition serialized (d frame_shift : Q) (h : heap) (r : ref) : Interval :=
  to_tg_interval (snapped d frame_shift (obj h r)).

(** *** Labels from ids *)

(** [parse_from_word_no_cleanup]: the loop over the intervals. The list
    that is returned is the list that was passed. *)
Fixpoint relabel_words (reversed_word_mapping : gmap Z string) (l : list ref) (h : heap)
  : heap * attempt unit :=
  match l with
  | [] => (h, Done ())
  | ctm_interval :: l' =>
      match py_int (label (obj h ctm_interval)) with
      | None => (h, Failed ValueError)
      | Some n =>
          match getitem reversed_word_mapping n with
          | Done label' =>
              relabel_words reversed_word_mapping l' (set_label ctm_interval label' h)
          | Failed e => (h, Failed e)
          | KeyError => (h, KeyError)
          end
      end
  end.

Definition parse_from_word_no_cleanup (h : heap) (ctm_labels : list ref)
    (reversed_word_mapping : gmap Z string) : heap * attempt (list ref) :=
  match relabel_words reversed_word_mapping ctm_labels h with
  | (h', Done _) => (h', Done ctm_labels)
  | (h', Failed e) => (h', Failed e)
  | (h', KeyError) => (h', KeyError)
  end.

(** [s.endswith(p)] for a string [p]. *)
Fixpoint ends_with (s p : string) : bool :=
  String.eqb s p
  || match s with
     | "" => false
     | String _ s' => ends_with s' p
     end.

(** The first [n] characters of [s]. *)
Fixpoint take_str (n : nat) (s : string) : string :=
  match n, s with
  | S n', String c s' => String c (take_str n' s')
  | _, _ => ""
  end.

(** [if label.endswith(p): label = label[: -1 * len(p)]]. For an empty
    [p] the slice is [label[:0]]. *)
Definition strip_position (label p : string) : string :=
  if ends_with label p
  then match String.length p with
       | O => ""
       | S _ => take_str (String.length label - String.length p) label
       end
  else label.

(** [for p in positions: ...] *)
Definition strip_positions (positions : list string) (label : string) : string :=
  fold_left strip_position positions label.

(** [parse_from_phone]: the loop over the intervals. *)
Fixpoint relabel_phones (reversed_phone_mapping : gmap Z string) (positions : list string)
    (l : list ref) (h : heap) : heap * attempt unit :=
  match l with
  | [] => (h, Done ())
  | ctm_interval :: l' =>
      match py_int (label (obj h ctm_interval)) with
      | None => (h, Failed ValueError)
      | Some n =>
          match getitem reversed_phone_mapping n with
          | Done label' =>
              relabel_phones reversed_phone_mapping positions l'
                (set_label ctm_interval (strip_positions positions label') h)
          | Failed e => (h, Failed e)
          | KeyError => (h, KeyError)
          end
      end
  end.

Definition parse_from_phone (h : heap) (ctm_labels : list ref)
    (reversed_phone_mapping : gmap Z string) (positions : list string)
  : heap * attempt (list ref) :=
  match relabel_phones reversed_phone_mapping positions ctm_labels h with
  | (h', Done _) => (h', Done ctm_labels)
  | (h', Failed e) => (h', Failed e)
  | (h', KeyError) => (h', KeyError)
  end.

(** *** Tier builder *)

(** What [generate_tiers] reads of a speaker's [dictionary_data]: the
    fields of the lookup and, beside them, the flag of the multilingual
    mode, the code of the unknown word, the pronunciations of the words,
    the silence labels and the diacritics to strip. *)
Record TierDictionary : Type := mkTierDictionary {
  lexicon : DictionaryData;
  multilingual_ipa : bool;
  oov_code : string;
  dictionary_words : gmap string (list PronunciationEntry);
  silences : gset string;
  strip_diacritics : list string
}.

(** An utterance: the speaker as the text it formats to, the dictionary
    data of that speaker, and the two lists of interval objects. *)
Record Utterance : Type := mkUtterance {
  speaker : string;
  dictionary_data : TierDictionary;
  word_labels : list ref;
  phone_labels : list ref
}.

(** [[dictionary_data.words[x] for x in subwords]] after out-of-vocabulary
    sub-words have been replaced by [oov_code]. *)
Fixpoint subpronunciations_of (dd : TierDictionary) (subwords : list string)
  : attempt (list (list PronunciationEntry)) :=
  match subwords with
  | [] => Done []
  | x :: rest =>
      let x' := if in_mapping (words_mapping (lexicon dd)) x then x else oov_code dd in
      match getitem (dictionary_words dd) x' with
      | Done prons =>
          match subpronunciations_of dd rest with
          | Done more => Done (prons :: more)
          | Failed e => Failed e
          | KeyError => KeyError
          end
      | Failed e => Failed e
      | KeyError => KeyError
      end
  end.

(** The [while u.phone_labels[phone_ind].end <= end] loop, on the phone
    labels from [phone_ind] on. Reading past the last label raises; the
    loop is left at a label that ends later, or after the last label has
    been appended. *)
Fixpoint gather (h : heap) (sil : gset string) (end' : Q) (rest : list ref)
    (phone_ind : nat) (cur_phones : list ref) : result (nat * list ref) :=
  match rest with
  | [] => Raise IndexError
  | p :: rest' =>
      if Qle_bool (end_ (obj h p)) end' then
        if bool_decide (label (obj h p) ∈ sil)
        then gather h sil end' rest' (S phone_ind) cur_phones
        else match rest' with
             | [] => Ok (S phone_ind, cur_phones ++ [p])%list
             | _ => gather h sil end' rest' (S phone_ind) (cur_phones ++ [p])%list
             end
      else Ok (phone_ind, cur_phones)
  end.

(** The lists [words] and [phones] and the cursor [phone_ind] of the
    multilingual branch. *)
Record ipa_state : Type := mkIpaState {
  ipa_heap : heap;
  ipa_words : list ref;
  ipa_phones : list ref;
  phone_ind : nat
}.

(** One pass of [for interval in u.word_labels] in the multilingual
    branch. *)
Definition ipa_word (u : Utterance) (interval : ref) (st : ipa_state)
  : ipa_state * attempt unit :=
  let dd := dictionary_data u in
  let h := ipa_heap st in
  let end' := end_ (obj h interval) in
  let word := label (obj h interval) in
  match _lookup (words_mapping (lexicon dd)) (punctuation (lexicon dd))
          (clitic_set (lexicon dd)) (clitic_markers (lexicon dd))
          (compound_markers (lexicon dd)) word with
  | Raise e => (st, Failed e)
  | Ok subwords =>
      match subpronunciations_of dd subwords with
      | Failed e => (st, Failed e)
      | KeyError => (st, KeyError)
      | Done subprons =>
          match gather h (silences dd) end' (drop (phone_ind st) (phone_labels u))
                  (phone_ind st) [] with
          | Raise e => (st, Failed e)
          | Ok (phone_ind', cur_phones) =>
              match map_to_original_pronunciation h cur_phones subprons
                      (strip_diacritics dd) with
              | (rs, Raise e) =>
                  (mkIpaState (rs_heap rs) (ipa_words st) (ipa_phones st) phone_ind',
                   Failed e)
              | (rs, Ok remapped) =>
                  (mkIpaState (rs_heap rs)
                     (if String.eqb word "" then ipa_words st
                      else ipa_words st ++ [interval])%list
                     (ipa_phones st ++ remapped)%list phone_ind',
                   Done ())
              end
          end
      end
  end.

Fixpoint ipa_words_loop (u : Utterance) (l : list ref) (st : ipa_state)
  : ipa_state * attempt unit :=
  match l with
  | [] => (st, Done ())
  | interval :: l' =>
      match ipa_word u interval st with
      | (st', Done _) => ipa_words_loop u l' st'
      | (st', Failed e) => (st', Failed e)
      | (st', KeyError) => (st', KeyError)
      end
  end.

(** The phones kept by the other branch: all of them, or those without a
    silence label when the textgrids are cleaned up. *)
Definition kept_phones (h : heap) (sil : gset string) (cleanup_textgrids : bool)
    (l : list ref) : list ref :=
  filter (fun interval =>
            negb (bool_decide (label (obj h interval) ∈ sil) && cleanup_textgrids) = true) l.

(** [output[speaker] = {...}] for a new speaker, the two [extend] calls
    for a known one. *)
Fixpoint add_tiers (spk : string) (ws ps : list ref) (output : list (string * tier_data))
  : list (string * tier_data) :=
  match output with
  | [] => [(spk, mkTierData ws ps)]
  | (spk', data) :: output' =>
      if String.eqb spk' spk
      then (spk', mkTierData (words data ++ ws) (phones data ++ ps))%list :: output'
      else (spk', data) :: add_tiers spk ws ps output'
  end.

(** [generate_tiers], on the utterances of the file in the order of
    [file.utterances.values()]. *)
Fixpoint generate_tiers (h : heap) (utterances : list Utterance) (cleanup_textgrids : bool)
    (output : list (string * tier_data)) : heap * attempt (list (string * tier_data)) :=
  match utterances with
  | [] => (h, Done output)
  | u :: rest =>
      match word_labels u with
      | [] => generate_tiers h rest cleanup_textgrids output
      | _ =>
          let dd := dictionary_data u in
          if multilingual_ipa dd && cleanup_textgrids then
            match ipa_words_loop u (word_labels u) (mkIpaState h [] [] 0) with
            | (st, Done _) =>
                generate_tiers (ipa_heap st) rest cleanup_textgrids
                  (add_tiers (speaker u) (ipa_words st) (ipa_phones st) output)
            | (st, Failed e) => (ipa_heap st, Failed e)
            | (st, KeyError) => (ipa_heap st, KeyError)
            end
          else
            generate_tiers h rest cleanup_textgrids
              (add_tiers (speaker u) (word_labels u)
                 (kept_phones h (silences dd) cleanup_textgrids (phone_labels u)) output)
      end
  end.

(** [ctm_to_textgrid]: the tiers are generated and exported. The path of
    the output is computed elsewhere and is a parameter here. *)
Definition ctm_to_textgrid (h : heap) (file : File) (utterances : list Utterance)
    (output_path : string) (cleanup_textgrids : bool) (frame_shift : Q)
    (first_file_write : bool) : heap * attempt unit :=
  match generate_tiers h utterances cleanup_textgrids [] with
  | (h1, Done data) =>
      let '(h2, outcome) :=
        export_textgrid h1 file output_path data frame_shift first_file_write in
      (h2, lift outcome)
  | (h1, Failed e) => (h1, Failed e)
  | (h1, KeyError) => (h1, KeyError)
  end.

(** The tiers of a speaker in an output of [generate_tiers]: two empty
    lists for a speaker that is not a key. *)
Fixpoint tiers_of (spk : string) (output : list (string * tier_data)) : tier_data :=
  match output with
  | [] => mkTierData [] []
  | (spk', data) :: output' => if String.eqb spk' spk then data else tiers_of spk output'
  end.

(** The utterances of a speaker that have word labels. *)
Definition spoken_by (spk : string) (utterances : list Utterance) : list Utterance :=
  filter (fun u => speaker u = spk /\ word_labels u <> []) utterances.

(** The branch of [generate_tiers] that an utterance takes is the one that
    copies its labels. *)
Definition copied (cleanup_textgrids : bool) (u : Utterance) : Prop :=
  multilingual_ipa (dictionary_data u) && cleanup_textgrids = false.

(** *** CTM reader *)

(** The body of [process_current_word_labels] and of
    [process_current_phone_labels]: [labels_of] computes the list that is
    assigned to the attribute of [cur_utt]. With [cur_utt] still [None],
    reading [cur_utt.speaker] raises [AttributeError]. *)
Definition process_current_labels {U : Type}
    (labels_of : U -> list ref -> heap -> heap * attempt (list ref)) (st : reader U)
  : reader U * attempt unit :=
  match cur_utt st with
  | None => (st, Failed AttributeError)
  | Some u =>
      match labels_of u (current_labels st) (rd_heap st) with
      | (h, Done actual_labels) =>
          (mkReader h (Some u) (current_labels st) (assignments st ++ [(u, actual_labels)]),
           Done ())
      | (h, Failed e) => (mkReader h (Some u) (current_labels st) (assignments st), Failed e)
      | (h, KeyError) => (mkReader h (Some u) (current_labels st) (assignments st), KeyError)
      end
  end.

(** [parse_from_word] reads the intervals and builds new ones;
    [parse_from_word_no_cleanup] relabels them. *)
Definition word_labels_of {U : Type} (corpus : Corpus U) (cleanup_textgrids : bool) (u : U)
    (labels : list ref) (h : heap) : heap * attempt (list ref) :=
  if cleanup_textgrids then
    match parse_from_word (map (obj h) labels)
            (whitespace_fields (utt_text corpus u)) (utt_dictionary corpus u) with
    | Ok actual_labels => let '(rs, h') := alloc_all actual_labels h in (h', Done rs)
    | Raise e => (h, Failed e)
    end
  else parse_from_word_no_cleanup h labels (reversed_words_mapping corpus u).

Definition phone_labels_of {U : Type} (corpus : Corpus U) (u : U) (labels : list ref)
    (h : heap) : heap * attempt (list ref) :=
  parse_from_phone h labels (reversed_phone_mapping corpus u) (positions corpus u).

(** One pass of [for line in f]. The test of the phone loop has a second
    conjunct, [cur_utt is not None], which holds where it is evaluated.
    The keys of [aligner.corpus.utterances] are strings, so an interval
    without an utterance would be a [KeyError]. *)
Definition read_line {U : Type} (corpus : Corpus U)
    (labels_of : U -> list ref -> heap -> heap * attempt (list ref)) (line : string)
    (st : reader U) : reader U * attempt unit :=
  let line := strip line in
  if String.eqb line "" then (st, Done ())
  else
    match process_ctm_line line with
    | Raise e => (st, Failed e)
    | Ok c =>
        let '(ctm_interval, h) := alloc c (rd_heap st) in
        let st := mkReader h (cur_utt st) (current_labels st) (assignments st) in
        match utterance c with
        | None => (st, KeyError)
        | Some key =>
            match getitem (corpus_utterances corpus) key with
            | Failed e => (st, Failed e)
            | KeyError => (st, KeyError)
            | Done utt =>
                let cur := match cur_utt st with
                           | None => utt
                           | Some cur => cur
                           end in
                let st := mkReader h (Some cur) (current_labels st) (assignments st) in
                let utt_begin := if is_segment corpus utt then segment_begin corpus utt
                                 else 0%Q in
                let append (st : reader U) :=
                  (mkReader (shift_times_at ctm_interval utt_begin (rd_heap st)) (cur_utt st)
                     (current_labels st ++ [ctm_interval]) (assignments st), Done ()) in
                if differs corpus utt cur then
                  match process_current_labels labels_of st with
                  | (st, Done _) =>
                      append (mkReader (rd_heap st) (Some utt) [] (assignments st))
                  | (st, Failed e) => (st, Failed e)
                  | (st, KeyError) => (st, KeyError)
                  end
                else append st
            end
        end
    end.

Fixpoint read_lines {U : Type} (corpus : Corpus U)
    (labels_of : U -> list ref -> heap -> heap * attempt (list ref)) (lines : list string)
    (st : reader U) : reader U * attempt unit :=
  match lines with
  | [] => (st, Done ())
  | line :: lines' =>
      match read_line corpus labels_of line st with
      | (st', Done _) => read_lines corpus labels_of lines' st'
      | (st', Failed e) => (st', Failed e)
      | (st', KeyError) => (st', KeyError)
      end
  end.

(** One pass of [for dict_name in ...dictionaries]: the lines of the file,
    then [if current_labels: process_current_..._labels()]. *)
Definition read_file {U : Type} (corpus : Corpus U)
    (labels_of : U -> list ref -> heap -> heap * attempt (list ref)) (lines : list string)
    (st : reader U) : reader U * attempt unit :=
  match read_lines corpus labels_of lines st with
  | (st', Done _) =>
      match current_labels st' with
      | [] => (st', Done ())
      | _ => process_current_labels labels_of st'
      end
  | (st', Failed e) => (st', Failed e)
  | (st', KeyError) => (st', KeyError)
  end.

Fixpoint read_files {U : Type} (corpus : Corpus U)
    (labels_of : U -> list ref -> heap -> heap * attempt (list ref))
    (files : list (list string)) (st : reader U) : reader U * attempt unit :=
  match files with
  | [] => (st, Done ())
  | lines :: files' =>
      match read_file corpus labels_of lines st with
      | (st', Done _) => read_files corpus labels_of files' st'
      | (st', Failed e) => (st', Failed e)
      | (st', KeyError) => (st', KeyError)
      end
  end.

(** The loop over the word CTM files of a job and the loop over its phone
    CTM files, each from [cur_utt = None] and [current_labels = []]. *)
Definition read_word_ctms {U : Type} (corpus : Corpus U) (cleanup_textgrids : bool)
    (files : list (list string)) (h : heap) : reader U * attempt unit :=
  read_files corpus (word_labels_of corpus cleanup_textgrids) files (mkReader h None [] []).

Definition read_phone_ctms {U : Type} (corpus : Corpus U) (files : list (list string))
    (h : heap) : reader U * attempt unit :=
  read_files corpus (phone_labels_of corpus) files (mkReader h None [] []).

(** The records of a CTM file whose lines all parse and name utterances of
    the corpus: for each line that is not blank, the utterance and the
    interval. *)
Fixpoint records {U : Type} (corpus : Corpus U) (lines : list string)
  : option (list (U * CtmInterval)) :=
  match lines with
  | [] => Some []
  | line :: lines' =>
      if String.eqb (strip line) "" then records corpus lines'
      else
        match process_ctm_line (strip line) with
        | Ok c =>
            match utterance c with
            | Some key =>
                match corpus_utterances corpus !! key, records corpus lines' with
                | Some utt, Some recs => Some ((utt, c) :: recs)
                | _, _ => None
                end
            | None => None
            end
        | Raise _ => None
        end
  end.

(** A record whose label is the id of a phone of its utterance's speaker. *)
Definition known {U : Type} (corpus : Corpus U) (rec : U * CtmInterval) : Prop :=
  exists n w, py_int (label (snd rec)) = Some n
              /\ reversed_phone_mapping corpus (fst rec) !! n = Some w.

(** The interval object of a record once it has been read: its times are
    shifted by the begin of its utterance when that is a segment. *)
Definition as_read {U : Type} (corpus : Corpus U) (rec : U * CtmInterval) : CtmInterval :=
  shift_times (utt_begin_of corpus (fst rec)) (snd rec).

(** The same once [parse_from_phone] has gone over it. *)
Definition as_phone {U : Type} (corpus : Corpus U) (rec : U * CtmInterval)
    (c : CtmInterval) : Prop :=
  exists n w, py_int (label (snd rec)) = Some n
              /\ reversed_phone_mapping corpus (fst rec) !! n = Some w
              /\ c = mkCtm (begin_ (as_read corpus rec)) (end_ (as_read corpus rec))
                       (strip_positions (positions corpus (fst rec)) w)
                       (utterance (snd rec)).

(** The state of the phone loop inside a file, after the records [done]. *)
Definition reading {U : Type} (corpus : Corpus U) (h0 : heap) (done : list (U * CtmInterval))
    (st : reader U) : Prop :=
  next (rd_heap st) = (next h0 + length done)%nat
  /\ (concat (map snd (assignments st)) ++ current_labels st)%list
     = seq (next h0) (length done)
  /\ (forall r, (r < next h0)%nat -> obj (rd_heap st) r = obj h0 r)
  /\ (forall u refs, (u, refs) ∈ assignments st ->
        refs <> []
        /\ forall r, r ∈ refs ->
             exists c, done !! (r - next h0)%nat = Some (u, c)
                       /\ as_phone corpus (u, c) (obj (rd_heap st) r))
  /\ (forall r, r ∈ current_labels st ->
        exists u c, cur_utt st = Some u /\ done !! (r - next h0)%nat = Some (u, c)
                    /\ obj (rd_heap st) r = as_read corpus (u, c))
  /\ (forall j u refs v refs',
        assignments st !! j = Some (u, refs) -> assignments st !! S j = Some (v, refs') ->
        u <> v)
  /\ (forall u refs cur,
        last (assignments st) = Some (u, refs) -> cur_utt st = Some cur -> u <> cur)
  /\ (done = [] -> cur_utt st = None)
  /\ (done <> [] -> current_labels st <> []).

(** The state of the phone loop in which the first of the current labels
    no longer carries a number. *)
Definition stale {U : Type} (st : reader U) : Prop :=
  exists cur r l,
    cur_utt st = Some cur /\ current_labels st = r :: l
    /\ (r < next (rd_heap st))%nat
    /\ py_int (label (obj (rd_heap st) r)) = None.

(** *** Samples *)

(** A dictionary whose silence is "sil", outside the multilingual mode. *)
Definition plain_tiers : TierDictionary :=
  mkTierDictionary cats_dictionary false "<unk>" ∅ {[ "sil" ]} [].

(** The same in the multilingual mode, with the pronunciation of "cat". *)
Definition ipa_tiers : TierDictionary :=
  mkTierDictionary cats_dictionary true "<unk>"
    {[ "cat" := [mkEntry ["k"; "ae"; "t"] None] ]} {[ "sil" ]} [].

(** The word "cat" after half a second of silence, in a file of two
    seconds: the word object and four phone objects. *)
Definition after_silence : heap :=
  heap_of [mkCtm (1 # 2) (399 # 200) "cat" (Some "u");
           mkCtm 0 (1 # 2) "sil" (Some "u"); mkCtm (1 # 2) 1 "k" (Some "u");
           mkCtm 1 (3 # 2) "ae" (Some "u"); mkCtm (3 # 2) (399 # 200) "t" (Some "u")].

Definition cat_utterance : Utterance :=
  mkUtterance "spk" plain_tiers [0]%nat [1; 2; 3; 4]%nat.

(** Two aligned intervals that still carry ids. *)
Definition phone_ids : heap :=
  heap_of [mkCtm 0 (1 # 2) "3" (Some "u"); mkCtm (1 # 2) 1 "4" (Some "u")].

(** A corpus of an utterance "u" and a segment "v" that begins at the
    third second. *)
Definition two_utterances : Corpus string :=
  mkCorpus {[ "u" := "u"; "v" := "v" ]} (fun a b => negb (String.eqb a b))
    (fun a => String.eqb a "v") (fun _ => 3%Q) (fun _ => "") (fun _ => cats_dictionary)
    (fun _ => ∅) (fun _ => {[ 3%Z := "AH_B"; 4%Z := "K_E" ]}) (fun _ => ["_B"; "_E"]).

(** A phone CTM file of three records. *)
Definition phone_ctm : list string :=
  ["u 1 0.0 0.5 3" ++ nl; "u 1 0.5 0.5 4" ++ nl; nl; "v 1 0.0 0.25 3" ++ nl].


Definition phone_records : list (string * CtmInterval) :=
  [("u", mkCtm 0 (1 # 2) "3" (Some "u")); ("u", mkCtm (1 # 2) 1 "4" (Some "u"));
   ("v", mkCtm 0 (1 # 4) "3" (Some "v"))].

(** ** Properties *)

(** *** Rounding *)

Lemma Qltb_lt (x y : Q) : Qltb x y = true <-> (x < y)%Q.
Proof.
  unfold Qltb. rewrite negb_true_iff, <- not_true_iff_false, Qle_bool_iff.
  split; [apply Qnot_le_lt | apply Qlt_not_le].
Qed.

Lemma Qltb_ge (x y : Q) : Qltb x y = false <-> (y <= x)%Q.
Proof.
  unfold Qltb. rewrite negb_false_iff. apply Qle_bool_iff.
Qed.

Lemma round_half_even_near (x : Q) :
  (Qabs (inject_Z (round_half_even x) - x) <= 1 # 2)%Q.
Proof.
  unfold round_half_even.
  pose proof (Qfloor_le x) as Hlo. pose proof (Qlt_floor x) as Hhi.
  rewrite inject_Z_plus in Hhi. change (inject_Z 1) with 1%Q in Hhi.
  set (f := Qfloor x) in *.
  apply Qabs_Qle_condition.
  destruct (Qcompare_spec (2 * (x - inject_Z f)) 1) as [He | Hl | Hg].
  - destruct (Z.even f); [| rewrite inject_Z_plus; change (inject_Z 1) with 1%Q];
      split; lra.
  - split; lra.
  - rewrite inject_Z_plus. change (inject_Z 1) with 1%Q. split; lra.
Qed.

(** [round4 x] is a multiple of 1/10000 at distance at most 1/20000. *)
Lemma round4_near (x : Q) :
  exists n : Z, (round4 x == n # 10000)%Q /\ (Qabs (round4 x - x) <= 1 # 20000)%Q.
Proof.
  exists (round_half_even (x * 10000)). unfold round4.
  pose proof (round_half_even_near (x * 10000)) as H.
  set (n := round_half_even (x * 10000)) in *.
  assert (Hn : (Qred (n # 10000) == inject_Z n * (1 # 10000))%Q).
  { rewrite Qred_correct. unfold Qeq, Qmult, inject_Z. simpl. lia. }
  split; [apply Qred_correct |].
  apply Qabs_Qle_condition in H. apply Qabs_Qle_condition.
  rewrite Hn. destruct H as [H1 H2]. split; lra.
Qed.

(** *** Interval parser *)

Lemma process_ctm_line_five (line f0 f1 f2 f3 f4 : string) (rest : list string) (x d : Q) :
  split_char " " line = f0 :: f1 :: f2 :: f3 :: f4 :: rest ->
  py_float f2 = Number x ->
  py_float f3 = Number d ->
  process_ctm_line line = Ok (mkCtm (round4 x) (round4 (round4 x + d)) f4 (Some f0)).
Proof.
  intros Hs Hx Hd. unfold process_ctm_line, to_float. rewrite Hs.
  cbn. rewrite Hx. cbn. rewrite Hd. reflexivity.
Qed.

(** The outcome of the parser, by the fields it reads in turn. *)
Lemma process_ctm_line_cases (line : string) :
  process_ctm_line line
  = match split_char " " line with
    | f0 :: _ :: f2 :: fields =>
        match py_float f2 with
        | NoNumber => Raise ValueError
        | begin =>
            match fields with
            | f3 :: fields' =>
                match py_float f3 with
                | NoNumber => Raise ValueError
                | duration =>
                    match fields' with
                    | f4 :: _ =>
                        match begin, duration with
                        | Number x, Number d =>
                            Ok (mkCtm (round4 x) (round4 (round4 x + d)) f4 (Some f0))
                        | _, _ => Raise OutOfModel
                        end
                    | [] => Raise IndexError
                    end
                end
            | [] => Raise IndexError
            end
        end
    | _ => Raise IndexError
    end.
Proof.
  unfold process_ctm_line, to_float, index.
  destruct (split_char " " line) as [| f0 [| f1 [| f2 [| f3 [| f4 rest]]]]]; cbn;
    try reflexivity; destruct (py_float f2); cbn; try reflexivity;
    destruct (py_float f3); reflexivity.
Qed.








(** *** Lexical lookup *)

Lemma in_mapping_lookup (wm : gmap string Z) (item : string) :
  in_mapping wm item = false <-> wm !! item = None.
Proof.
  unfold in_mapping. rewrite bool_decide_eq_false, <- eq_None_not_Some. reflexivity.
Qed.

(** The count of the code is the count of the specification. *)
Lemma oov_count_unknown (wm : gmap string Z) (split : list string) :
  oov_count wm split = unknown_tokens wm split.
Proof.
  unfold oov_count. induction split as [| x split IH]; [reflexivity |].
  rewrite filter_cons. cbn [unknown_tokens].
  destruct (wm !! x) as [i |] eqn:Hx.
  - rewrite decide_False; [exact IH |].
    rewrite in_mapping_lookup, Hx. discriminate.
  - rewrite decide_True by (apply in_mapping_lookup, Hx). cbn [length]. rewrite IH.
    reflexivity.
Qed.

(** C5: for a word that is not in the vocabulary, neither as it is nor
    sanitized, [_lookup] returns the split of [split_clitics] when the
    number of tokens of the split that are not in the vocabulary is
    strictly less than the number of its tokens, and the sanitized word
    alone otherwise; unless the two lists coincide, it returns the split if
    and only if that condition holds. *)
Theorem lookup_accepts_split
    (wm : gmap string Z) (punct : string) (cs : gset string) (cm comp : string)
    (item : string) (split : list string) :
  wm !! item = None ->
  wm !! sanitize item punct cm = None ->
  split_clitics wm cs cm comp (sanitize item punct cm) = Ok split ->
  ((unknown_tokens wm split < length split)%nat ->
     _lookup wm punct cs cm comp item = Ok split)
  /\ (~ (unknown_tokens wm split < length split)%nat ->
     _lookup wm punct cs cm comp item = Ok [sanitize item punct cm])
  /\ (split <> [sanitize item punct cm] ->
     (_lookup wm punct cs cm comp item = Ok split
      <-> (unknown_tokens wm split < length split)%nat)).
Proof.
  intros Hitem Hsan Hsplit. apply in_mapping_lookup in Hitem, Hsan.
  unfold _lookup. rewrite Hitem, Hsan, Hsplit.
  cbn [mbind result_bind]. rewrite oov_count_unknown.
  destruct (unknown_tokens wm split <? length split)%nat eqn:Hc.
  - apply Nat.ltb_lt in Hc. split; [done |]. split; [lia | done].
  - apply Nat.ltb_ge in Hc. split; [lia |]. split; [done |].
    intros Hne. split; [intros [=]; congruence | lia].
Qed.

(** *** Word reconstructor *)

Lemma lower_le_init (l : list CtmInterval) (b0 : Q) : (lower b0 l <= b0)%Q.
Proof.
  unfold lower. revert b0. induction l as [| c l IH]; intros b0; cbn.
  - apply Qle_refl.
  - eapply Qle_trans; [apply IH |].
    destruct (Qltb (begin_ c) b0) eqn:Hc; [| apply Qle_refl].
    apply Qlt_le_weak, Qltb_lt, Hc.
Qed.

Lemma lower_le_elem (l : list CtmInterval) (b0 : Q) (c : CtmInterval) :
  c ∈ l -> (lower b0 l <= begin_ c)%Q.
Proof.
  revert b0. induction l as [| x l IH]; intros b0 Hin.
  - inversion Hin.
  - apply elem_of_cons in Hin as [-> | Hin]; [| apply IH, Hin].
    change (lower b0 (x :: l))
      with (lower (if Qltb (begin_ x) b0 then begin_ x else b0) l).
    eapply Qle_trans; [apply lower_le_init |].
    destruct (Qltb (begin_ x) b0) eqn:Hc; [apply Qle_refl | apply Qltb_ge, Hc].
Qed.

Lemma lower_cases (l : list CtmInterval) (b0 : Q) :
  lower b0 l = b0 \/ exists c, c ∈ l /\ lower b0 l = begin_ c.
Proof.
  revert b0. induction l as [| x l IH]; intros b0; [left; reflexivity |].
  change (lower b0 (x :: l))
    with (lower (if Qltb (begin_ x) b0 then begin_ x else b0) l).
  destruct (IH (if Qltb (begin_ x) b0 then begin_ x else b0)) as [-> | (c & Hc & ->)].
  - destruct (Qltb (begin_ x) b0); [right; exists x; split; [left | reflexivity] | left; reflexivity].
  - right. exists c. split; [right; exact Hc | reflexivity].
Qed.

Lemma upper_ge_init (l : list CtmInterval) (e0 : Q) : (e0 <= upper e0 l)%Q.
Proof.
  unfold upper. revert e0. induction l as [| c l IH]; intros e0; cbn.
  - apply Qle_refl.
  - eapply Qle_trans; [| apply IH].
    destruct (Qltb e0 (end_ c)) eqn:Hc; [| apply Qle_refl].
    apply Qlt_le_weak, Qltb_lt, Hc.
Qed.

Lemma upper_ge_elem (l : list CtmInterval) (e0 : Q) (c : CtmInterval) :
  c ∈ l -> (end_ c <= upper e0 l)%Q.
Proof.
  revert e0. induction l as [| x l IH]; intros e0 Hin.
  - inversion Hin.
  - apply elem_of_cons in Hin as [-> | Hin]; [| apply IH, Hin].
    change (upper e0 (x :: l))
      with (upper (if Qltb e0 (end_ x) then end_ x else e0) l).
    eapply Qle_trans; [| apply upper_ge_init].
    destruct (Qltb e0 (end_ x)) eqn:Hc; [apply Qle_refl | apply Qltb_ge, Hc].
Qed.

Lemma upper_cases (l : list CtmInterval) (e0 : Q) :
  upper e0 l = e0 \/ exists c, c ∈ l /\ upper e0 l = end_ c.
Proof.
  revert e0. induction l as [| x l IH]; intros e0; [left; reflexivity |].
  change (upper e0 (x :: l))
    with (upper (if Qltb e0 (end_ x) then end_ x else e0) l).
  destruct (IH (if Qltb e0 (end_ x) then end_ x else e0)) as [-> | (c & Hc & ->)].
  - destruct (Qltb e0 (end_ x)); [right; exists x; split; [left | reflexivity] | left; reflexivity].
  - right. exists c. split; [right; exact Hc | reflexivity].
Qed.

(** With a matched entry below the initial value, the minimum is the begin
    of a matched entry. *)
Lemma lower_attained (l : list CtmInterval) (b0 : Q) :
  l <> [] -> Forall (fun c => (begin_ c < b0)%Q) l ->
  exists c, c ∈ l /\ lower b0 l = begin_ c.
Proof.
  intros Hne Hall. destruct (lower_cases l b0) as [Heq | H]; [| exact H].
  destruct l as [| x l]; [congruence |]. exfalso.
  pose proof (lower_le_elem (x :: l) b0 x ltac:(left)) as Hle.
  rewrite Heq in Hle. apply Forall_cons in Hall as [Hx _].
  apply (Qlt_irrefl b0). eapply Qle_lt_trans; eassumption.
Qed.

Lemma upper_attained (l : list CtmInterval) (e0 : Q) :
  l <> [] -> Forall (fun c => (e0 < end_ c)%Q) l ->
  exists c, c ∈ l /\ upper e0 l = end_ c.
Proof.
  intros Hne Hall. destruct (upper_cases l e0) as [Heq | H]; [| exact H].
  destruct l as [| x l]; [congruence |]. exfalso.
  pose proof (upper_ge_elem (x :: l) e0 x ltac:(left)) as Hle.
  rewrite Heq in Hle. apply Forall_cons in Hall as [Hx _].
  apply (Qlt_irrefl e0). eapply Qlt_le_trans; eassumption.
Qed.

Lemma matched_subset (ids : list Z) (entries : list CtmInterval) (c : CtmInterval) :
  c ∈ matched ids entries -> c ∈ entries.
Proof.
  revert entries. induction ids as [| i ids IH]; intros [| x entries]; cbn;
    try (intros H; inversion H; fail).
  destruct (bool_decide (py_int (label x) = Some i));
    [intros [-> | Hc]%elem_of_cons; [left | right; auto] | right; auto].
Qed.

(** What one pass of the inner loop does to the state. *)
Lemma consume_entry_ok (ctm : list CtmInterval) (i : Z) (st st' : word_state) :
  consume_entry ctm i st = Ok st' ->
  exists cur,
    ctm !! cur_ind st = Some cur
    /\ cur_ind st' = S (cur_ind st)
    /\ b st' = lower (b st) (matched [i] [cur])
    /\ e st' = upper (e st) (matched [i] [cur]).
Proof.
  unfold consume_entry, index, to_integer.
  destruct (ctm !! cur_ind st) as [cur |] eqn:Hcur; cbn [mbind result_bind];
    [| discriminate].
  destruct (py_int (label cur)) as [n |] eqn:Hn; cbn [mbind result_bind];
    [| discriminate].
  intros H. exists cur. split; [reflexivity |]. cbn [matched]. rewrite Hn.
  destruct (Z.eqb_spec i n) as [-> | Hne].
  - rewrite bool_decide_eq_true_2 by reflexivity.
    injection H as <-. cbn. auto.
  - rewrite bool_decide_eq_false_2 by congruence.
    injection H as <-. cbn. auto.
Qed.

Lemma matched_cons (i : Z) (ids : list Z) (c : CtmInterval) (entries : list CtmInterval) :
  matched (i :: ids) (c :: entries) = (matched [i] [c] ++ matched ids entries)%list.
Proof.
  cbn. destruct (bool_decide (py_int (label c) = Some i)); destruct ids; reflexivity.
Qed.

Lemma lower_app (l1 l2 : list CtmInterval) (b0 : Q) :
  lower b0 (l1 ++ l2) = lower (lower b0 l1) l2.
Proof. apply fold_left_app. Qed.

Lemma upper_app (l1 l2 : list CtmInterval) (e0 : Q) :
  upper e0 (l1 ++ l2) = upper (upper e0 l1) l2.
Proof. apply fold_left_app. Qed.

(** The inner loop takes as many entries as there are expected ids, and
    the bounds it leaves depend on the matched ones alone. *)
Lemma consume_ok (ctm : list CtmInterval) (ints : list Z) (st st' : word_state) :
  consume ctm ints st = Ok st' ->
  let entries := take (length ints) (drop (cur_ind st) ctm) in
  length entries = length ints
  /\ cur_ind st' = (cur_ind st + length ints)%nat
  /\ b st' = lower (b st) (matched ints entries)
  /\ e st' = upper (e st) (matched ints entries).
Proof.
  revert st. induction ints as [| i ints IH]; intros st; cbn [consume].
  - intros [= <-]. cbn. rewrite take_0. cbn. auto with lia.
  - destruct (consume_entry ctm i st) as [st1 |] eqn:H1; cbn [mbind result_bind];
      [| discriminate].
    intros H. apply consume_entry_ok in H1 as (cur & Hcur & Hind & Hb & He).
    apply IH in H as (Hlen & Hind' & Hb' & He'). cbn zeta in *.
    rewrite (drop_S _ _ _ Hcur). cbn [length take]. rewrite Hind in *.
    rewrite matched_cons, lower_app, upper_app, <- Hb, <- He.
    cbn [length]. repeat split; try assumption; lia.
Qed.

(** In a chain the begins do not decrease. *)
Lemma chained_begin (c : CtmInterval) (l : list CtmInterval) (x : CtmInterval) :
  chained (c :: l) -> x ∈ c :: l -> (begin_ c <= begin_ x)%Q.
Proof.
  revert c. induction l as [| c' l IH]; intros c Hch Hin.
  - apply list_elem_of_singleton in Hin as ->. apply Qle_refl.
  - apply elem_of_cons in Hin as [-> | Hin]; [apply Qle_refl |].
    destruct Hch as (Hb & _ & Hch). eapply Qle_trans; [exact Hb | apply IH; assumption].
Qed.

(** A time between the begin of one entry of a chain and the end of
    another lies in the span of an entry. *)
Lemma chained_covered (l : list CtmInterval) (t : Q) :
  chained l ->
  Forall (fun c => (begin_ c <= end_ c)%Q) l ->
  (exists ca, ca ∈ l /\ (begin_ ca <= t)%Q) ->
  (exists cb, cb ∈ l /\ (t <= end_ cb)%Q) ->
  covered l t.
Proof.
  induction l as [| c l IH]; intros Hch Hwf (ca & Hca & Hlo) (cb & Hcb & Hhi).
  - inversion Hca.
  - pose proof (chained_begin c l ca Hch Hca) as Hfirst.
    destruct (Qlt_le_dec (end_ c) t) as [Hgt | Hle].
    + destruct l as [| c' l].
      * apply list_elem_of_singleton in Hcb as ->.
        exfalso. apply (Qlt_irrefl t). eapply Qle_lt_trans; eassumption.
      * destruct Hch as (_ & Hnext & Hch). apply Forall_cons in Hwf as [_ Hwf].
        destruct (IH Hch Hwf) as (x & Hx & Hx1 & Hx2).
        -- exists c'. split; [left |].
           apply Qlt_le_weak. eapply Qle_lt_trans; eassumption.
        -- apply elem_of_cons in Hcb as [-> | Hcb].
           ++ exfalso. apply (Qlt_irrefl t). eapply Qle_lt_trans; eassumption.
           ++ exists cb. split; assumption.
        -- exists x. split; [right; exact Hx | split; assumption].
    + exists c. split; [left |]. split; [| exact Hle].
      eapply Qle_trans; eassumption.
Qed.

Lemma parse_words_chunks (ctm : list CtmInterval) (dd : DictionaryData)
    (text : list string) (ind : nat) (u : option string) (out : list CtmInterval) :
  parse_words ctm dd text ind u = Ok out ->
  exists cs, chunks ctm dd text ind = Ok cs /\ Forall2 merged_from cs out.
Proof.
  revert ind u out. induction text as [| word text IH]; intros ind u out;
    cbn [parse_words chunks].
  - intros [= <-]. exists []. split; [reflexivity | constructor].
  - destruct (to_int _ _ _ _ _ _ word) as [ints |]; cbn [mbind result_bind];
      [| discriminate].
    destruct (consume ctm ints _) as [st |] eqn:Hc; cbn [mbind result_bind];
      [| discriminate].
    destruct (parse_words ctm dd text (cur_ind st) (utt st)) as [rest |] eqn:Hr;
      cbn [mbind result_bind]; [| discriminate].
    intros [= <-]. apply consume_ok in Hc as (Hlen & Hind & Hb & He). cbn in Hind.
    apply IH in Hr as (cs & Hcs & Hall). rewrite Hind in Hcs. rewrite Hcs.
    cbn [mbind result_bind]. eexists. split; [reflexivity |].
    constructor; [| exact Hall]. repeat split; assumption.
Qed.

(** X29: in every call that returns, the interval of a word is computed
    from the entries consumed for that word whose numeric label is the
    expected id, and from nothing else. If some entry matches and the
    matched entries have begin <= end, then begin <= end for the word. If
    moreover their times lie strictly between -1 and 1000000, the two
    values the bounds start from, begin is the least begin and end the
    greatest end of the matched entries, both are times of consumed entries,
    and when the consumed entries follow one another without a gap, every
    time between begin and end lies in the span of a consumed entry. If no
    entry matches, the bounds are the two values they start from. *)
Theorem parse_from_word_bounds (ctm_labels : list CtmInterval) (text : list string)
    (dictionary_data : DictionaryData) (out : list CtmInterval) :
  parse_from_word ctm_labels text dictionary_data = Ok out ->
  exists cs,
    chunks ctm_labels dictionary_data text 0 = Ok cs
    /\ Forall2 (fun ch iv =>
         let m := matched (ch_ids ch) (ch_entries ch) in
         label iv = ch_word ch
         /\ length (ch_entries ch) = length (ch_ids ch)
         /\ (m = [] -> begin_ iv = 1000000%Q /\ end_ iv = (-1)%Q)
         /\ (m <> [] -> Forall (fun c => (begin_ c <= end_ c)%Q) m ->
             (begin_ iv <= end_ iv)%Q)
         /\ (m <> [] -> Forall well_timed m ->
             (begin_ iv <= end_ iv)%Q
             /\ (exists c, c ∈ m /\ begin_ iv = begin_ c)
             /\ (forall c, c ∈ m -> (begin_ iv <= begin_ c)%Q)
             /\ (exists c, c ∈ m /\ end_ iv = end_ c)
             /\ (forall c, c ∈ m -> (end_ c <= end_ iv)%Q)
             /\ (chained (ch_entries ch) ->
                 Forall (fun c => (begin_ c <= end_ c)%Q) (ch_entries ch) ->
                 forall t, (begin_ iv <= t)%Q -> (t <= end_ iv)%Q ->
                           covered (ch_entries ch) t))) cs out.
Proof.
  intros H. apply parse_words_chunks in H as (cs & Hcs & Hall).
  exists cs. split; [exact Hcs |].
  eapply Forall2_impl; [exact Hall |].
  intros ch iv (Hlab & Hlen & Hb & He). cbn zeta.
  set (m := matched (ch_ids ch) (ch_entries ch)) in *.
  split; [exact Hlab |]. split; [exact Hlen |]. split; [| split].
  - intros Hm. rewrite Hb, He, Hm. split; reflexivity.
  - intros Hne Hord. destruct m as [| c m'] eqn:Hm; [contradiction |].
    apply Forall_cons in Hord as [Hc _]. rewrite Hb, He.
    eapply Qle_trans; [apply (lower_le_elem (c :: m') 1000000 c); left |].
    eapply Qle_trans; [exact Hc | apply (upper_ge_elem (c :: m') (-1) c); left].
  - intros Hne Hwt.
    assert (Hlo : exists c, c ∈ m /\ begin_ iv = begin_ c).
    { rewrite Hb. apply lower_attained; [exact Hne |].
      eapply Forall_impl; [exact Hwt |]. intros c (_ & Hc & _). exact Hc. }
    assert (Hhi : exists c, c ∈ m /\ end_ iv = end_ c).
    { rewrite He. apply upper_attained; [exact Hne |].
      eapply Forall_impl; [exact Hwt |]. intros c (_ & _ & Hc). exact Hc. }
    assert (Hmin : forall c, c ∈ m -> (begin_ iv <= begin_ c)%Q).
    { intros c Hc. rewrite Hb. apply lower_le_elem, Hc. }
    assert (Hmax : forall c, c ∈ m -> (end_ c <= end_ iv)%Q).
    { intros c Hc. rewrite He. apply upper_ge_elem, Hc. }
    split; [| split; [exact Hlo |]; split; [exact Hmin |]; split; [exact Hhi |];
              split; [exact Hmax |]].
    + destruct Hlo as (c & Hc & Hbc).
      rewrite Forall_forall in Hwt. destruct (Hwt c Hc) as (Hce & _ & _).
      rewrite Hbc. eapply Qle_trans; [exact Hce | apply Hmax, Hc].
    + intros Hch Hwf t Ht1 Ht2.
      destruct Hlo as (ca & Hca & Hbca). destruct Hhi as (cb & Hcb & Hecb).
      apply chained_covered; [exact Hch | exact Hwf | |].
      * exists ca. split; [eapply matched_subset, Hca | rewrite <- Hbca; exact Ht1].
      * exists cb. split; [eapply matched_subset, Hcb | rewrite <- Hecb; exact Ht2].
Qed.

(** *** Annotation exporter *)

Lemma snapped_idem (d fs : Q) (c : CtmInterval) :
  snapped d fs (snapped d fs c) = snapped d fs c.
Proof.
  unfold snapped. destruct (Qltb (d - end_ c) fs) eqn:Hc; cbn.
  - destruct (Qltb (d - d) fs); reflexivity.
  - rewrite Hc. reflexivity.
Qed.

Lemma snapped_fields (d fs : Q) (c : CtmInterval) :
  begin_ (snapped d fs c) = begin_ c
  /\ label (snapped d fs c) = label c
  /\ utterance (snapped d fs c) = utterance c
  /\ (end_ (snapped d fs c) = end_ c \/ end_ (snapped d fs c) = d).
Proof.
  unfold snapped. destruct (Qltb (d - end_ c) fs); cbn; auto.
Qed.

(** The boundary rule fires on every end within the frame shift. *)
Lemma snapped_within (d fs : Q) (c : CtmInterval) :
  within d fs (end_ c) -> end_ (snapped d fs c) = d.
Proof.
  unfold within, snapped. intros H.
  assert (Hlt : (d - end_ c < fs)%Q).
  { eapply Qle_lt_trans; [apply Qle_Qabs | exact H]. }
  apply Qltb_lt in Hlt. rewrite Hlt. reflexivity.
Qed.

(** One step of the loop leaves the object snapped. *)
Lemma snap_step_obj (d fs : Q) (w r : ref) (h : heap) :
  obj (if Qltb (d - end_ (obj h w)) fs then set_end w d h else h) r
  = if Nat.eqb r w then snapped d fs (obj h w) else obj h r.
Proof.
  unfold snapped, set_end, update.
  destruct (Qltb (d - end_ (obj h w)) fs); cbn.
  - reflexivity.
  - destruct (Nat.eqb_spec r w) as [-> |]; reflexivity.
Qed.

Lemma snap_tier_obj (d fs : Q) (l : list ref) (h : heap) (r : ref) :
  obj (fst (snap_tier d fs l h)) r
  = if bool_decide (r ∈ l) then snapped d fs (obj h r) else obj h r.
Proof.
  revert h. induction l as [| w l IH]; intros h; cbn [snap_tier].
  - reflexivity.
  - set (h1 := if Qltb (d - end_ (obj h w)) fs then set_end w d h else h).
    specialize (IH h1). destruct (snap_tier d fs l h1) as [h2 rest]. cbn [fst] in *.
    rewrite IH. unfold h1. rewrite snap_step_obj.
    destruct (Nat.eqb_spec r w) as [-> | Hne].
    + rewrite (bool_decide_eq_true_2 (w ∈ w :: l)) by left.
      rewrite snapped_idem. destruct (bool_decide (w ∈ l)); reflexivity.
    + destruct (bool_decide (r ∈ l)) eqn:Hin.
      * apply bool_decide_eq_true in Hin.
        rewrite bool_decide_eq_true_2 by (right; exact Hin). reflexivity.
      * apply bool_decide_eq_false in Hin.
        rewrite bool_decide_eq_false_2; [reflexivity |].
        intros [? | ?]%elem_of_cons; congruence.
Qed.

(** The intervals built by the loop are those of the snapped objects. *)
Lemma snap_tier_intervals (d fs : Q) (l : list ref) (h : heap) :
  snd (snap_tier d fs l h) = map (serialized d fs h) l.
Proof.
  revert h. induction l as [| w l IH]; intros h; cbn [snap_tier map].
  - reflexivity.
  - set (h1 := if Qltb (d - end_ (obj h w)) fs then set_end w d h else h).
    specialize (IH h1). destruct (snap_tier d fs l h1) as [h2 rest]. cbn [snd] in *.
    rewrite IH. f_equal.
    + unfold serialized, h1. rewrite snap_step_obj, Nat.eqb_refl. 
      unfold snapped. destruct (Qltb (d - end_ (obj h w)) fs); reflexivity.
    + apply map_ext. intros r. unfold serialized, h1. rewrite snap_step_obj.
      destruct (Nat.eqb_spec r w) as [-> |]; [rewrite snapped_idem |]; reflexivity.
Qed.

Lemma snapped_snap_tier (d fs : Q) (l : list ref) (h : heap) (r : ref) :
  snapped d fs (obj (fst (snap_tier d fs l h)) r) = snapped d fs (obj h r).
Proof.
  rewrite snap_tier_obj. destruct (bool_decide (r ∈ l)); [apply snapped_idem | reflexivity].
Qed.

Lemma snap_all_obj (d fs : Q) (sd : list (string * tier_data)) (h : heap) (r : ref) :
  obj (snap_all d fs sd h) r
  = if bool_decide (r ∈ all_refs sd) then snapped d fs (obj h r) else obj h r.
Proof.
  revert h. induction sd as [| [speaker data] sd IH]; intros h; cbn [snap_all].
  - reflexivity.
  - rewrite IH. unfold all_refs. cbn [map concat snd]. fold (all_refs sd).
    rewrite !snapped_snap_tier, !snap_tier_obj.
    destruct (bool_decide (r ∈ all_refs sd)) eqn:H3;
      destruct (bool_decide (r ∈ phones data)) eqn:H2;
      destruct (bool_decide (r ∈ words data)) eqn:H1;
      rewrite ?snapped_idem;
      repeat match goal with
             | H : bool_decide _ = true |- _ => apply bool_decide_eq_true in H
             | H : bool_decide _ = false |- _ => apply bool_decide_eq_false in H
             end;
      try (rewrite bool_decide_eq_true_2 by (rewrite !elem_of_app; auto); reflexivity).
    rewrite bool_decide_eq_false_2; [reflexivity |].
    rewrite !elem_of_app. intros [[? | ?] | ?]; contradiction.
Qed.

Lemma exported_intervals_serialized (d fs : Q) (sd : list (string * tier_data)) (h : heap) :
  exported_intervals d fs sd h
  = map (fun sp => (fst sp, (map (serialized d fs h) (words (snd sp)),
                             map (serialized d fs h) (phones (snd sp))))) sd.
Proof.
  revert h. induction sd as [| [speaker data] sd IH]; intros h; cbn [exported_intervals map].
  - reflexivity.
  - pose proof (snap_tier_intervals d fs (words data) h) as Hw.
    destruct (snap_tier d fs (words data) h) as [h1 tg_words] eqn:E1. cbn [snd] in Hw.
    pose proof (snap_tier_intervals d fs (phones data) h1) as Hp.
    destruct (snap_tier d fs (phones data) h1) as [h2 tg_phones] eqn:E2. cbn [snd] in Hp.
    rewrite IH, Hw, Hp. cbn [fst snd].
    assert (H1 : forall r, serialized d fs h1 r = serialized d fs h r).
    { intros r. unfold serialized. replace h1 with (fst (snap_tier d fs (words data) h))
        by (rewrite E1; reflexivity). rewrite snapped_snap_tier. reflexivity. }
    assert (H2 : forall r, serialized d fs h2 r = serialized d fs h r).
    { intros r. rewrite <- H1. unfold serialized.
      replace h2 with (fst (snap_tier d fs (phones data) h1)) by (rewrite E2; reflexivity).
      rewrite snapped_snap_tier. reflexivity. }
    f_equal.
    + f_equal. f_equal. apply map_ext. intros r. apply H1.
    + apply map_ext. intros [sp dt]. cbn [fst snd].
      f_equal. f_equal; apply map_ext; intros r; apply H2.
Qed.

(** When the speaker loop ends without an exception it has run over all
    of [speaker_data]; when a library call raises, over a part of it. *)
Lemma export_speakers_heap (file : File) (fs : Q) (sd : list (string * tier_data))
    (h : heap) (tg : Textgrid) :
  match export_speakers file fs sd h tg with
  | (h', Ok _) => h' = snap_all (duration file) fs sd h
  | (h', Raise _) => exists k, h' = snap_all (duration file) fs (take k sd) h
  end.
Proof.
  revert h tg. induction sd as [| [speaker data] sd IH]; intros h tg;
    cbn [export_speakers snap_all].
  - reflexivity.
  - destruct (snap_tier (duration file) fs (words data) h) as [h1 tg_words] eqn:E1.
    destruct (snap_tier (duration file) fs (phones data) h1) as [h2 tg_phones] eqn:E2.
    cbn [fst]. rewrite E2. cbn [fst].
    match goal with |- context [match ?m with Ok _ => _ | Raise _ => _ end] =>
      destruct m as [tg' | err] end.
    + specialize (IH h2 tg'). destruct (export_speakers file fs sd h2 tg') as [h' [tg'' | err]].
      * exact IH.
      * destruct IH as [k Hk]. exists (S k). cbn [take snap_all]. rewrite E1. cbn [fst].
        rewrite E2. exact Hk.
    + exists 1%nat. cbn [take snap_all]. rewrite E1. cbn [fst]. rewrite E2, take_0. reflexivity.
Qed.

(** What the export hands to praatio: the outcome is that of building the
    tiers from the interval lists of [exported_intervals] and saving. *)
Lemma export_speakers_tiers (file : File) (fs : Q) (sd : list (string * tier_data))
    (h : heap) (tg : Textgrid) :
  snd (export_speakers file fs sd h tg)
  = replace_tiers file (exported_intervals (duration file) fs sd h) tg.
Proof.
  revert h tg. induction sd as [| [speaker data] sd IH]; intros h tg;
    cbn [export_speakers exported_intervals].
  - reflexivity.
  - destruct (snap_tier (duration file) fs (words data) h) as [h1 tg_words].
    destruct (snap_tier (duration file) fs (phones data) h1) as [h2 tg_phones].
    cbn [replace_tiers].
    destruct (IntervalTier _ tg_words 0 (duration file)) as [word_tier | e];
      cbn [mbind result_bind]; [| reflexivity].
    destruct (IntervalTier _ tg_phones 0 (duration file)) as [phone_tier | e];
      cbn [mbind result_bind]; [| reflexivity].
    destruct (replaceTier tg _ word_tier) as [tg1 | e];
      cbn [mbind result_bind]; [| reflexivity].
    destruct (replaceTier tg1 _ phone_tier) as [tg2 | e];
      cbn [mbind result_bind]; [| reflexivity].
    apply IH.
Qed.

Lemma export_textgrid_outcome (h : heap) (file : File) (output_path : string)
    (sd : list (string * tier_data)) (fs : Q) (first_file_write : bool) :
  snd (export_textgrid h file output_path sd fs first_file_write)
  = (tg ← initial_textgrid file output_path first_file_write;
     tg ← replace_tiers file
            (exported_intervals (duration file) (frame_shift_seconds fs) sd h) tg;
     save tg output_path).
Proof.
  unfold export_textgrid.
  destruct (initial_textgrid file output_path first_file_write) as [tg | e];
    cbn [mbind result_bind]; [| reflexivity].
  rewrite <- export_speakers_tiers.
  destruct (export_speakers file (frame_shift_seconds fs) sd h tg) as [h' [tg' | e]];
    reflexivity.
Qed.

Lemma export_textgrid_heap (h : heap) (file : File) (output_path : string)
    (sd : list (string * tier_data)) (fs : Q) (first_file_write : bool) :
  let run := export_textgrid h file output_path sd fs first_file_write in
  (exists k, fst run = snap_all (duration file) (frame_shift_seconds fs) (take k sd) h)
  /\ (snd run = Ok () ->
      fst run = snap_all (duration file) (frame_shift_seconds fs) sd h).
Proof.
  cbn zeta. unfold export_textgrid.
  destruct (initial_textgrid file output_path first_file_write) as [tg | err].
  - pose proof (export_speakers_heap file (frame_shift_seconds fs) sd h tg) as H.
    destruct (export_speakers file (frame_shift_seconds fs) sd h tg) as [h' [tg' | err]];
      cbn [fst snd].
    + split; [| intros _; exact H]. exists (length sd). rewrite firstn_all. exact H.
    + split; [exact H | discriminate].
  - cbn [fst snd]. split; [| discriminate]. exists 0%nat. rewrite take_0. reflexivity.
Qed.

Lemma elem_of_all_refs (sd : list (string * tier_data)) (speaker : string)
    (data : tier_data) (r : ref) :
  (speaker, data) ∈ sd -> r ∈ (words data ++ phones data)%list -> r ∈ all_refs sd.
Proof.
  intros Hsd Hr. induction sd as [| sp sd IH]; [inversion Hsd |].
  unfold all_refs. cbn [map concat]. fold (all_refs sd). apply elem_of_app.
  apply elem_of_cons in Hsd as [<- | Hsd]; [left; exact Hr | right; apply IH, Hsd].
Qed.




(** C10: the export assigns to the interval objects it is handed. Whatever
    the outcome, no object changes its begin, label or utterance, and an end
    either stays or becomes the duration of the file. When the export
    returns, every object that [speaker_data] refers to and whose end lay
    within the frame shift of the duration has the duration as its end, and
    the intervals handed to the tier constructors, from which the file is
    written, are read from the objects after that assignment. *)
Theorem export_textgrid_in_place (h : heap) (file : File) (output_path : string)
    (speaker_data : list (string * tier_data)) (frame_shift : Q) (first_file_write : bool) :
  let run :=
    export_textgrid h file output_path speaker_data frame_shift first_file_write in
  let d := duration file in
  let fs := frame_shift_seconds frame_shift in
  (forall r,
     begin_ (obj (fst run) r) = begin_ (obj h r)
     /\ label (obj (fst run) r) = label (obj h r)
     /\ utterance (obj (fst run) r) = utterance (obj h r)
     /\ (end_ (obj (fst run) r) = end_ (obj h r) \/ end_ (obj (fst run) r) = d))
  /\ snd run
     = (tg ← initial_textgrid file output_path first_file_write;
        tg ← replace_tiers file (exported_intervals d fs speaker_data h) tg;
        save tg output_path)
  /\ (snd run = Ok () ->
      (forall r, r ∈ all_refs speaker_data ->
                 within d fs (end_ (obj h r)) -> end_ (obj (fst run) r) = d)
      /\ (forall r, r ∉ all_refs speaker_data -> obj (fst run) r = obj h r)
      /\ exported_intervals d fs speaker_data h
         = map (fun sp => (fst sp,
                           (map (fun r => to_tg_interval (obj (fst run) r)) (words (snd sp)),
                            map (fun r => to_tg_interval (obj (fst run) r)) (phones (snd sp)))))
             speaker_data).
Proof.
  cbn zeta.
  destruct (export_textgrid_heap h file output_path speaker_data frame_shift
              first_file_write) as [[k Hk] Hall].
  split; [| split].
  - intros r. rewrite Hk, snap_all_obj.
    destruct (bool_decide _); [apply snapped_fields | auto].
  - apply export_textgrid_outcome.
  - intros Hok. specialize (Hall Hok). rewrite Hall. split; [| split].
    + intros r Hr Hw. rewrite snap_all_obj, bool_decide_eq_true_2 by exact Hr.
      apply snapped_within, Hw.
    + intros r Hr. rewrite snap_all_obj, bool_decide_eq_false_2 by exact Hr. reflexivity.
    + rewrite exported_intervals_serialized. apply map_ext_in.
      intros [speaker data] Hin. apply list_elem_of_In in Hin. cbn [fst snd].
      f_equal. f_equal; apply map_ext_in; intros r Hr; apply list_elem_of_In in Hr;
        unfold serialized; rewrite snap_all_obj;
        (rewrite bool_decide_eq_true_2;
         [reflexivity | eapply elem_of_all_refs; [exact Hin | rewrite elem_of_app; auto]]).
Qed.

(** ** Further properties of the interval parser *)

Lemma round_half_even_range (x : Q) :
  (Qfloor x <= round_half_even x <= Qfloor x + 1)%Z.
Proof.
  unfold round_half_even. destruct (_ ?= _)%Q; [destruct (Z.even _) | |]; lia.
Qed.

Lemma round_half_even_mono (x y : Q) :
  (x <= y)%Q -> (round_half_even x <= round_half_even y)%Z.
Proof.
  intros Hxy. pose proof (Qfloor_resp_le x y Hxy) as Hf.
  destruct (Z.eq_dec (Qfloor x) (Qfloor y)) as [Heq | Hne].
  - unfold round_half_even. rewrite <- Heq.
    destruct (Qcompare_spec (2 * (x - inject_Z (Qfloor x))) 1) as [Hx | Hx | Hx];
      destruct (Qcompare_spec (2 * (y - inject_Z (Qfloor x))) 1) as [Hy | Hy | Hy];
      try destruct (Z.even (Qfloor x)); try lia; exfalso; lra.
  - pose proof (round_half_even_range x). pose proof (round_half_even_range y). lia.
Qed.

Lemma round_half_even_integer (n : Z) : round_half_even (inject_Z n) = n.
Proof.
  unfold round_half_even. rewrite Qfloor_Z.
  destruct (Qcompare_spec (2 * (inject_Z n - inject_Z n)) 1) as [H | H | H];
    [exfalso; lra | reflexivity | exfalso; lra].
Qed.

Lemma round4_mono (x y : Q) : (x <= y)%Q -> (round4 x <= round4 y)%Q.
Proof.
  intros Hxy. unfold round4. rewrite !Qred_correct.
  assert (H : (round_half_even (x * 10000) <= round_half_even (y * 10000))%Z)
    by (apply round_half_even_mono; lra).
  unfold Qle. cbn. lia.
Qed.

Lemma round4_fixed (x : Q) : round4 (round4 x) = round4 x.
Proof.
  assert (H : round_half_even (round4 x * 10000) = round_half_even (x * 10000)).
  { set (n := round_half_even (x * 10000)).
    assert (Hn : (round4 x * 10000 == inject_Z n)%Q).
    { unfold round4. fold n. rewrite Qred_correct. unfold Qeq, Qmult, inject_Z. cbn. lia. }
    rewrite <- (round_half_even_integer n).
    apply Z.le_antisymm; apply round_half_even_mono; rewrite Hn; apply Qle_refl. }
  unfold round4 at 1. rewrite H. reflexivity.
Qed.

(** X1: the interval parsed from a record whose duration is a number and
    not negative has begin <= end. *)
Theorem process_ctm_line_ordered (line f3 : string) (d : Q) (c : CtmInterval) :
  split_char " " line !! 3%nat = Some f3 ->
  py_float f3 = Number d ->
  (0 <= d)%Q ->
  process_ctm_line line = Ok c ->
  (begin_ c <= end_ c)%Q.
Proof.
  intros Hf3 Hd Hpos. rewrite process_ctm_line_cases.
  destruct (split_char " " line) as [| f0 [| f1 [| f2 [| f3' [| f4 rest]]]]];
    cbn in Hf3 |- *; try discriminate;
    destruct (py_float f2) as [x | |]; try discriminate;
    injection Hf3 as ->; rewrite Hd; try discriminate.
  intros [= <-]. cbn. rewrite <- (round4_fixed x) at 1. apply round4_mono. lra.
Qed.

(** ** Further properties of the lookup *)

Lemma oov_count_some (wm : gmap string Z) (l : list string) :
  (oov_count wm l < length l)%nat -> exists t, t ∈ l /\ in_mapping wm t = true.
Proof.
  unfold oov_count. induction l as [| x l IH]; cbn [length]; [lia |].
  rewrite filter_cons. destruct (in_mapping wm x) eqn:Hx.
  - intros _. exists x. split; [left | exact Hx].
  - rewrite decide_True by reflexivity. cbn [length]. intros H.
    destruct IH as (t & Ht & Hin); [lia |]. exists t. split; [right; exact Ht | exact Hin].
Qed.

(** X2: [_lookup] never returns an empty list, and what it returns either
    holds a token of the vocabulary or is the sanitized word alone. *)
Theorem lookup_tokens (wm : gmap string Z) (punct : string) (cs : gset string)
    (cm comp item : string) (tokens : list string) :
  _lookup wm punct cs cm comp item = Ok tokens ->
  tokens <> []
  /\ ((exists t, t ∈ tokens /\ in_mapping wm t = true)
      \/ tokens = [sanitize item punct cm]).
Proof.
  unfold _lookup. destruct (in_mapping wm item) eqn:Hitem.
  { intros [= <-]. split; [congruence |]. left. exists item. split; [left | exact Hitem]. }
  destruct (in_mapping wm (sanitize item punct cm)) eqn:Hsan.
  { intros [= <-]. split; [congruence |]. left. eexists. split; [left | exact Hsan]. }
  destruct (split_clitics wm cs cm comp (sanitize item punct cm)) as [split |];
    cbn [mbind result_bind]; [| discriminate].
  destruct (oov_count wm split <? length split)%nat eqn:Hc; intros [= <-].
  - apply Nat.ltb_lt in Hc. split.
    + destruct split; [cbn in Hc; lia | congruence].
    + left. apply oov_count_some, Hc.
  - split; [congruence | right; reflexivity].
Qed.

Lemma token_id_known (wm : gmap string Z) (oov : Z) (t : string) (i : Z) :
  i ∈ token_id wm oov t -> i = oov \/ exists w, wm !! w = Some i.
Proof.
  unfold token_id. destruct (String.eqb t ""); [intros H; inversion H |].
  destruct (wm !! t) eqn:Ht; intros ->%list_elem_of_singleton; eauto.
Qed.

(** X3: [to_int] gives no id for the empty word and the id of the word for
    a word of the vocabulary; every id it gives is the id of a word of the
    vocabulary or the id of the unknown word, and there are at most as many
    ids as tokens in the lookup. *)
Theorem to_int_ids (wm : gmap string Z) (punct : string) (cs : gset string)
    (cm comp : string) (oov : Z) (item : string) :
  to_int wm punct cs cm comp oov "" = Ok []
  /\ (forall i, item <> "" -> wm !! item = Some i ->
        to_int wm punct cs cm comp oov item = Ok [i])
  /\ (forall ids, to_int wm punct cs cm comp oov item = Ok ids ->
        Forall (fun i => i = oov \/ exists w, wm !! w = Some i) ids
        /\ (item <> "" ->
            exists tokens, _lookup wm punct cs cm comp item = Ok tokens
                           /\ (length ids <= length tokens)%nat)).
Proof.
  split; [reflexivity |]. split.
  - intros i Hne Hi. unfold to_int, _lookup, in_mapping.
    apply String.eqb_neq in Hne. rewrite Hne, Hi.
    rewrite bool_decide_eq_true_2 by eauto. cbn. unfold token_id. rewrite Hne, Hi.
    reflexivity.
  - intros ids. unfold to_int. destruct (String.eqb_spec item "") as [-> | Hne].
    { intros [= <-]. split; [constructor | congruence]. }
    destruct (_lookup wm punct cs cm comp item) as [tokens |]; cbn [mbind result_bind];
      [| discriminate].
    intros [= <-]. split.
    + apply Forall_forall. intros i Hi. apply list_elem_of_In in Hi.
      apply in_concat in Hi as (l & Hl & Hi). apply in_map_iff in Hl as (t & <- & _).
      apply (token_id_known wm oov t). apply list_elem_of_In, Hi.
    + intros _. exists tokens. split; [reflexivity |].
      clear. induction tokens as [| t tokens IH]; cbn [map concat length]; [lia |].
      rewrite length_app. unfold token_id at 1.
      destruct (String.eqb t ""); [cbn; lia |]. destruct (wm !! t); cbn; lia.
Qed.

(** ** Further properties of the word reconstructor *)

Lemma parse_words_labels (ctm : list CtmInterval) (dd : DictionaryData)
    (text : list string) (ind : nat) (u : option string) (out : list CtmInterval) :
  parse_words ctm dd text ind u = Ok out -> map label out = text.
Proof.
  revert ind u out. induction text as [| word text IH]; intros ind u out;
    cbn [parse_words].
  - intros [= <-]. reflexivity.
  - destruct (to_int _ _ _ _ _ _ word) as [ints |]; cbn [mbind result_bind];
      [| discriminate].
    destruct (consume ctm ints _) as [st |]; cbn [mbind result_bind]; [| discriminate].
    destruct (parse_words ctm dd text (cur_ind st) (utt st)) as [rest |] eqn:Hr;
      cbn [mbind result_bind]; [| discriminate].
    intros [= <-]. cbn. f_equal. eapply IH, Hr.
Qed.

Lemma consume_enough (ctm : list CtmInterval) (ints : list Z) (st : word_state) :
  Forall (fun c => is_Some (py_int (label c))) ctm ->
  (cur_ind st + length ints <= length ctm)%nat ->
  exists st', consume ctm ints st = Ok st'.
Proof.
  intros Hnum. revert st. induction ints as [| i ints IH]; intros st Hlen; cbn [consume].
  - eauto.
  - cbn [length] in Hlen.
    destruct (lookup_lt_is_Some_2 ctm (cur_ind st)) as [cur Hcur]; [lia |].
    destruct (proj1 (Forall_forall _ _) Hnum cur (list_elem_of_lookup_2 _ _ _ Hcur))
      as [n Hn].
    unfold consume_entry, index, to_integer. rewrite Hcur. cbn [mbind result_bind].
    rewrite Hn. cbn [mbind result_bind].
    destruct (i =? n)%Z; cbn [mbind result_bind]; apply IH; cbn; lia.
Qed.

Lemma consume_short (ctm : list CtmInterval) (ints : list Z) (st : word_state) :
  Forall (fun c => is_Some (py_int (label c))) ctm ->
  (cur_ind st <= length ctm)%nat ->
  (length ctm < cur_ind st + length ints)%nat ->
  consume ctm ints st = Raise IndexError.
Proof.
  intros Hnum. revert st. induction ints as [| i ints IH]; intros st Hind Hlen;
    cbn [consume].
  - cbn in Hlen. lia.
  - cbn [length] in Hlen. unfold consume_entry, index, to_integer.
    destruct (ctm !! cur_ind st) as [cur |] eqn:Hcur; cbn [mbind result_bind];
      [| reflexivity].
    pose proof (lookup_lt_Some _ _ _ Hcur) as Hlt.
    destruct (proj1 (Forall_forall _ _) Hnum cur (list_elem_of_lookup_2 _ _ _ Hcur))
      as [n Hn].
    rewrite Hn. cbn [mbind result_bind].
    destruct (i =? n)%Z; cbn [mbind result_bind]; apply IH; cbn; lia.
Qed.

Lemma parse_words_enough (ctm : list CtmInterval) (dd : DictionaryData)
    (text : list string) (ind : nat) (u : option string) (cs : list chunk) :
  chunks ctm dd text ind = Ok cs ->
  Forall (fun c => is_Some (py_int (label c))) ctm ->
  (ind <= length ctm)%nat ->
  ((ind + length (concat (map ch_ids cs)) <= length ctm)%nat ->
     exists out, parse_words ctm dd text ind u = Ok out)
  /\ ((length ctm < ind + length (concat (map ch_ids cs)))%nat ->
     parse_words ctm dd text ind u = Raise IndexError).
Proof.
  intros Hcs Hnum. revert ind u cs Hcs.
  induction text as [| word text IH]; intros ind u cs; cbn [parse_words chunks].
  - intros [= <-] Hind. cbn. split; [eauto | lia].
  - destruct (to_int _ _ _ _ _ _ word) as [ints |]; cbn [mbind result_bind];
      [| discriminate].
    destruct (chunks ctm dd text (ind + length ints)) as [rest |] eqn:Hrest;
      cbn [mbind result_bind]; [| discriminate].
    intros [= <-] Hle. cbn [map concat ch_ids]. rewrite length_app.
    split.
    + intros Hlen.
      destruct (consume_enough ctm ints (mkWordState ind u 1000000 (-1)) Hnum)
        as [st Hst]; [cbn; lia |].
      rewrite Hst. cbn [mbind result_bind].
      pose proof (consume_ok _ _ _ _ Hst) as (_ & Hind & _). cbn in Hind.
      destruct (IH (cur_ind st) (utt st) rest) as [Hok _];
        [rewrite Hind; exact Hrest | lia |].
      destruct Hok as [out ->]; [lia |]. cbn [mbind result_bind]. eauto.
    + intros Hlen.
      destruct (le_lt_dec (ind + length ints) (length ctm)) as [Hfit | Hshort].
      * destruct (consume_enough ctm ints (mkWordState ind u 1000000 (-1)) Hnum)
          as [st Hst]; [cbn; lia |].
        rewrite Hst. cbn [mbind result_bind].
        pose proof (consume_ok _ _ _ _ Hst) as (_ & Hind & _). cbn in Hind.
        destruct (IH (cur_ind st) (utt st) rest) as [_ Hraise];
          [rewrite Hind; exact Hrest | lia |].
        rewrite Hraise by lia. reflexivity.
      * rewrite consume_short; [reflexivity | exact Hnum | cbn; lia | cbn; lia].
Qed.

(** X4: when every word of the text can be looked up and every aligned
    label is numeric, [parse_from_word] returns exactly when the aligned
    stream has at least as many entries as the words have ids, and then
    with one interval per word, labelled with the words in their order; on
    a shorter stream it raises [IndexError]. *)
Theorem parse_from_word_returns (ctm_labels : list CtmInterval) (text : list string)
    (dd : DictionaryData) (cs : list chunk) :
  chunks ctm_labels dd text 0 = Ok cs ->
  Forall (fun c => is_Some (py_int (label c))) ctm_labels ->
  ((length (concat (map ch_ids cs)) <= length ctm_labels)%nat ->
     exists out, parse_from_word ctm_labels text dd = Ok out /\ map label out = text)
  /\ ((length ctm_labels < length (concat (map ch_ids cs)))%nat ->
     parse_from_word ctm_labels text dd = Raise IndexError).
Proof.
  intros Hcs Hnum. unfold parse_from_word.
  destruct (parse_words_enough ctm_labels dd text 0 None cs Hcs Hnum ltac:(lia))
    as [Hok Hraise].
  split.
  - intros Hlen. destruct (Hok Hlen) as [out Hout]. exists out.
    split; [exact Hout | eapply parse_words_labels, Hout].
  - exact Hraise.
Qed.

(** ** Tier builder *)

Lemma tiers_of_add (spk spk' : string) (ws ps : list ref) (output : list (string * tier_data)) :
  tiers_of spk (add_tiers spk' ws ps output)
  = if String.eqb spk' spk
    then mkTierData (words (tiers_of spk output) ++ ws) (phones (tiers_of spk output) ++ ps)
    else tiers_of spk output.
Proof.
  induction output as [| [k data] output IH]; cbn [add_tiers tiers_of].
  - destruct (String.eqb spk' spk); reflexivity.
  - destruct (String.eqb_spec k spk') as [-> | Hk]; cbn [tiers_of].
    + destruct (String.eqb spk' spk); reflexivity.
    + destruct (String.eqb_spec k spk) as [-> | Hk'].
      * destruct (String.eqb_spec spk' spk); [congruence | reflexivity].
      * exact IH.
Qed.

Lemma add_tiers_keys (spk : string) (ws ps : list ref) (output : list (string * tier_data)) :
  NoDup (map fst output) ->
  NoDup (map fst (add_tiers spk ws ps output))
  /\ forall k, k ∈ map fst (add_tiers spk ws ps output) <-> k = spk \/ k ∈ map fst output.
Proof.
  induction output as [| [k0 data] output IH]; cbn [add_tiers map fst]; intros Hnd.
  - split; [repeat constructor; intros H; inversion H |].
    intros k. rewrite list_elem_of_singleton. split; [auto | intros [? | H]; [auto | inversion H]].
  - apply NoDup_cons in Hnd as [Hk0 Hnd].
    destruct (String.eqb_spec k0 spk) as [-> | Hne]; cbn [map fst].
    + split; [apply NoDup_cons; auto |]. intros k. rewrite elem_of_cons.
      split; [intros [? | ?]; auto | intros [? | [? | ?]]; auto].
    + destruct (IH Hnd) as [Hnd' Hkeys]. split.
      * apply NoDup_cons. split; [| exact Hnd'].
        rewrite Hkeys. intros [? | ?]; congruence.
      * intros k. rewrite !elem_of_cons, Hkeys.
        split; intros [? | [? | ?]]; auto.
Qed.

Lemma tiers_of_elem (spk : string) (output : list (string * tier_data)) :
  spk ∈ map fst output -> (spk, tiers_of spk output) ∈ output.
Proof.
  induction output as [| [k data] output IH]; cbn [map fst tiers_of]; intros H;
    [inversion H |].
  destruct (String.eqb_spec k spk) as [-> | Hne]; [left |].
  apply elem_of_cons in H as [-> | H]; [congruence |]. right. apply IH, H.
Qed.

(** The utterances go through the copying branch one after the other: the
    heap is not touched, and the output grows by the labels of the
    utterances that have words. *)
Lemma generate_tiers_copied (h : heap) (us : list Utterance) (cleanup : bool)
    (output : list (string * tier_data)) :
  Forall (copied cleanup) us ->
  NoDup (map fst output) ->
  exists out,
    generate_tiers h us cleanup output = (h, Done out)
    /\ NoDup (map fst out)
    /\ (forall k, k ∈ map fst out <-> k ∈ map fst output \/ spoken_by k us <> [])
    /\ forall spk,
         words (tiers_of spk out)
         = (words (tiers_of spk output)
            ++ concat (map word_labels (spoken_by spk us)))%list
         /\ phones (tiers_of spk out)
            = (phones (tiers_of spk output)
               ++ concat (map (fun u => kept_phones h (silences (dictionary_data u)) cleanup
                                          (phone_labels u))
                            (spoken_by spk us)))%list.
Proof using Type.
  intros Hus. revert output. induction us as [| u us IH]; intros output Hnd;
    cbn [generate_tiers].
  - exists output. split; [reflexivity |]. split; [exact Hnd |]. split.
    + intros k. unfold spoken_by. cbn. split; [auto | intros [? | ?]; [auto | congruence]].
    + intros spk. unfold spoken_by. cbn. rewrite !app_nil_r. auto.
  - apply Forall_cons in Hus as [Hu Hus].
    destruct (word_labels u) as [| w ws] eqn:Hw.
    + destruct (IH Hus output Hnd) as (out & Hrun & Hnd' & Hkeys & Htiers).
      exists out. split; [exact Hrun |]. split; [exact Hnd' |].
      assert (Hskip : forall spk, spoken_by spk (u :: us) = spoken_by spk us).
      { intros spk. unfold spoken_by. rewrite filter_cons.
        rewrite decide_False; [reflexivity |]. rewrite Hw. intros [_ H]. congruence. }
      split; [intros k; rewrite Hskip; apply Hkeys |].
      intros spk. rewrite Hskip. apply Htiers.
    + unfold copied in Hu. rewrite Hu. rewrite <- Hw.
      destruct (add_tiers_keys (speaker u) (word_labels u)
                  (kept_phones h (silences (dictionary_data u)) cleanup (phone_labels u))
                  output Hnd) as [Hnd1 Hkeys1].
      destruct (IH Hus _ Hnd1) as (out & Hrun & Hnd' & Hkeys & Htiers).
      exists out. split; [exact Hrun |]. split; [exact Hnd' |].
      assert (Hstep : forall spk,
                 spoken_by spk (u :: us)
                 = if String.eqb (speaker u) spk then u :: spoken_by spk us
                   else spoken_by spk us).
      { intros spk. unfold spoken_by. rewrite filter_cons.
        destruct (String.eqb_spec (speaker u) spk) as [Heq | Hne].
        - rewrite decide_True; [reflexivity |]. split; [exact Heq |]. rewrite Hw. congruence.
        - rewrite decide_False; [reflexivity |]. intros [? _]. contradiction. }
      split.
      * intros k. rewrite Hkeys, Hkeys1, Hstep.
        destruct (String.eqb_spec (speaker u) k) as [Heq | Hne].
        -- split; [intros _; right; congruence | intros _; left; left; congruence].
        -- split; [intros [[? | ?] | ?]; [congruence | auto | auto]
                  | intros [? | ?]; auto].
      * intros spk. destruct (Htiers spk) as [Hws Hps]. rewrite Hws, Hps.
        rewrite tiers_of_add, Hstep.
        destruct (String.eqb (speaker u) spk); cbn [words phones map concat];
          rewrite <- ?app_assoc; auto.
Qed.

(** X10: when no utterance takes the multilingual branch, [generate_tiers]
    returns without touching an interval object. A speaker is a key of the
    output exactly when one of its utterances has word labels; its words
    tier lists the word labels of these utterances in the order of the
    file, and its phones tier their phone labels, all of them or, when the
    textgrids are cleaned up, those without a silence label. An utterance
    without word labels contributes nothing, its phone labels included. *)
Theorem generate_tiers_copies (h : heap) (utterances : list Utterance)
    (cleanup_textgrids : bool) :
  Forall (copied cleanup_textgrids) utterances ->
  exists out,
    generate_tiers h utterances cleanup_textgrids [] = (h, Done out)
    /\ NoDup (map fst out)
    /\ (forall spk, spk ∈ map fst out <-> spoken_by spk utterances <> [])
    /\ forall spk,
         words (tiers_of spk out) = concat (map word_labels (spoken_by spk utterances))
         /\ phones (tiers_of spk out)
            = concat (map (fun u => kept_phones h (silences (dictionary_data u))
                                      cleanup_textgrids (phone_labels u))
                        (spoken_by spk utterances)).
Proof using Type.
  intros Hus.
  destruct (generate_tiers_copied h utterances cleanup_textgrids [] Hus)
    as (out & Hrun & Hnd & Hkeys & Htiers); [constructor |].
  exists out. split; [exact Hrun |]. split; [exact Hnd |]. split.
  - intros spk. rewrite Hkeys. cbn. split; [intros [H | H]; [inversion H | exact H] | auto].
  - intros spk. destruct (Htiers spk) as [Hw Hp]. cbn in Hw, Hp. auto.
Qed.

(** X11: with the cleanup on and no utterance in the multilingual branch,
    no interval of a phones tier carries a silence label of its utterance's
    dictionary, and every interval of the tier is a phone label of an
    utterance of that speaker that has word labels. *)
Theorem generate_tiers_no_silence (h : heap) (utterances : list Utterance)
    (out : list (string * tier_data)) (spk : string) (r : ref) :
  Forall (copied true) utterances ->
  generate_tiers h utterances true [] = (h, Done out) ->
  r ∈ phones (tiers_of spk out) ->
  exists u, u ∈ utterances /\ speaker u = spk /\ word_labels u <> []
            /\ r ∈ phone_labels u
            /\ label (obj h r) ∉ silences (dictionary_data u).
Proof using Type.
  intros Hus Hrun Hr.
  destruct (generate_tiers_copied h utterances true [] Hus)
    as (out' & Hrun' & _ & _ & Htiers); [constructor |].
  rewrite Hrun in Hrun'. injection Hrun' as <-.
  destruct (Htiers spk) as [_ Hp]. cbn in Hp. rewrite Hp in Hr.
  apply list_elem_of_In, in_concat in Hr as (l & Hl & Hr).
  apply in_map_iff in Hl as (u & <- & Hu).
  apply list_elem_of_In in Hu, Hr. unfold spoken_by in Hu.
  apply list_elem_of_filter in Hu as [[Hspk Hw] Hu].
  unfold kept_phones in Hr. apply list_elem_of_filter in Hr as [Hkeep Hr].
  exists u. repeat split; try assumption.
  rewrite andb_true_r in Hkeep. apply negb_true_iff, bool_decide_eq_false in Hkeep.
  exact Hkeep.
Qed.

(** What the loop over the phone labels has read when it is left: [k]
    labels, none ending after the word, of which it keeps those without a
    silence label; the label it stops at, if any, ends after the word. *)
Lemma gather_ok (h : heap) (sil : gset string) (e : Q) (rest : list ref) (ind : nat)
    (cur : list ref) (ind' : nat) (cur' : list ref) :
  gather h sil e rest ind cur = Ok (ind', cur') ->
  exists k,
    ind' = (ind + k)%nat /\ (k <= length rest)%nat
    /\ cur' = (cur ++ filter (fun p => label (obj h p) ∉ sil) (take k rest))%list
    /\ Forall (fun p => (end_ (obj h p) <= e)%Q) (take k rest)
    /\ forall p, rest !! k = Some p -> (e < end_ (obj h p))%Q.
Proof.
  revert ind cur. induction rest as [| p rest IH]; intros ind cur; cbn [gather];
    [discriminate |].
  destruct (Qle_bool (end_ (obj h p)) e) eqn:Hle.
  - apply Qle_bool_iff in Hle.
    destruct (bool_decide (label (obj h p) ∈ sil)) eqn:Hsil.
    + apply bool_decide_eq_true in Hsil. intros H.
      destruct (IH _ _ H) as (k & -> & Hk & -> & Hall & Hnext).
      exists (S k). cbn [take length lookup list_lookup]. rewrite filter_cons.
      rewrite decide_False by (intros Hn; apply Hn, Hsil).
      split; [lia |]. split; [lia |]. split; [reflexivity |].
      split; [constructor; assumption | exact Hnext].
    + apply bool_decide_eq_false in Hsil.
      assert (Hstep : forall k cur0,
                 ((cur ++ [p]) ++ filter (fun p => label (obj h p) ∉ sil) (take k rest)
                  = cur0)%list ->
                 (cur ++ filter (fun p => label (obj h p) ∉ sil) (take (S k) (p :: rest))
                  = cur0)%list).
      { intros k cur0 <-. cbn [take]. rewrite filter_cons, decide_True by exact Hsil.
        rewrite <- app_assoc. reflexivity. }
      destruct rest as [| p' rest'].
      * intros [= <- <-]. exists 1%nat. split; [lia |]. split; [cbn; lia |].
        split; [symmetry; apply Hstep; cbn; rewrite app_nil_r; reflexivity |].
        split; [repeat constructor; exact Hle | intros q Hq; inversion Hq].
      * intros H. destruct (IH _ _ H) as (k & -> & Hk & Hcur & Hall & Hnext).
        exists (S k). split; [lia |]. split; [cbn [length] in *; lia |].
        split; [symmetry; apply Hstep; symmetry; exact Hcur |].
        split; [cbn [take]; constructor; assumption | exact Hnext].
  - intros [= <- <-]. exists 0%nat. rewrite take_0. cbn [filter].
    split; [lia |]. split; [lia |]. split; [rewrite app_nil_r; reflexivity |].
    split; [constructor |]. intros q [= <-].
    apply Qnot_le_lt. intros H. apply Qle_bool_iff in H. congruence.
Qed.

Lemma gather_raises (h : heap) (sil : gset string) (e : Q) (rest : list ref) (ind : nat)
    (cur : list ref) :
  (exists err, gather h sil e rest ind cur = Raise err)
  <-> Forall (fun p => (end_ (obj h p) <= e)%Q) rest
      /\ forall p, last rest = Some p -> label (obj h p) ∈ sil.
Proof.
  revert ind cur. induction rest as [| p rest IH]; intros ind cur; cbn [gather].
  - split; [intros _; split; [constructor | intros p H; inversion H] | eauto].
  - destruct (Qle_bool (end_ (obj h p)) e) eqn:Hle.
    + apply Qle_bool_iff in Hle.
      destruct (bool_decide (label (obj h p) ∈ sil)) eqn:Hsil.
      * apply bool_decide_eq_true in Hsil. rewrite IH, Forall_cons.
        destruct rest as [| p' rest'].
        -- cbn. split; [intros _; split; [auto | intros q [= <-]; exact Hsil] |].
           intros _. split; [constructor | intros q H; inversion H].
        -- cbn [last]. split; [intros [? ?]; auto | intros [[_ ?] ?]; auto].
      * apply bool_decide_eq_false in Hsil.
        destruct rest as [| p' rest'].
        -- split; [intros [err H]; discriminate |].
           intros [_ Hlast]. exfalso. apply Hsil, Hlast. reflexivity.
        -- rewrite IH. cbn [last].
           split; intros [Hall Hlast]; (split; [| exact Hlast]);
             [constructor; assumption | inversion Hall; assumption].
    + split; [intros [err H]; discriminate |].
      intros [Hall _]. apply Forall_cons in Hall as [Hp _].
      apply Qle_bool_iff in Hp. congruence.
Qed.

(** X12: the loop of [generate_tiers] that collects the phones of a word.
    When it is left normally it has read some of the phone labels from the
    cursor on, none of which ends after the word, it has kept those without
    a silence label, in their order, and the label at the new cursor, if
    there is one, ends after the word. It raises, by reading past the last
    label, exactly when no label from the cursor on ends after the word and
    there is either none or the last one is a silence. *)
Theorem gather_phones (h : heap) (sil : gset string) (end' : Q) (rest : list ref)
    (phone_ind : nat) :
  (forall phone_ind' cur_phones,
     gather h sil end' rest phone_ind [] = Ok (phone_ind', cur_phones) ->
     exists k,
       phone_ind' = (phone_ind + k)%nat /\ (k <= length rest)%nat
       /\ cur_phones = filter (fun p => label (obj h p) ∉ sil) (take k rest)
       /\ Forall (fun p => (end_ (obj h p) <= end')%Q) (take k rest)
       /\ forall p, rest !! k = Some p -> (end' < end_ (obj h p))%Q)
  /\ (gather h sil end' rest phone_ind [] = Raise IndexError
      <-> Forall (fun p => (end_ (obj h p) <= end')%Q) rest
          /\ forall p, last rest = Some p -> label (obj h p) ∈ sil).
Proof.
  split.
  - intros ind' cur H. destruct (gather_ok _ _ _ _ _ _ _ _ H) as (k & ? & ? & ? & ? & ?).
    exists k. auto.
  - rewrite <- (gather_raises h sil end' rest phone_ind []). split; [eauto |].
    intros [err Herr]. rewrite Herr. f_equal.
    clear -Herr. revert phone_ind Herr. generalize (@nil ref).
    induction rest as [| p rest IH]; intros cur ind; cbn [gather]; [congruence |].
    destruct (Qle_bool _ _); [| discriminate].
    destruct (bool_decide _); [apply IH |]. destruct rest; [discriminate | apply IH].
Qed.

(** X13: in the multilingual branch an utterance that has word labels and
    no phone labels makes [generate_tiers] raise [IndexError], once the
    first word has been looked up and its pronunciations found; no object
    has been touched. *)
Theorem generate_tiers_no_phones (h : heap) (u : Utterance) (rest : list Utterance)
    (output : list (string * tier_data)) (w : ref) (ws : list ref)
    (subwords : list string) (subprons : list (list PronunciationEntry)) :
  multilingual_ipa (dictionary_data u) = true ->
  word_labels u = w :: ws ->
  phone_labels u = [] ->
  _lookup (words_mapping (lexicon (dictionary_data u)))
    (punctuation (lexicon (dictionary_data u))) (clitic_set (lexicon (dictionary_data u)))
    (clitic_markers (lexicon (dictionary_data u)))
    (compound_markers (lexicon (dictionary_data u))) (label (obj h w)) = Ok subwords ->
  subpronunciations_of (dictionary_data u) subwords = Done subprons ->
  generate_tiers h (u :: rest) true output = (h, Failed IndexError).
Proof using Type.
  intros Hipa Hw Hp Hlook Hprons. cbn [generate_tiers]. rewrite Hw, Hipa.
  cbn [andb ipa_words_loop]. unfold ipa_word. cbn [ipa_heap phone_ind].
  rewrite Hlook, Hprons, Hp. reflexivity.
Qed.

Lemma tiers_of_key (spk : string) (data : tier_data) (output : list (string * tier_data)) :
  NoDup (map fst output) -> (spk, data) ∈ output -> tiers_of spk output = data.
Proof.
  induction output as [| [k d] output IH]; cbn [map fst tiers_of]; intros Hnd Hin;
    [inversion Hin |].
  apply NoDup_cons in Hnd as [Hk Hnd].
  apply elem_of_cons in Hin as [[= <- <-] | Hin].
  - rewrite String.eqb_refl. reflexivity.
  - destruct (String.eqb_spec k spk) as [-> | _]; [| apply IH; assumption].
    exfalso. apply Hk. apply (list_elem_of_fmap_2 fst) in Hin. exact Hin.
Qed.

Lemma all_refs_elem (sd : list (string * tier_data)) (r : ref) :
  r ∈ all_refs sd ->
  exists spk data, (spk, data) ∈ sd /\ r ∈ (words data ++ phones data)%list.
Proof.
  unfold all_refs. induction sd as [| [spk data] sd IH]; cbn [map concat snd];
    [intros H; inversion H |].
  rewrite elem_of_app. intros [H | H].
  - exists spk, data. split; [left | exact H].
  - destruct (IH H) as (spk' & data' & Hin & Hr). exists spk', data'.
    split; [right; exact Hin | exact Hr].
Qed.

(** X14: [ctm_to_textgrid] on utterances that take the copying branch.
    When it returns, every word label, and every phone label that is kept,
    of an utterance with word labels has the duration of the file as its end
    if that end lay within the frame shift of it; an object that is in no
    tier, such as a silence that the cleanup drops, is as it was. *)
Theorem ctm_to_textgrid_snaps (h h' : heap) (file : File) (utterances : list Utterance)
    (output_path : string) (cleanup_textgrids : bool) (frame_shift : Q)
    (first_file_write : bool) :
  Forall (copied cleanup_textgrids) utterances ->
  ctm_to_textgrid h file utterances output_path cleanup_textgrids frame_shift
    first_file_write = (h', Done ()) ->
  (forall u r,
     u ∈ utterances -> word_labels u <> [] ->
     r ∈ (word_labels u
          ++ kept_phones h (silences (dictionary_data u)) cleanup_textgrids
               (phone_labels u))%list ->
     within (duration file) (frame_shift_seconds frame_shift) (end_ (obj h r)) ->
     end_ (obj h' r) = duration file)
  /\ (forall r,
        (forall u, u ∈ utterances -> word_labels u <> [] ->
                   r ∉ (word_labels u
                        ++ kept_phones h (silences (dictionary_data u)) cleanup_textgrids
                             (phone_labels u))%list) ->
        obj h' r = obj h r).
Proof using Type.
  intros Hus. unfold ctm_to_textgrid.
  destruct (generate_tiers_copied h utterances cleanup_textgrids [] Hus)
    as (out & -> & Hnd & Hkeys & Htiers); [constructor |].
  pose proof (export_textgrid_heap h file output_path out frame_shift first_file_write)
    as [_ Hall]. cbn zeta in Hall.
  destruct (export_textgrid h file output_path out frame_shift first_file_write)
    as [h2 [[] | e]]; cbn [lift fst snd] in *; [| discriminate].
  intros [= <-]. rewrite (Hall eq_refl).
  assert (Hin : forall u r,
            u ∈ utterances -> word_labels u <> [] ->
            r ∈ (word_labels u
                 ++ kept_phones h (silences (dictionary_data u)) cleanup_textgrids
                      (phone_labels u))%list ->
            r ∈ all_refs out).
  { intros u r Hu Hw Hr.
    assert (Hsp : u ∈ spoken_by (speaker u) utterances).
    { unfold spoken_by. apply list_elem_of_filter. auto. }
    assert (Hkey : speaker u ∈ map fst out).
    { apply Hkeys. right. intros Hnil. rewrite Hnil in Hsp. inversion Hsp. }
    apply (elem_of_all_refs out (speaker u) (tiers_of (speaker u) out));
      [apply tiers_of_elem, Hkey |].
    destruct (Htiers (speaker u)) as [-> ->]. cbn [tiers_of words phones app].
    apply elem_of_app in Hr as [Hr | Hr]; apply elem_of_app; [left | right];
      apply list_elem_of_In, in_concat; eexists; (split; [| apply list_elem_of_In, Hr]);
      apply in_map_iff; exists u; (split; [reflexivity | apply list_elem_of_In, Hsp]). }
  split.
  - intros u r Hu Hw Hr Hwithin. rewrite snap_all_obj.
    rewrite bool_decide_eq_true_2 by (eapply Hin; eassumption).
    apply snapped_within, Hwithin.
  - intros r Hr. rewrite snap_all_obj. rewrite bool_decide_eq_false_2; [reflexivity |].
    intros Hall_refs. apply all_refs_elem in Hall_refs as (spk & data & Hsd & Hrd).
    rewrite <- (tiers_of_key spk data out Hnd Hsd) in Hrd.
    destruct (Htiers spk) as [Hw Hp]. cbn [tiers_of words phones app] in Hw, Hp.
    rewrite Hw, Hp in Hrd.
    assert (Hex : exists u, u ∈ spoken_by spk utterances
                    /\ r ∈ (word_labels u
                            ++ kept_phones h (silences (dictionary_data u))
                                 cleanup_textgrids (phone_labels u))%list).
    { apply elem_of_app in Hrd as [Hrd | Hrd];
        apply list_elem_of_In, in_concat in Hrd as (l & Hl & Hrl);
        apply in_map_iff in Hl as (u & <- & Hu); exists u;
        (split; [apply list_elem_of_In, Hu |]); apply elem_of_app;
        [left | right]; apply list_elem_of_In, Hrl. }
    destruct Hex as (u & Hu & Hru). unfold spoken_by in Hu.
    apply list_elem_of_filter in Hu as [[_ Hw'] Hu]. apply (Hr u Hu Hw' Hru).
Qed.

Lemma frame_shift_seconds_nonneg (frame_shift : Q) :
  (0 <= frame_shift)%Q -> (0 <= frame_shift_seconds frame_shift)%Q.
Proof.
  intros H. unfold frame_shift_seconds. destruct (Qltb 1 frame_shift) eqn:Hc; [| exact H].
  change 0%Q with (round4 0). apply round4_mono.
  apply Qltb_lt in Hc. apply Qle_shift_div_l; lra.
Qed.

Lemma snapped_fits (d fs : Q) (c : CtmInterval) :
  (0 <= fs)%Q -> (end_ (snapped d fs c) <= d)%Q.
Proof.
  intros H. unfold snapped. destruct (Qltb (d - end_ c) fs) eqn:Hc; cbn.
  - apply Qle_refl.
  - apply Qltb_ge in Hc. lra.
Qed.

(** X15: after an export with a non-negative frame shift has returned, no
    interval that [speaker_data] refers to ends after the duration of the
    file. *)
Theorem export_textgrid_fits (h h' : heap) (file : File) (output_path : string)
    (speaker_data : list (string * tier_data)) (frame_shift : Q) (first_file_write : bool)
    (r : ref) :
  (0 <= frame_shift)%Q ->
  export_textgrid h file output_path speaker_data frame_shift first_file_write
  = (h', Ok ()) ->
  r ∈ all_refs speaker_data ->
  (end_ (obj h' r) <= duration file)%Q.
Proof using Type.
  intros Hfs Hrun Hr.
  destruct (export_textgrid_heap h file output_path speaker_data frame_shift
              first_file_write) as [_ Hall].
  rewrite Hrun in Hall. cbn [fst snd] in Hall. rewrite (Hall eq_refl), snap_all_obj.
  rewrite bool_decide_eq_true_2 by exact Hr.
  apply snapped_fits, frame_shift_seconds_nonneg, Hfs.
Qed.

(** X16: exporting again changes nothing more: when the export of the same
    [speaker_data] with the same frame shift returns a second time, every
    interval object is as the first export left it. *)
Theorem export_textgrid_again (h h1 h2 : heap) (file : File) (path1 path2 : string)
    (speaker_data : list (string * tier_data)) (frame_shift : Q) (first1 first2 : bool)
    (r : ref) :
  export_textgrid h file path1 speaker_data frame_shift first1 = (h1, Ok ()) ->
  export_textgrid h1 file path2 speaker_data frame_shift first2 = (h2, Ok ()) ->
  obj h2 r = obj h1 r.
Proof using Type.
  intros Hrun1 Hrun2.
  destruct (export_textgrid_heap h file path1 speaker_data frame_shift first1)
    as [_ Hall1].
  destruct (export_textgrid_heap h1 file path2 speaker_data frame_shift first2)
    as [_ Hall2].
  rewrite Hrun1 in Hall1. rewrite Hrun2 in Hall2. cbn [fst snd] in Hall1, Hall2.
  rewrite (Hall2 eq_refl), snap_all_obj, (Hall1 eq_refl), snap_all_obj.
  destruct (bool_decide (r ∈ all_refs speaker_data)); [apply snapped_idem | reflexivity].
Qed.

End Textgrid.


(** ** Error collector *)

Lemma app_String (c : ascii) (s1 s2 : string) : String c s1 ++ s2 = String c (s1 ++ s2).
Proof. reflexivity. Qed.

Lemma string_app_assoc (s1 s2 s3 : string) : (s1 ++ s2) ++ s3 = s1 ++ (s2 ++ s3).
Proof.
  induction s1 as [| c s1 IH]; [reflexivity | rewrite !app_String, IH; reflexivity].
Qed.

Lemma string_app_empty (s : string) : s ++ "" = s.
Proof.
  induction s as [| c s IH]; [reflexivity | rewrite app_String, IH; reflexivity].
Qed.

Lemma dict_set_new (k v : string) (d : list (string * string)) :
  k ∉ map fst d -> dict_set k v d = (d ++ [(k, v)])%list.
Proof.
  induction d as [| [k' v'] d IH]; cbn; intros Hk; [reflexivity |].
  apply not_elem_of_cons in Hk as [Hne Hk].
  destruct (String.eqb_spec k' k) as [-> | _]; [congruence |].
  rewrite IH by exact Hk. reflexivity.
Qed.

(** With the strict flag off no file stops the loop. *)
Lemma export_job_completes (files : list job_file) (processed : gset string)
    (errors : list (string * string)) :
  returns (export_job false files processed errors).
Proof.
  revert processed errors. induction files as [| f files IH]; intros processed errors;
    cbn [export_job].
  - eexists. reflexivity.
  - destruct (export_outcome f _); apply IH.
Qed.

Lemma export_jobs_completes (jobs : list (list job_file)) (errors : list (string * string)) :
  returns (export_jobs false jobs errors).
Proof.
  revert errors. induction jobs as [| files jobs IH]; intros errors; cbn [export_jobs].
  - eexists. reflexivity.
  - destruct (export_job_completes files ∅ errors) as [errors' ->]. apply IH.
Qed.

(** Files with different names are all written for the first time, and
    each failing one adds an entry. *)
Lemma export_job_distinct (files : list job_file) (processed : gset string)
    (errors : list (string * string)) :
  NoDup (map name files) ->
  (forall f, f ∈ files -> (name f ∉ processed) /\ (name f ∉ map fst errors)) ->
  export_job false files processed errors = Ok (errors ++ failing files)%list.
Proof.
  revert processed errors. induction files as [| f files IH]; intros processed errors Hnd Hfresh;
    cbn [export_job failing omap list_omap].
  - rewrite app_nil_r. reflexivity.
  - apply NoDup_cons in Hnd as [Hf Hnd].
    destruct (Hfresh f ltac:(left)) as [Hp He].
    rewrite bool_decide_eq_false_2 by exact Hp. cbn [negb].
    assert (Hrest : forall g, g ∈ files -> name g <> name f).
    { intros g Hg Heq. apply Hf. rewrite <- Heq. apply list_elem_of_fmap_2, Hg. }
    destruct (export_outcome f true) as [text |].
    + rewrite dict_set_new by exact He. rewrite IH; [| exact Hnd |].
      * rewrite <- app_assoc. reflexivity.
      * intros g Hg. destruct (Hfresh g ltac:(right; exact Hg)) as [Hgp Hge].
        split; [exact Hgp |]. rewrite map_app. cbn. rewrite elem_of_app.
        intros [? | Hin]; [contradiction |].
        apply list_elem_of_singleton in Hin. apply (Hrest g Hg Hin).
    + apply IH; [exact Hnd |].
      intros g Hg. destruct (Hfresh g ltac:(right; exact Hg)) as [Hgp Hge].
      split; [| exact Hge]. rewrite elem_of_union, elem_of_singleton.
      intros [Heq | ?]; [apply (Hrest g Hg Heq) | contradiction].
Qed.

Lemma failing_app (l1 l2 : list job_file) :
  failing (l1 ++ l2) = (failing l1 ++ failing l2)%list.
Proof. unfold failing. apply omap_app. Qed.

Lemma failing_names (files : list job_file) (n : string) :
  n ∈ map fst (failing files) -> n ∈ map name files.
Proof.
  intros (entry & -> & Hin)%list_elem_of_fmap.
  apply list_elem_of_omap in Hin as (f & Hf & Hout).
  destruct (export_outcome f true); [| discriminate]. injection Hout as <-.
  cbn. apply list_elem_of_fmap_2, Hf.
Qed.

Lemma export_jobs_distinct (jobs : list (list job_file)) (errors : list (string * string)) :
  NoDup (map name (concat jobs)) ->
  (forall f, f ∈ concat jobs -> name f ∉ map fst errors) ->
  export_jobs false jobs errors = Ok (errors ++ failing (concat jobs))%list.
Proof.
  revert errors. induction jobs as [| files jobs IH]; intros errors Hnd Hfresh;
    cbn [export_jobs concat].
  - cbn. rewrite app_nil_r. reflexivity.
  - cbn [concat] in Hnd, Hfresh. rewrite map_app in Hnd.
    apply NoDup_app in Hnd as (Hnd1 & Hdisj & Hnd2).
    rewrite export_job_distinct; [| exact Hnd1 |].
    + cbn [mbind result_bind]. rewrite IH; [| exact Hnd2 |].
      * rewrite failing_app, app_assoc. reflexivity.
      * intros g Hg. rewrite map_app, elem_of_app.
        intros [Hin | Hin].
        -- apply (Hfresh g); [apply elem_of_app; right; exact Hg | exact Hin].
        -- apply failing_names in Hin. apply (Hdisj _ Hin). apply list_elem_of_fmap_2, Hg.
    + intros f Hf. split; [apply not_elem_of_empty |].
      apply Hfresh, elem_of_app. left. exact Hf.
Qed.

Lemma write_errors_append (entries : list (string * string)) (text : string) :
  write_errors entries (Some text) = Some (text ++ entries_text entries).
Proof.
  revert text. induction entries as [| [k v] entries IH]; intros text; cbn [write_errors entries_text].
  - rewrite string_app_empty. reflexivity.
  - rewrite IH. f_equal. unfold report_entry. cbn [fst snd].
    apply string_app_assoc.
Qed.

(** The report is absent when nothing failed, and lists the entries
    otherwise, whatever was there before. *)
Lemma output_errors_report (entries : list (string * string)) (old : option string) :
  output_textgrid_writing_errors entries old
  = match entries with
    | [] => None
    | _ => Some (report entries)
    end.
Proof.
  unfold output_textgrid_writing_errors, report.
  destruct entries as [| [k v] entries]; [reflexivity |].
  cbn [write_errors]. rewrite write_errors_append. cbn [entries_text].
  unfold report_entry. cbn [fst snd]. rewrite ?string_app_assoc. reflexivity.
Qed.

(** C7: with the strict flag off the batch completes whatever fails. For
    files with pairwise different names, of which [K] fail, the report
    exists afterwards exactly when [K > 0], whether or not one was there
    before; it then consists of the header and, for each failing file in
    turn, its name and its error text; and the failing files are those
    whose export raises. *)
Theorem batch_report (jobs : list (list job_file)) (old_log : option string) :
  returns (ctms_to_textgrids_non_mp false jobs old_log)
  /\ (NoDup (map name (concat jobs)) ->
      let failed := failing (concat jobs) in
      let K := length failed in
      (forall n text,
         (n, text) ∈ failed
         <-> exists f, f ∈ concat jobs /\ name f = n /\ export_outcome f true = Some text)
      /\ (K = 0%nat -> ctms_to_textgrids_non_mp false jobs old_log = Ok None)
      /\ ((0 < K)%nat ->
          ctms_to_textgrids_non_mp false jobs old_log = Ok (Some (report failed)))).
Proof.
  split.
  - unfold ctms_to_textgrids_non_mp.
    destruct (export_jobs_completes jobs []) as [errors ->]. eexists. reflexivity.
  - intros Hnd. cbn zeta. split; [| split].
    + intros n text. unfold failing. rewrite list_elem_of_omap. split.
      * intros (f & Hf & Hout). exists f.
        destruct (export_outcome f true); [| discriminate].
        injection Hout as <- <-. auto.
      * intros (f & Hf & <- & Hout). exists f. rewrite Hout. auto.
    + intros HK. unfold ctms_to_textgrids_non_mp.
      rewrite export_jobs_distinct; [| exact Hnd | intros f _ Hin; inversion Hin].
      cbn [mbind result_bind app]. rewrite output_errors_report.
      destruct (failing (concat jobs)); [reflexivity | discriminate].
    + intros HK. unfold ctms_to_textgrids_non_mp.
      rewrite export_jobs_distinct; [| exact Hnd | intros f _ Hin; inversion Hin].
      cbn [mbind result_bind app]. rewrite output_errors_report.
      destruct (failing (concat jobs)); [cbn in HK; lia | reflexivity].
Qed.

(** ** Phone remapper *)

Lemma walk_step_faithful (phones : list ref) (strip : list string) (pi : string)
    (st : remap_state) :
  Forall (faithful strip) (relabels st) ->
  Forall (faithful strip) (relabels (fst (walk_step phones strip pi st))).
Proof.
  intros H. unfold walk_step.
  destruct (phones !! mapping_ind st) as [r |]; [| exact H].
  destruct (String.eqb pi _); [exact H |].
  destruct (String.eqb_spec (strip_all strip pi) (label (obj (rs_heap st) r))) as [Heq | _].
  - cbn [fst relabels]. apply Forall_app. split; [exact H |].
    constructor; [exact Heq | constructor].
  - destruct (negb _); [| exact H].
    destruct (phones !! S (mapping_ind st)) as [r' |]; [| exact H].
    destruct (String.eqb _ _); exact H.
Qed.

Lemma walk_faithful (phones : list ref) (strip : list string) (orig : list string)
    (st : remap_state) :
  Forall (faithful strip) (relabels st) ->
  Forall (faithful strip) (relabels (fst (walk phones strip orig st))).
Proof.
  revert st. induction orig as [| pi orig IH]; intros st H; cbn [walk]; [exact H |].
  pose proof (walk_step_faithful phones strip pi st H) as Hs.
  destruct (walk_step phones strip pi st) as [st' [[] | err]]; cbn [fst] in Hs.
  - apply IH, Hs.
  - exact Hs.
Qed.

Lemma remap_loop_faithful (phones : list ref) (t strip : list string)
    (sub : list (list PronunciationEntry)) (st : remap_state) :
  Forall (faithful strip) (relabels st) ->
  Forall (faithful strip) (relabels (fst (remap_loop phones t strip sub st))).
Proof.
  revert st. induction sub as [| ps sub IH]; intros st H; cbn [remap_loop]; [exact H |].
  destruct (length phones <=? mapping_ind st)%nat; [exact H |].
  destruct (scan t (transcription_ind st) ps None) as [exact pron].
  assert (H1 : Forall (faithful strip) (relabels (if exact then extend phones st else st)))
    by (destruct exact; exact H).
  destruct (length phones <=? _)%nat; [exact H1 |].
  destruct pron as [p |]; [| exact H1].
  destruct (original_pronunciation p) as [orig |]; [| exact H1].
  destruct (bool_decide (pronunciation p = orig)); [exact H1 |].
  match goal with |- context [walk phones strip orig ?s] =>
    pose proof (walk_faithful phones strip orig s H1) as Hw;
    destruct (walk phones strip orig s) as [st3 [[] | err]] end; cbn [fst] in Hw.
  - apply IH, Hw.
  - exact Hw.
Qed.

Lemma map_to_original_state (h : heap) (phones : list ref)
    (sub : list (list PronunciationEntry)) (strip : list string) :
  fst (map_to_original_pronunciation h phones sub strip)
  = fst (remap_loop phones (map (fun x => label (obj h x)) phones) strip sub
           (mkRemap h [] 0 0 [])).
Proof.
  unfold map_to_original_pronunciation.
  destruct (remap_loop _ _ _ _ _) as [st [[] | err]]; reflexivity.
Qed.

Section Distinct.

Variable strip : list string.
Variable h0 : heap.
Variable phones : list ref.
Hypothesis distinct : NoDup phones.
Hypothesis allocated : Forall (fun r => (r < next h0)%nat) phones.

Lemma walk_step_once (pi : string) (st : remap_state) :
  relabelled_once strip h0 phones st ->
  relabelled_once strip h0 phones (fst (walk_step phones strip pi st)).
Proof using distinct allocated.
  intros Hst. pose proof Hst as (Hn & Hobj & Hahead).
  assert (Hskip : forall new, relabelled_once strip h0 phones
            (mkRemap (rs_heap st) new (S (mapping_ind st)) (transcription_ind st)
               (relabels st))).
  { intros new. split; [exact Hn |]. split; [exact Hobj |].
    intros i r0 Hi. apply Hahead. cbn in Hi. lia. }
  unfold walk_step.
  destruct (phones !! mapping_ind st) as [r |] eqn:Hr; [| exact Hst].
  destruct (String.eqb pi _); [apply Hskip |].
  destruct (String.eqb_spec (strip_all strip pi) (label (obj (rs_heap st) r))) as [Heq | _].
  - cbn [fst]. split; [exact Hn |]. split.
    + intros r0 Hr0. cbn. destruct (Nat.eqb_spec r0 r) as [-> | Hne]; cbn.
      * destruct (Hobj r Hr0) as (Hb & He & _).
        split; [exact Hb |]. split; [exact He |].
        right. rewrite Heq. apply (Hahead (mapping_ind st)); [lia | exact Hr].
      * apply Hobj, Hr0.
    + intros i r0 Hi Hr0. cbn in Hi. cbn.
      destruct (Nat.eqb_spec r0 r) as [-> | Hne]; cbn.
      * pose proof (NoDup_lookup _ _ _ _ distinct Hr Hr0). lia.
      * apply (Hahead i); [lia | exact Hr0].
  - destruct (negb _); [| apply Hskip].
    destruct (phones !! S (mapping_ind st)) as [r' |]; [| exact Hst].
    destruct (String.eqb _ _); [| apply Hskip].
    cbn [fst]. split; [cbn; lia |]. split.
    + intros r0 Hr0. cbn. destruct (Nat.eqb_spec r0 (next (rs_heap st))) as [-> | _];
        [lia | apply Hobj, Hr0].
    + intros i r0 Hi Hr0. cbn in Hi. cbn.
      pose proof (proj1 (Forall_forall _ _) allocated r0
                    (list_elem_of_lookup_2 _ _ _ Hr0)) as Hlt. cbn in Hlt.
      destruct (Nat.eqb_spec r0 (next (rs_heap st))) as [-> | _];
        [lia | apply (Hahead i); [lia | exact Hr0]].
Qed.

Lemma walk_once (orig : list string) (st : remap_state) :
  relabelled_once strip h0 phones st ->
  relabelled_once strip h0 phones (fst (walk phones strip orig st)).
Proof using distinct allocated.
  revert st. induction orig as [| pi orig IH]; intros st H; cbn [walk]; [exact H |].
  pose proof (walk_step_once pi st H) as Hs.
  destruct (walk_step phones strip pi st) as [st' [[] | err]]; cbn [fst] in Hs.
  - apply IH, Hs.
  - exact Hs.
Qed.

Lemma extend_once (l : list ref) (st : remap_state) :
  relabelled_once strip h0 phones st -> relabelled_once strip h0 phones (extend l st).
Proof.
  intros (Hn & Hobj & Hahead). split; [exact Hn |]. split; [exact Hobj |].
  intros i r Hi. apply Hahead. cbn in Hi. lia.
Qed.

Lemma remap_loop_once (t : list string) (sub : list (list PronunciationEntry))
    (st : remap_state) :
  relabelled_once strip h0 phones st ->
  relabelled_once strip h0 phones (fst (remap_loop phones t strip sub st)).
Proof using distinct allocated.
  revert st. induction sub as [| ps sub IH]; intros st H; cbn [remap_loop]; [exact H |].
  destruct (length phones <=? mapping_ind st)%nat; [exact H |].
  destruct (scan t (transcription_ind st) ps None) as [exact pron].
  assert (H1 : relabelled_once strip h0 phones (if exact then extend phones st else st))
    by (destruct exact; [apply extend_once |]; exact H).
  destruct (length phones <=? _)%nat; [exact H1 |].
  destruct pron as [p |]; [| apply extend_once, H1].
  assert (H2 : forall n, relabelled_once strip h0 phones
            (mkRemap (rs_heap (if exact then extend phones st else st))
               (new_phones (if exact then extend phones st else st))
               (mapping_ind (if exact then extend phones st else st)) n
               (relabels (if exact then extend phones st else st)))) by (intros n; exact H1).
  destruct (original_pronunciation p) as [orig |]; [| apply extend_once, H2].
  destruct (bool_decide (pronunciation p = orig)); [apply extend_once, H2 |].
  match goal with |- context [walk phones strip orig ?s] =>
    pose proof (walk_once orig s (H2 _)) as Hw;
    destruct (walk phones strip orig s) as [st3 [[] | err]] end; cbn [fst] in Hw.
  - apply IH, Hw.
  - exact Hw.
Qed.

End Distinct.

(** C9: whenever [map_to_original_pronunciation] assigns an original
    phone to the label of an aligned interval, that phone stripped of all
    the configured diacritics is the label the interval carried until then.
    When moreover no interval object occurs twice among the aligned phones,
    an interval whose label differs after the call from its label before
    carries a label in which stripping the diacritics gives back the label
    before. *)
Theorem relabel_strips (h : heap) (phones : list ref)
    (subpronunciations : list (list PronunciationEntry)) (strip_diacritics : list string) :
  let st := fst (map_to_original_pronunciation h phones subpronunciations strip_diacritics) in
  Forall (fun ev => strip_all strip_diacritics (snd ev) = snd (fst ev)) (relabels st)
  /\ (NoDup phones -> Forall (fun r => (r < next h)%nat) phones ->
      forall r, r ∈ phones ->
                label (obj (rs_heap st) r) <> label (obj h r) ->
                strip_all strip_diacritics (label (obj (rs_heap st) r)) = label (obj h r)).
Proof.
  cbn zeta. rewrite map_to_original_state. split.
  - apply (remap_loop_faithful phones _ strip_diacritics subpronunciations). constructor.
  - intros Hnd Halloc r Hr Hne.
    destruct (remap_loop_once strip_diacritics h phones Hnd Halloc
                (map (fun x => label (obj h x)) phones) subpronunciations
                (mkRemap h [] 0 0 [])) as (_ & Hobj & _).
    { split; [cbn; lia |]. split; [intros r0 _; cbn; auto | intros i r0 _ _; reflexivity]. }
    rewrite Forall_forall in Halloc.
    destruct (Hobj r (Halloc r Hr)) as (_ & _ & [Heq | Hs]); [contradiction | exact Hs].
Qed.

Lemma scan_none (t : list string) (ind : nat) (ps : list PronunciationEntry) :
  (forall p, p ∈ ps -> exact_match t p = false /\ prefix_match t ind p = false) ->
  scan t ind ps None = (false, None).
Proof.
  induction ps as [| p ps IH]; intros H; cbn [scan]; [reflexivity |].
  destruct (H p ltac:(left)) as [-> ->]. apply IH.
  intros q Hq. apply H. right. exact Hq.
Qed.

(** X17: when no entry of the first candidate list matches, neither the
    whole transcription nor a prefix of it, [map_to_original_pronunciation]
    returns the aligned intervals as they are and touches no object. *)
Lemma remap_passthrough (h : heap) (phones : list ref) (ps : list PronunciationEntry)
    (rest : list (list PronunciationEntry)) (strip : list string) :
  (forall p, p ∈ ps ->
     exact_match (map (fun x => label (obj h x)) phones) p = false
     /\ prefix_match (map (fun x => label (obj h x)) phones) 0 p = false) ->
  snd (map_to_original_pronunciation h phones (ps :: rest) strip) = Ok phones
  /\ rs_heap (fst (map_to_original_pronunciation h phones (ps :: rest) strip)) = h
  /\ relabels (fst (map_to_original_pronunciation h phones (ps :: rest) strip)) = [].
Proof.
  intros H. unfold map_to_original_pronunciation. cbn [remap_loop mapping_ind].
  destruct phones as [| r phones]; [cbn; auto |].
  cbn [length Nat.leb transcription_ind]. rewrite (scan_none _ 0 ps H).
  cbn. auto.
Qed.

(** C2 on three inputs. On the phones of "cat's" with one entry for "cat"
    and one for "'s", the loop is left after the first sub-word and the
    phone of the clitic is not returned; an original pronunciation that is
    longer than what remains of the aligned phones raises [IndexError]; an
    original phone that matches neither the aligned phone nor a merge is
    dropped with its interval. *)
Theorem remap_loses_phones :
  snd (map_to_original_pronunciation cats_phones [0; 1; 2; 3]%nat
         [[mkEntry ["k"; "ae"; "t"] (Some ["k"; "ae"; "t"])];
          [mkEntry ["s"] (Some ["s"])]] [])
  = Ok [0; 1; 2]%nat
  /\ snd (map_to_original_pronunciation one_phone [0]%nat
            [[mkEntry ["a"] (Some ["a"; "b"])]] [])
     = Raise IndexError
  /\ snd (map_to_original_pronunciation one_phone [0]%nat
            [[mkEntry ["a"] (Some ["x"])]] [])
     = Ok [].
Proof. repeat split; vm_compute; reflexivity. Qed.

(** ** Splitting *)

(** C3 on compound markers "+-/": the character class reads [+-/] as the
    range from "+" to "/", which holds the full stop, so the word
    "u.s.-based" loses its two full stops. *)
Theorem split_clitics_range_marker :
  split_clitics ∅ ∅ "'" "+-/" "u.s.-based" = Ok ["u"; "s"; ""; "based"]
  /\ content "'" "+-/" ["u"; "s"; ""; "based"] = "usbased"
  /\ content "'" "+-/" ["u.s.-based"] = "u.s.based".
Proof. repeat split; vm_compute; reflexivity. Qed.

(** *** Marker strings that the character class takes literally *)

Lemma char_in_app (c : ascii) (s1 s2 : string) :
  char_in c (s1 ++ s2) = char_in c s1 || char_in c s2.
Proof.
  induction s1 as [| d s1 IH]; [reflexivity |].
  rewrite app_String. cbn [char_in]. rewrite IH. apply orb_assoc.
Qed.

Lemma ascii_eqb_sym (a b : ascii) : Ascii.eqb a b = Ascii.eqb b a.
Proof.
  destruct (Ascii.eqb_spec a b) as [-> | Hne]; [symmetry; apply Ascii.eqb_refl |].
  symmetry. apply Ascii.eqb_neq. congruence.
Qed.

Lemma parse_items_literal (s : string) (first : bool) :
  char_in "\" s = false ->
  char_in "]" s = false ->
  match s with
  | "" => True
  | String _ rest => no_inner_dash rest = true
  end ->
  exists its,
    parse_items first s = Ok its
    /\ (s <> "" -> its <> [])
    /\ forall c, existsb (item_matches c) its = char_in c s.
Proof.
  revert first. induction s as [| c rest IH]; intros first Hb Hc Hd.
  - exists []. split; [reflexivity |]. split; [intros H; congruence | reflexivity].
  - cbn [char_in] in Hb, Hc. apply orb_false_iff in Hb as [Hb1 Hb2].
    apply orb_false_iff in Hc as [Hc1 Hc2].
    cbn [parse_items]. unfold is_backslash, is_close.
    rewrite (ascii_eqb_sym c), Hb1, (ascii_eqb_sym c), Hc1. cbn [orb andb].
    assert (Hrest : is_dash (match rest with String d _ => d | "" => "a" end) = false
                    \/ rest = "-").
    { destruct rest as [| dash after]; [left; reflexivity |].
      destruct after as [| d rest']; cbn [no_inner_dash] in Hd.
      - unfold is_dash. destruct (Ascii.eqb_spec dash "-") as [-> |]; auto.
      - apply andb_true_iff in Hd as [Hd _]. left. unfold is_dash.
        apply negb_true_iff, Hd. }
    destruct Hrest as [Hnd | ->].
    + destruct (IH false Hb2 Hc2) as (its & Hits & _ & Hmatch).
      { destruct rest as [| dash after]; [exact I |].
        destruct after as [| d rest']; [reflexivity |].
        cbn [no_inner_dash] in Hd. apply andb_true_iff in Hd as [_ Hd]. exact Hd. }
      exists (Lit c :: its). split; [| split; [congruence |]].
      * destruct rest as [| dash after]; [| rewrite Hnd]; rewrite Hits; reflexivity.
      * intros x. cbn [existsb item_matches char_in]. rewrite Hmatch. reflexivity.
    + exists [Lit c; Lit "-"]. split; [reflexivity |]. split; [congruence |].
      intros x. reflexivity.
Qed.

Lemma compile_plain (markers : string) :
  plain_markers markers = true ->
  exists cl, compile_class markers = Ok cl
             /\ forall c, class_matches cl c = char_in c markers.
Proof.
  unfold plain_markers. intros H.
  apply andb_true_iff in H as [H Hdash]. apply andb_true_iff in H as [H Hcaret].
  apply andb_true_iff in H as [H _]. apply andb_true_iff in H as [Hb Hc].
  apply negb_true_iff in Hb, Hc, Hcaret.
  destruct markers as [| c body]; [discriminate |].
  destruct (parse_items_literal (String c body) true Hb Hc Hdash) as (its & Hits & Hne & Hm).
  unfold compile_class. cbn [startswith] in Hcaret. rewrite Hcaret, Hits.
  cbn [mbind result_bind]. destruct its as [| it its]; [exfalso; apply Hne; congruence |].
  eexists. split; [reflexivity |]. intros x. unfold class_matches. cbn [negated items].
  rewrite Hm. reflexivity.
Qed.

(** *** Cutting a string *)

Lemma split_where_ext (p q : ascii -> bool) (s : string) :
  (forall c, p c = q c) -> split_where p s = split_where q s.
Proof.
  intros H. induction s as [| c s IH]; [reflexivity |].
  cbn [split_where]. rewrite H, IH. reflexivity.
Qed.

Lemma split_first_ext (p q : ascii -> bool) (s : string) :
  (forall c, p c = q c) -> split_first p s = split_first q s.
Proof.
  intros H. induction s as [| c s IH]; [reflexivity |].
  cbn [split_first]. rewrite H, IH. reflexivity.
Qed.

Lemma split_where_nonempty (p : ascii -> bool) (s : string) : split_where p s <> [].
Proof.
  destruct s as [| c s]; cbn [split_where]; [congruence |].
  destruct (p c); [congruence |]. destruct (split_where p s); congruence.
Qed.

Lemma join_split_where (p : ascii -> bool) (markers s : string) :
  (forall c, p c = true -> char_in c markers = true) ->
  without_markers markers (join (split_where p s)) = without_markers markers s.
Proof.
  intros H. induction s as [| c s IH]; [reflexivity |].
  cbn [split_where]. destruct (p c) eqn:Hp.
  - cbn [join without_markers]. rewrite (H c Hp). exact IH.
  - pose proof (split_where_nonempty p s) as Hne.
    destruct (split_where p s) as [| h t]; [congruence |].
    cbn [join] in *. rewrite app_String. cbn [without_markers]. rewrite IH. reflexivity.
Qed.

Lemma split_where_shorter (p : ascii -> bool) (s : string) :
  (exists c, char_in c s = true /\ p c = true) ->
  Forall (fun seg => (String.length seg < String.length s)%nat) (split_where p s).
Proof.
  assert (Hle : forall s, Forall (fun seg => (String.length seg <= String.length s)%nat)
                            (split_where p s)).
  { clear s. induction s as [| c s IH]; cbn [split_where].
    - repeat constructor.
    - destruct (p c).
      + constructor; [cbn; lia |]. eapply Forall_impl; [exact IH |]. cbn. intros; lia.
      + pose proof (split_where_nonempty p s) as Hne.
        destruct (split_where p s) as [| h t]; [congruence |].
        apply Forall_cons in IH as [Hh Ht]. constructor; [cbn; lia |].
        eapply Forall_impl; [exact Ht |]. cbn. intros; lia. }
  induction s as [| c s IH]; intros (x & Hx & Hp); [discriminate |].
  cbn [split_where]. destruct (p c) eqn:Hc.
  - constructor; [cbn; lia |]. eapply Forall_impl; [apply Hle |]. cbn. intros; lia.
  - cbn [char_in] in Hx. apply orb_true_iff in Hx as [Hx | Hx].
    { apply Ascii.eqb_eq in Hx as ->. congruence. }
    specialize (IH (ex_intro _ x (conj Hx Hp))).
    pose proof (split_where_nonempty p s) as Hne.
    destruct (split_where p s) as [| h t]; [congruence |].
    apply Forall_cons in IH as [Hh Ht]. constructor; [cbn; lia |].
    eapply Forall_impl; [exact Ht |]. cbn. intros; lia.
Qed.

Lemma split_first_cut (p : ascii -> bool) (s : string) :
  (exists c, char_in c s = true /\ p c = true) ->
  exists initial final c,
    split_first p s = [initial; final]
    /\ s = initial ++ String c final
    /\ p c = true.
Proof.
  induction s as [| c s IH]; intros (x & Hx & Hp); [discriminate |].
  cbn [split_first]. destruct (p c) eqn:Hc.
  - exists "", s, c. auto.
  - cbn [char_in] in Hx. apply orb_true_iff in Hx as [Hx | Hx].
    { apply Ascii.eqb_eq in Hx as ->. congruence. }
    destruct (IH (ex_intro _ x (conj Hx Hp))) as (initial & final & y & -> & -> & Hy).
    exists (String c initial), final, y. auto.
Qed.

Lemma string_length_app (s1 s2 : string) :
  String.length (s1 ++ s2) = (String.length s1 + String.length s2)%nat.
Proof.
  induction s1 as [| c s1 IH]; [reflexivity |].
  rewrite app_String. cbn [String.length]. rewrite IH. reflexivity.
Qed.

Lemma without_markers_app (markers s1 s2 : string) :
  without_markers markers (s1 ++ s2)
  = without_markers markers s1 ++ without_markers markers s2.
Proof.
  induction s1 as [| c s1 IH]; [reflexivity |].
  rewrite app_String. cbn [without_markers]. rewrite IH.
  destruct (char_in c markers); reflexivity.
Qed.

Lemma join_app (l1 l2 : list string) : join (l1 ++ l2) = join l1 ++ join l2.
Proof.
  induction l1 as [| x l1 IH]; [reflexivity |].
  cbn [join app]. rewrite IH, string_app_assoc. reflexivity.
Qed.

Lemma any_char_exists (f : ascii -> bool) (s : string) :
  any_char f s = true <-> exists c, char_in c s = true /\ f c = true.
Proof.
  induction s as [| d s IH]; cbn [any_char char_in].
  - split; [discriminate | intros (c & H & _); discriminate].
  - rewrite orb_true_iff, IH. split.
    + intros [H | (c & Hc & Hf)].
      * exists d. rewrite Ascii.eqb_refl. auto.
      * exists c. rewrite Hc, orb_true_r. auto.
    + intros (c & Hc & Hf). apply orb_true_iff in Hc as [Hc | Hc].
      * apply Ascii.eqb_eq in Hc as ->. auto.
      * right. exists c. auto.
Qed.

(** *** Splitting keeps the characters *)

Section SplitContent.

Variable wm : gmap string Z.
Variable cs : gset string.
Variable cm comp : string.
Hypothesis plain_cm : plain_markers cm = true.
Hypothesis plain_comp : plain_markers comp = true.

Lemma content_single (x : string) :
  content cm comp [x] = without_markers (cm ++ comp) x.
Proof. unfold content. cbn [join]. rewrite string_app_empty. reflexivity. Qed.

Lemma content_cons (x : string) (l : list string) :
  content cm comp (x :: l) = without_markers (cm ++ comp) x ++ content cm comp l.
Proof. unfold content. cbn [join]. apply without_markers_app. Qed.

Lemma content_app (l1 l2 : list string) :
  content cm comp (l1 ++ l2) = content cm comp l1 ++ content cm comp l2.
Proof. unfold content. rewrite join_app. apply without_markers_app. Qed.

Lemma marker_dropped (c : ascii) :
  char_in c cm = true \/ char_in c comp = true ->
  without_markers (cm ++ comp) (String c "") = "".
Proof.
  intros H. cbn [without_markers]. rewrite char_in_app.
  destruct H as [-> | ->]; rewrite ?orb_true_r; reflexivity.
Qed.

Lemma re_split_plain (item : string) :
  re_split comp item = Ok (split_where (fun c => char_in c comp) item).
Proof using plain_comp.
  unfold re_split. destruct (compile_plain comp plain_comp) as (cl & -> & Hcl).
  cbn [mbind result_bind]. f_equal. apply split_where_ext, Hcl.
Qed.

Lemma re_split_once_plain (item : string) :
  re_split_once cm item = Ok (split_first (fun c => char_in c cm) item).
Proof using plain_cm.
  unfold re_split_once. destruct (compile_plain cm plain_cm) as (cl & -> & Hcl).
  cbn [mbind result_bind]. f_equal. apply split_first_ext, Hcl.
Qed.

Lemma has_marker_exists (markers item : string) :
  has_marker markers item = true ->
  exists c, char_in c item = true /\ char_in c markers = true.
Proof.
  unfold has_marker. intros (c & Hc & Hi)%any_char_exists. exists c. auto.
Qed.

Lemma has_inner_marker_exists (markers item : string) :
  has_inner_marker markers item = true ->
  exists c, char_in c item = true /\ char_in c markers = true.
Proof.
  unfold has_inner_marker. intros (c & Hc & Hi)%any_char_exists. exists c.
  apply andb_true_iff in Hi as [Hi _]. apply andb_true_iff in Hi as [Hi _]. auto.
Qed.

Lemma attach_clitic_content (initial : string) (final : list string) (markers : string) :
  final <> [] ->
  (forall c, char_in c markers = true -> char_in c cm = true) ->
  exists found,
    attach_clitic cs initial final markers = Ok found
    /\ forall tokens, found = Some tokens ->
         tokens <> []
         /\ content cm comp tokens
            = without_markers (cm ++ comp) initial ++ content cm comp final.
Proof.
  intros Hne. induction markers as [| clitic markers IH]; intros Hin; cbn [attach_clitic].
  - exists None. split; [reflexivity | discriminate].
  - assert (Hcl : char_in clitic cm = true \/ char_in clitic comp = true).
    { left. apply Hin. cbn [char_in]. rewrite Ascii.eqb_refl. reflexivity. }
    destruct (bool_decide (initial ++ String clitic "" ∈ cs)).
    + eexists. split; [reflexivity |]. intros tokens [= <-]. split; [congruence |].
      rewrite content_cons, without_markers_app, (marker_dropped clitic Hcl).
      rewrite string_app_empty. reflexivity.
    + destruct final as [| f0 final]; [congruence |]. cbn [index lookup list_lookup].
      cbn [mbind result_bind].
      destruct (bool_decide (String clitic f0 ∈ cs)).
      * eexists. split; [reflexivity |]. intros tokens [= <-]. split; [congruence |].
        cbn [insert list_insert]. rewrite !content_cons.
        change (String clitic f0) with (String clitic "" ++ f0).
        rewrite without_markers_app, (marker_dropped clitic Hcl). reflexivity.
      * apply IH. intros c Hc. apply Hin. cbn [char_in]. rewrite Hc. apply orb_true_r.
Qed.

Lemma split_segments_content (rec : string -> result (list string)) (n : nat)
    (s : list string) :
  (forall seg, (String.length seg < n)%nat ->
     exists tokens, rec seg = Ok tokens /\ tokens <> []
                    /\ content cm comp tokens = content cm comp [seg]) ->
  Forall (fun seg => (String.length seg < n)%nat) s ->
  exists tokens,
    split_segments cm rec s = Ok tokens
    /\ (s <> [] -> tokens <> [])
    /\ content cm comp tokens = content cm comp s.
Proof.
  intros Hrec. induction s as [| seg s IH]; intros Hall; cbn [split_segments].
  - exists []. split; [reflexivity |]. split; [intros H; congruence | reflexivity].
  - apply Forall_cons in Hall as [Hseg Hall].
    destruct (IH Hall) as (rest & -> & _ & Hrest).
    assert (Hhere : exists here,
               (if has_marker cm seg then rec seg else Ok [seg]) = Ok here
               /\ here <> [] /\ content cm comp here = content cm comp [seg]).
    { destruct (has_marker cm seg); [apply Hrec, Hseg |].
      exists [seg]. split; [reflexivity |]. split; [congruence | reflexivity]. }
    destruct Hhere as (here & -> & Hne & Hhere). cbn [mbind result_bind].
    exists (here ++ rest)%list. split; [reflexivity |]. split.
    + intros _. destruct here; [congruence | discriminate].
    + rewrite content_app, Hhere, Hrest, content_single, content_cons. reflexivity.
Qed.

Lemma split_clitics_fuel_content (n : nat) (item : string) :
  (String.length item < n)%nat ->
  exists tokens,
    split_clitics_fuel wm cs cm comp n item = Ok tokens
    /\ tokens <> []
    /\ content cm comp tokens = content cm comp [item].
Proof using plain_cm plain_comp.
  revert item. induction n as [| n IH]; intros item Hlen; [lia |].
  assert (Hsame : exists tokens,
            Ok [item] = Ok tokens /\ tokens <> []
            /\ content cm comp tokens = content cm comp [item]).
  { exists [item]. split; [reflexivity |]. split; [congruence | reflexivity]. }
  cbn [split_clitics_fuel]. destruct (in_mapping wm item); [exact Hsame |].
  destruct (has_marker comp item) eqn:Hcomp.
  - rewrite re_split_plain. cbn [mbind result_bind].
    apply has_marker_exists in Hcomp as (c & Hc1 & Hc2).
    assert (Hjoin : content cm comp (split_where (fun c => char_in c comp) item)
                    = content cm comp [item]).
    { rewrite content_single. unfold content. apply join_split_where.
      intros x Hx. rewrite char_in_app, Hx. apply orb_true_r. }
    destruct (has_marker cm item).
    + destruct (split_segments_content (split_clitics_fuel wm cs cm comp n) n
                  (split_where (fun c => char_in c comp) item)) as (tokens & Ht & Hne & Hcont).
      * intros seg Hseg. apply IH, Hseg.
      * eapply Forall_impl; [apply split_where_shorter; exists c; auto |].
        cbn. intros seg Hseg. lia.
      * exists tokens. split; [exact Ht |]. split; [apply Hne, split_where_nonempty |].
        rewrite Hcont. exact Hjoin.
    + eexists. split; [reflexivity |]. split; [apply split_where_nonempty | exact Hjoin].
  - destruct (has_inner_marker cm item) eqn:Hinner; [| exact Hsame].
    rewrite re_split_once_plain. cbn [mbind result_bind].
    apply has_inner_marker_exists in Hinner as (c & Hc1 & Hc2).
    destruct (split_first_cut (fun c => char_in c cm) item) as (initial & final & x & -> & Hitem & Hx);
      [exists c; auto |].
    assert (Hshort : (String.length final < n)%nat).
    { rewrite Hitem, string_length_app in Hlen. cbn [String.length] in Hlen. lia. }
    assert (Hfinal : exists ftokens,
               (if has_marker cm final then split_clitics_fuel wm cs cm comp n final
                else Ok [final]) = Ok ftokens
               /\ ftokens <> [] /\ content cm comp ftokens = content cm comp [final]).
    { destruct (has_marker cm final); [apply IH, Hshort |].
      exists [final]. split; [reflexivity |]. split; [congruence | reflexivity]. }
    destruct Hfinal as (ftokens & -> & Hfne & Hfcont). cbn [mbind result_bind].
    destruct (attach_clitic_content initial ftokens cm Hfne) as (found & -> & Hfound); [auto |].
    cbn [mbind result_bind]. destruct found as [tokens |]; [| exact Hsame].
    destruct (Hfound tokens eq_refl) as [Hne Hcont].
    exists tokens. split; [reflexivity |]. split; [exact Hne |].
    rewrite Hcont, Hfcont, !content_single, Hitem, without_markers_app.
    change (String x final) with (String x "" ++ final).
    rewrite without_markers_app, (marker_dropped x (or_introl Hx)). reflexivity.
Qed.

(** X21: for marker strings that the character class takes literally,
    [split_clitics] returns, and the characters of its tokens are those of
    the word, markers ignored. *)
Lemma split_clitics_content (item : string) :
  exists tokens,
    split_clitics wm cs cm comp item = Ok tokens
    /\ content cm comp tokens = content cm comp [item].
Proof using plain_cm plain_comp.
  destruct (split_clitics_fuel_content (S (String.length item)) item) as (tokens & H & _ & Hc);
    [lia |].
  exists tokens. split; assumption.
Qed.

End SplitContent.

(** ** Labels from ids *)

Section LabelsFromIds.

Variable py_int : string -> option Z.

Lemma take_str_app (base p : string) : take_str (String.length base) (base ++ p) = base.
Proof.
  induction base as [| c base IH]; [destruct p; reflexivity |].
  rewrite app_String. cbn [String.length take_str]. rewrite IH. reflexivity.
Qed.

Lemma ends_with_suffix (s p : string) :
  ends_with s p = true <-> exists base, s = base ++ p.
Proof.
  induction s as [| c s IH]; cbn [ends_with].
  - rewrite orb_false_r, String.eqb_eq. split.
    + intros <-. exists "". reflexivity.
    + intros (base & H). destruct base; [exact H | discriminate].
  - rewrite orb_true_iff, String.eqb_eq, IH. split.
    + intros [<- | (base & ->)]; [exists ""; reflexivity |].
      exists (String c base). reflexivity.
    + intros (base & H). destruct base as [| c' base]; [left; exact H |].
      rewrite app_String in H. injection H as -> ->. right. eauto.
Qed.

Lemma same_length_suffix (b1 b2 p q : string) :
  b1 ++ p = b2 ++ q -> String.length p = String.length q -> p = q.
Proof.
  revert b2. induction b1 as [| c b1 IH]; intros b2 H Hlen.
  - destruct b2 as [| c2 b2]; [exact H |].
    apply (f_equal String.length) in H. rewrite !string_length_app in H.
    cbn in H. lia.
  - destruct b2 as [| c2 b2].
    + apply (f_equal String.length) in H. rewrite !string_length_app in H.
      cbn in H. lia.
    + rewrite !app_String in H. injection H as _ H. eapply IH; eassumption.
Qed.

Lemma strip_positions_keep (positions : list string) (base : string) :
  Forall (fun q => ends_with base q = false) positions ->
  strip_positions positions base = base.
Proof.
  unfold strip_positions. induction positions as [| q positions IH]; intros H;
    [reflexivity |].
  apply Forall_cons in H as [Hq H]. cbn [fold_left]. unfold strip_position at 2.
  rewrite Hq. apply IH, H.
Qed.

(** X5: the loop over the word positions of [parse_from_phone] undoes the
    marking of a phone: when all positions have the same length and the
    phone itself ends with none of them, the phone followed by one of the
    positions is turned back into the phone. *)
Theorem strip_positions_marked (positions : list string) (base p : string) :
  p ∈ positions ->
  Forall (fun q => String.length q = String.length p) positions ->
  Forall (fun q => ends_with base q = false) positions ->
  strip_positions positions (base ++ p) = base.
Proof.
  intros Hin Hlen Hbase. unfold strip_positions.
  induction positions as [| q positions IH]; [inversion Hin |].
  apply Forall_cons in Hlen as [Hq Hlen]. apply Forall_cons in Hbase as [Hbq Hbase].
  cbn [fold_left]. destruct (String.eqb_spec q p) as [-> | Hne].
  - unfold strip_position at 2.
    rewrite (proj2 (ends_with_suffix (base ++ p) p)) by eauto.
    destruct (String.length p) eqn:Hp.
    + destruct p; [| discriminate].
      rewrite (proj2 (ends_with_suffix base "")) in Hbq; [discriminate |].
      exists base. symmetry. apply string_app_empty.
    + rewrite <- Hp, string_length_app, Nat.add_sub, take_str_app.
      apply (strip_positions_keep positions base Hbase).
  - unfold strip_position at 2. destruct (ends_with (base ++ p) q) eqn:He.
    + apply ends_with_suffix in He as (b2 & He).
      exfalso. apply Hne. symmetry. eapply same_length_suffix; [exact He | congruence].
    + apply elem_of_cons in Hin as [-> | Hin]; [congruence |].
      apply IH; assumption.
Qed.

Lemma strip_positions_empty (positions : list string) : strip_positions positions "" = "".
Proof.
  unfold strip_positions. induction positions as [| q positions IH]; [reflexivity |].
  cbn [fold_left]. unfold strip_position at 2. cbn [ends_with String.length Nat.sub].
  destruct (String.eqb "" q || false); [destruct (String.length q) |]; exact IH.
Qed.

(** X6: a position that is the empty string erases every label, since the
    slice [label[: -1 * len(p)]] is then [label[:0]]. *)
Theorem strip_positions_erases (positions : list string) (label : string) :
  "" ∈ positions -> strip_positions positions label = "".
Proof.
  unfold strip_positions. revert label.
  induction positions as [| q positions IH]; intros label Hin; [inversion Hin |].
  cbn [fold_left]. apply elem_of_cons in Hin as [<- | Hin]; [| apply IH, Hin].
  unfold strip_position at 2.
  rewrite (proj2 (ends_with_suffix label "")) by (exists label; symmetry; apply string_app_empty).
  apply strip_positions_empty.
Qed.

Lemma set_label_fields (r r' : ref) (l : string) (h : heap) :
  begin_ (obj (set_label r l h) r') = begin_ (obj h r')
  /\ end_ (obj (set_label r l h) r') = end_ (obj h r')
  /\ utterance (obj (set_label r l h) r') = utterance (obj h r').
Proof.
  unfold set_label, update. cbn.
  destruct (Nat.eqb_spec r' r) as [-> | Hne]; cbn; repeat split; congruence.
Qed.

Lemma set_label_same (r : ref) (l : string) (h : heap) :
  label (obj (set_label r l h) r) = l.
Proof. unfold set_label, update. cbn. rewrite Nat.eqb_refl. reflexivity. Qed.

Lemma set_label_other (r r' : ref) (l : string) (h : heap) :
  r' <> r -> obj (set_label r l h) r' = obj h r'.
Proof.
  intros Hne. unfold set_label, update. cbn.
  destruct (Nat.eqb_spec r' r); [contradiction | reflexivity].
Qed.

Lemma relabel_phones_frame (m : gmap Z string) (ps : list string) (l : list ref)
    (h : heap) (r : ref) :
  let h' := fst (relabel_phones py_int m ps l h) in
  begin_ (obj h' r) = begin_ (obj h r)
  /\ end_ (obj h' r) = end_ (obj h r)
  /\ utterance (obj h' r) = utterance (obj h r)
  /\ (r ∉ l -> obj h' r = obj h r).
Proof.
  cbn zeta. revert h. induction l as [| x l IH]; intros h; cbn [relabel_phones].
  - cbn. auto.
  - destruct (py_int (label (obj h x))) as [n |]; [| cbn; auto].
    unfold getitem. destruct (m !! n) as [w |]; [| cbn; auto].
    destruct (IH (set_label x (strip_positions ps w) h)) as (Hb & He & Hu & Hout).
    destruct (set_label_fields x r (strip_positions ps w) h) as (Hb' & He' & Hu').
    rewrite Hb, He, Hu. repeat split; try assumption.
    intros Hr. apply not_elem_of_cons in Hr as [Hrx Hr].
    rewrite (Hout Hr). apply set_label_other, Hrx.
Qed.

Lemma relabel_phones_done (m : gmap Z string) (ps : list string) (l : list ref)
    (h h' : heap) :
  NoDup l ->
  relabel_phones py_int m ps l h = (h', Done ()) ->
  forall r, r ∈ l ->
    exists n w, py_int (label (obj h r)) = Some n /\ m !! n = Some w
                /\ label (obj h' r) = strip_positions ps w.
Proof.
  revert h. induction l as [| x l IH]; intros h Hnd Hrun r Hr; [inversion Hr |].
  apply NoDup_cons in Hnd as [Hx Hnd]. cbn [relabel_phones] in Hrun.
  destruct (py_int (label (obj h x))) as [n |] eqn:Hn; [| discriminate].
  unfold getitem in Hrun. destruct (m !! n) as [w |] eqn:Hw; [| discriminate].
  apply elem_of_cons in Hr as [-> | Hr].
  - exists n, w. split; [exact Hn |]. split; [exact Hw |].
    pose proof (relabel_phones_frame m ps l (set_label x (strip_positions ps w) h) x)
      as (_ & _ & _ & Hout).
    rewrite Hrun in Hout. cbn [fst] in Hout. rewrite (Hout Hx).
    apply set_label_same.
  - destruct (IH _ Hnd Hrun r Hr) as (n' & w' & Hn' & Hw' & Hl).
    exists n', w'. split; [| split; assumption].
    rewrite <- Hn'. f_equal. f_equal. symmetry. apply set_label_other. congruence.
Qed.

(** X7: when [parse_from_phone] returns, it returns the list it was given;
    no object has changed its begin, its end or its utterance, and no
    object outside the list has changed at all; and when no object occurs
    twice in the list, every label in it has been numeric, its id has been
    in the mapping, and the new label is the phone of that id without its
    word position. *)
Theorem parse_from_phone_done (h h' : heap) (ctm_labels out : list ref)
    (reversed_phone_mapping : gmap Z string) (positions : list string) :
  parse_from_phone py_int h ctm_labels reversed_phone_mapping positions = (h', Done out) ->
  out = ctm_labels
  /\ (forall r, begin_ (obj h' r) = begin_ (obj h r)
                /\ end_ (obj h' r) = end_ (obj h r)
                /\ utterance (obj h' r) = utterance (obj h r))
  /\ (forall r, r ∉ ctm_labels -> obj h' r = obj h r)
  /\ (NoDup ctm_labels ->
      forall r, r ∈ ctm_labels ->
        exists n w, py_int (label (obj h r)) = Some n
                    /\ reversed_phone_mapping !! n = Some w
                    /\ label (obj h' r) = strip_positions positions w).
Proof.
  unfold parse_from_phone.
  destruct (relabel_phones py_int reversed_phone_mapping positions ctm_labels h)
    as [h1 [[] | e |]] eqn:Hrun; intros [= <- <-].
  split; [reflexivity |].
  assert (Hframe := relabel_phones_frame reversed_phone_mapping positions ctm_labels h).
  rewrite Hrun in Hframe. cbn [fst] in Hframe.
  split; [intros r; destruct (Hframe r) as (? & ? & ? & _); auto |].
  split; [intros r; apply Hframe |].
  intros Hnd. eapply relabel_phones_done; eassumption.
Qed.

Lemma strip_no_positions (w : string) : strip_positions [] w = w.
Proof. reflexivity. Qed.

Lemma relabel_words_as_phones (mapping : gmap Z string) (l : list ref) (h : heap) :
  relabel_words py_int mapping l h = relabel_phones py_int mapping [] l h.
Proof.
  revert h. induction l as [| x l IH]; intros h; cbn [relabel_words relabel_phones];
    [reflexivity |].
  destruct (py_int (label (obj h x))); [| reflexivity].
  destruct (getitem mapping z); [apply IH | reflexivity | reflexivity].
Qed.

(** X8: [parse_from_word_no_cleanup] is [parse_from_phone] with no word
    position to strip. *)
Theorem parse_from_word_no_cleanup_phone (h : heap) (ctm_labels : list ref)
    (mapping : gmap Z string) :
  parse_from_word_no_cleanup py_int h ctm_labels mapping
  = parse_from_phone py_int h ctm_labels mapping [].
Proof.
  unfold parse_from_word_no_cleanup, parse_from_phone.
  rewrite relabel_words_as_phones. reflexivity.
Qed.

Lemma relabel_phones_app (m : gmap Z string) (ps : list string) (l1 l2 : list ref)
    (h : heap) :
  relabel_phones py_int m ps (l1 ++ l2) h
  = match relabel_phones py_int m ps l1 h with
    | (h1, Done _) => relabel_phones py_int m ps l2 h1
    | (h1, Failed e) => (h1, Failed e)
    | (h1, KeyError) => (h1, KeyError)
    end.
Proof.
  revert h. induction l1 as [| x l1 IH]; intros h; cbn [app relabel_phones];
    [reflexivity |].
  destruct (py_int (label (obj h x))); [| reflexivity].
  destruct (getitem m z); [apply IH | reflexivity | reflexivity].
Qed.

(** X9: an id that is missing from the mapping makes
    [parse_from_word_no_cleanup] raise [KeyError] after the intervals before
    it have been relabelled: these keep their new labels, and the failing
    interval and those after it are as they were. *)
Theorem parse_from_word_no_cleanup_missing (h : heap) (before after : list ref) (r : ref)
    (mapping : gmap Z string) (n : Z) :
  NoDup (before ++ r :: after) ->
  Forall (fun x => exists k w, py_int (label (obj h x)) = Some k /\ mapping !! k = Some w)
    before ->
  py_int (label (obj h r)) = Some n ->
  mapping !! n = None ->
  let run := parse_from_word_no_cleanup py_int h (before ++ r :: after) mapping in
  snd run = KeyError
  /\ (forall x, x ∈ before ->
        exists k, py_int (label (obj h x)) = Some k
                  /\ mapping !! k = Some (label (obj (fst run) x)))
  /\ (forall x, x ∉ before -> obj (fst run) x = obj h x).
Proof.
  intros Hnd Hbefore Hn Hmiss. cbn zeta.
  unfold parse_from_word_no_cleanup. rewrite relabel_words_as_phones.
  rewrite relabel_phones_app.
  apply NoDup_app in Hnd as (Hnd1 & Hdisj & Hnd2).
  assert (Hr : r ∉ before).
  { intros Hin. apply (Hdisj r Hin). left. }
  assert (Hrun : exists h1, relabel_phones py_int mapping [] before h = (h1, Done ())).
  { clear Hdisj. revert h Hbefore Hn Hr.
    induction before as [| x before IH]; intros h Hbefore Hn Hr; cbn [relabel_phones];
      [eauto |].
    apply NoDup_cons in Hnd1 as [Hx Hnd1]. apply not_elem_of_cons in Hr as [Hrx Hr].
    apply Forall_cons in Hbefore as [(k & w & Hk & Hw) Hbefore].
    rewrite Hk. unfold getitem. rewrite Hw. apply (IH Hnd1); [| | exact Hr].
    - apply Forall_forall. intros y Hy.
      destruct (proj1 (Forall_forall _ _) Hbefore y Hy) as (k' & w' & Hk' & Hw').
      exists k', w'. split; [| exact Hw'].
      rewrite <- Hk'. f_equal. f_equal. apply set_label_other.
      intros ->. contradiction.
    - rewrite <- Hn. f_equal. f_equal. apply set_label_other. exact Hrx. }
  destruct Hrun as [h1 Hrun]. rewrite Hrun.
  pose proof (relabel_phones_frame mapping [] before h) as Hframe.
  rewrite Hrun in Hframe. cbn [fst] in Hframe.
  cbn [relabel_phones].
  destruct (Hframe r) as (_ & _ & _ & Hsame). rewrite (Hsame Hr), Hn.
  unfold getitem. rewrite Hmiss. cbn [fst snd].
  split; [reflexivity |]. split.
  - intros x Hx.
    destruct (relabel_phones_done mapping [] before h h1 Hnd1 Hrun x Hx)
      as (k & w & Hk & Hw & Hl).
    exists k. split; [exact Hk |]. rewrite Hl. exact Hw.
  - intros x Hx. apply Hframe, Hx.
Qed.

End LabelsFromIds.

(** ** Further properties of the phone remapper *)

Lemma scan_exact (t : list string) (ind : nat) (ps : list PronunciationEntry)
    (pron : option PronunciationEntry) :
  (exists p, p ∈ ps /\ exact_match t p = true) -> fst (scan t ind ps pron) = true.
Proof.
  revert pron. induction ps as [| q ps IH]; intros pron (p & Hp & Hm); [inversion Hp |].
  cbn [scan]. destruct (exact_match t q) eqn:Hq; [reflexivity |].
  apply IH. exists p. split; [| exact Hm].
  apply elem_of_cons in Hp as [-> | Hp]; [congruence | exact Hp].
Qed.

(** X18: when an entry of the first candidate list is the whole
    transcription, with no original pronunciation or with the same one,
    [map_to_original_pronunciation] returns the aligned intervals as they
    are and touches no object. *)
Theorem remap_exact (h : heap) (phones : list ref) (ps : list PronunciationEntry)
    (rest : list (list PronunciationEntry)) (strip : list string) (p : PronunciationEntry) :
  p ∈ ps ->
  exact_match (map (fun x => label (obj h x)) phones) p = true ->
  snd (map_to_original_pronunciation h phones (ps :: rest) strip) = Ok phones
  /\ rs_heap (fst (map_to_original_pronunciation h phones (ps :: rest) strip)) = h
  /\ relabels (fst (map_to_original_pronunciation h phones (ps :: rest) strip)) = [].
Proof.
  intros Hp Hm. unfold map_to_original_pronunciation. cbn [remap_loop mapping_ind].
  destruct phones as [| r phones]; [cbn; auto |].
  cbn [length Nat.leb transcription_ind].
  pose proof (scan_exact (map (fun x => label (obj h x)) (r :: phones)) 0 ps None
                (ex_intro _ p (conj Hp Hm))) as Hscan.
  destruct (scan _ 0 ps None) as [exact pron]. cbn [fst] in Hscan. subst exact.
  cbn [extend mapping_ind Nat.add length Nat.leb]. rewrite Nat.leb_refl. cbn. auto.
Qed.

Lemma walk_step_times (h0 : heap) (phones : list ref) (strip : list string) (pi : string)
    (st : remap_state) :
  times_kept h0 (rs_heap st) -> times_kept h0 (rs_heap (fst (walk_step phones strip pi st))).
Proof.
  intros H. pose proof H as [Hn Hobj]. unfold walk_step.
  destruct (phones !! mapping_ind st) as [r |]; [| exact H].
  destruct (String.eqb pi _); [exact H |].
  destruct (String.eqb (strip_all strip pi) _).
  - cbn [fst rs_heap]. split; [exact Hn |]. intros r0 Hr0.
    destruct (set_label_fields r r0 pi (rs_heap st)) as (-> & -> & ->). apply Hobj, Hr0.
  - destruct (negb _); [| exact H].
    destruct (phones !! S (mapping_ind st)) as [r' |]; [| exact H].
    destruct (String.eqb _ _); [| exact H].
    cbn [fst]. split; [cbn; lia |]. intros r0 Hr0. cbn.
    destruct (Nat.eqb_spec r0 (next (rs_heap st))) as [-> | _]; [lia | apply Hobj, Hr0].
Qed.

Lemma walk_times (h0 : heap) (phones : list ref) (strip orig : list string)
    (st : remap_state) :
  times_kept h0 (rs_heap st) -> times_kept h0 (rs_heap (fst (walk phones strip orig st))).
Proof.
  revert st. induction orig as [| pi orig IH]; intros st H; cbn [walk]; [exact H |].
  pose proof (walk_step_times h0 phones strip pi st H) as Hs.
  destruct (walk_step phones strip pi st) as [st' [[] | err]]; cbn [fst] in Hs.
  - apply IH, Hs.
  - exact Hs.
Qed.

Lemma remap_loop_times (h0 : heap) (phones : list ref) (t strip : list string)
    (sub : list (list PronunciationEntry)) (st : remap_state) :
  times_kept h0 (rs_heap st) ->
  times_kept h0 (rs_heap (fst (remap_loop phones t strip sub st))).
Proof.
  revert st. induction sub as [| ps sub IH]; intros st H; cbn [remap_loop]; [exact H |].
  destruct (length phones <=? mapping_ind st)%nat; [exact H |].
  destruct (scan t (transcription_ind st) ps None) as [exact pron].
  assert (H1 : times_kept h0 (rs_heap (if exact then extend phones st else st)))
    by (destruct exact; exact H).
  destruct (length phones <=? _)%nat; [exact H1 |].
  destruct pron as [p |]; [| exact H1].
  destruct (original_pronunciation p) as [orig |]; [| exact H1].
  destruct (bool_decide (pronunciation p = orig)); [exact H1 |].
  match goal with |- context [walk phones strip orig ?s] =>
    pose proof (walk_times h0 phones strip orig s H1) as Hw;
    destruct (walk phones strip orig s) as [st3 [[] | err]] end; cbn [fst] in Hw.
  - apply IH, Hw.
  - exact Hw.
Qed.

(** X19: [map_to_original_pronunciation] changes no time: whatever it
    returns or raises, an interval object that existed at the call has the
    begin, the end and the utterance it had. *)
Theorem remap_keeps_times (h : heap) (phones : list ref)
    (subpronunciations : list (list PronunciationEntry)) (strip_diacritics : list string)
    (r : ref) :
  (r < next h)%nat ->
  let h' := rs_heap (fst (map_to_original_pronunciation h phones subpronunciations
                            strip_diacritics)) in
  begin_ (obj h' r) = begin_ (obj h r)
  /\ end_ (obj h' r) = end_ (obj h r)
  /\ utterance (obj h' r) = utterance (obj h r).
Proof.
  intros Hr. cbn zeta. rewrite map_to_original_state.
  destruct (remap_loop_times h phones (map (fun x => label (obj h x)) phones)
              strip_diacritics subpronunciations (mkRemap h [] 0 0 [])) as [_ Hobj].
  - split; [cbn; lia | intros r0 _; cbn; auto].
  - apply Hobj, Hr.
Qed.

Section Merged.

Variable strip : list string.
Variable h0 : heap.
Variable phones : list ref.
Hypothesis distinct : NoDup phones.
Hypothesis allocated : Forall (fun r => (r < next h0)%nat) phones.

Lemma merged_later (h h' : heap) (r : ref) :
  merged h0 phones h r ->
  (next h <= next h')%nat ->
  (forall r0, (next h0 <= r0 < next h)%nat -> obj h' r0 = obj h r0) ->
  merged h0 phones h' r.
Proof.
  intros (Hr & i & a & b & Ha & Hb & Hobj) Hn Hsame.
  split; [lia |]. exists i, a, b. rewrite (Hsame r Hr). auto.
Qed.

Lemma allocated_lt (i : nat) (r : ref) : phones !! i = Some r -> (r < next h0)%nat.
Proof using allocated.
  intros Hr. apply (proj1 (Forall_forall _ _) allocated r), (list_elem_of_lookup_2 _ _ _ Hr).
Qed.

Lemma walk_step_sound (pi : string) (st : remap_state) :
  remap_sound strip h0 phones st -> remap_sound strip h0 phones (fst (walk_step phones strip pi st)).
Proof using distinct allocated.
  intros (Hone & Htimes & Hret).
  split; [apply (walk_step_once strip h0 phones distinct allocated), Hone |].
  split; [apply walk_step_times, Htimes |].
  destruct Hone as (Hn & Hobj & Hahead). destruct Htimes as [_ Hfields].
  unfold walk_step.
  destruct (phones !! mapping_ind st) as [r |] eqn:Hr; [| exact Hret].
  assert (Hin : r ∈ phones) by (apply (list_elem_of_lookup_2 _ _ _ Hr)).
  destruct (String.eqb pi _).
  { cbn [fst new_phones rs_heap]. apply Forall_app_2; [exact Hret |].
    constructor; [left; exact Hin | constructor]. }
  destruct (String.eqb (strip_all strip pi) _).
  { cbn [fst new_phones rs_heap]. apply Forall_app_2.
    - eapply Forall_impl; [exact Hret |]. cbn. intros x [Hx | Hx]; [left; exact Hx | right].
      apply (merged_later (rs_heap st)); [exact Hx | cbn; lia |].
      intros r0 Hr0. apply set_label_other. pose proof (allocated_lt _ _ Hr). lia.
    - constructor; [left; exact Hin | constructor]. }
  destruct (negb _); [| exact Hret].
  destruct (phones !! S (mapping_ind st)) as [r' |] eqn:Hr'; [| exact Hret].
  destruct (String.eqb _ _); [| exact Hret].
  cbn [fst new_phones rs_heap alloc]. apply Forall_app_2.
  - eapply Forall_impl; [exact Hret |]. cbn. intros x [Hx | Hx]; [left; exact Hx | right].
    apply (merged_later (rs_heap st)); [exact Hx | cbn; lia |].
    intros r0 Hr0. cbn. destruct (Nat.eqb_spec r0 (next (rs_heap st))); [lia | reflexivity].
  - constructor; [| constructor]. right. split; [cbn; lia |].
    exists (mapping_ind st), r, r'. split; [exact Hr |]. split; [exact Hr' |].
    cbn. rewrite Nat.eqb_refl.
    pose proof (allocated_lt _ _ Hr) as Hlt. pose proof (allocated_lt _ _ Hr') as Hlt'.
    destruct (Hfields r Hlt) as (-> & _ & ->). destruct (Hfields r' Hlt') as (_ & -> & _).
    rewrite (Hahead (mapping_ind st) r), (Hahead (S (mapping_ind st)) r') by (lia || assumption).
    reflexivity.
Qed.

Lemma walk_sound (orig : list string) (st : remap_state) :
  remap_sound strip h0 phones st -> remap_sound strip h0 phones (fst (walk phones strip orig st)).
Proof using distinct allocated.
  revert st. induction orig as [| pi orig IH]; intros st H; cbn [walk]; [exact H |].
  pose proof (walk_step_sound pi st H) as Hs.
  destruct (walk_step phones strip pi st) as [st' [[] | err]]; cbn [fst] in Hs.
  - apply IH, Hs.
  - exact Hs.
Qed.

Lemma extend_sound (l : list ref) (st : remap_state) :
  l ⊆ phones -> remap_sound strip h0 phones st -> remap_sound strip h0 phones (extend l st).
Proof.
  intros Hl (Hone & Htimes & Hret).
  split; [apply extend_once, Hone |]. split; [exact Htimes |].
  cbn. apply Forall_app_2; [exact Hret |].
  apply Forall_forall. intros x Hx. left. apply Hl, Hx.
Qed.

Lemma remap_loop_sound (t : list string) (sub : list (list PronunciationEntry))
    (st : remap_state) :
  remap_sound strip h0 phones st -> remap_sound strip h0 phones (fst (remap_loop phones t strip sub st)).
Proof using distinct allocated.
  revert st. induction sub as [| ps sub IH]; intros st H; cbn [remap_loop]; [exact H |].
  destruct (length phones <=? mapping_ind st)%nat; [exact H |].
  destruct (scan t (transcription_ind st) ps None) as [exact pron].
  assert (H1 : remap_sound strip h0 phones (if exact then extend phones st else st))
    by (destruct exact; [apply extend_sound; [reflexivity |] |]; exact H).
  destruct (length phones <=? _)%nat; [exact H1 |].
  destruct pron as [p |]; [| apply extend_sound; [reflexivity | exact H1]].
  assert (H2 : forall n, remap_sound strip h0 phones
            (mkRemap (rs_heap (if exact then extend phones st else st))
               (new_phones (if exact then extend phones st else st))
               (mapping_ind (if exact then extend phones st else st)) n
               (relabels (if exact then extend phones st else st)))) by (intros n; exact H1).
  assert (Hsub : forall n k, take n (drop k phones) ⊆ phones).
  { intros n k. etransitivity; [apply subseteq_take | apply subseteq_drop]. }
  destruct (original_pronunciation p) as [orig |]; [| apply extend_sound; [apply Hsub | apply H2]].
  destruct (bool_decide (pronunciation p = orig)); [apply extend_sound; [apply Hsub | apply H2] |].
  match goal with |- context [walk phones strip orig ?s] =>
    pose proof (walk_sound orig s (H2 _)) as Hw;
    destruct (walk phones strip orig s) as [st3 [[] | err]] end; cbn [fst] in Hw.
  - apply IH, Hw.
  - exact Hw.
Qed.

End Merged.

(** X20: when no interval object occurs twice among the aligned phones,
    every interval that [map_to_original_pronunciation] returns is one of
    the aligned phones or a new object built for two aligned phones that
    follow one another, from the begin of the first to the end of the
    second, labelled with their two labels. *)
Theorem remap_returns (h : heap) (phones : list ref)
    (subpronunciations : list (list PronunciationEntry)) (strip_diacritics : list string)
    (out : list ref) :
  NoDup phones ->
  Forall (fun r => (r < next h)%nat) phones ->
  snd (map_to_original_pronunciation h phones subpronunciations strip_diacritics) = Ok out ->
  Forall (fun r =>
            r ∈ phones
            \/ merged h phones
                 (rs_heap (fst (map_to_original_pronunciation h phones subpronunciations
                                  strip_diacritics))) r) out.
Proof.
  intros Hnd Halloc. 
  destruct (remap_loop_sound strip_diacritics h phones Hnd Halloc
              (map (fun x => label (obj h x)) phones) subpronunciations
              (mkRemap h [] 0 0 [])) as (_ & _ & Hret).
  { split; [| split].
    - split; [cbn; lia |]. split; [intros r0 _; cbn; auto | intros i r0 _ _; reflexivity].
    - split; [cbn; lia | intros r0 _; cbn; auto].
    - constructor. }
  unfold map_to_original_pronunciation in *.
  destruct (remap_loop _ _ _ _ _) as [st [[] | err]]; cbn [fst snd] in *; [| discriminate].
  intros [= <-]. exact Hret.
Qed.

(** ** Further properties of the error collector *)

Lemma dict_set_keys (k v : string) (d : list (string * string)) :
  NoDup (map fst d) ->
  NoDup (map fst (dict_set k v d))
  /\ (forall n, n ∈ map fst (dict_set k v d) <-> n = k \/ n ∈ map fst d)
  /\ forall n text, (n, text) ∈ dict_set k v d -> (n, text) = (k, v) \/ (n, text) ∈ d.
Proof.
  induction d as [| [k' v'] d IH]; cbn [dict_set map fst]; intros Hnd.
  - split; [repeat constructor; intros H; inversion H |]. split.
    + intros n. rewrite list_elem_of_singleton. split; [auto | intros [? | H]; [auto | inversion H]].
    + intros n text Hin. apply list_elem_of_singleton in Hin. auto.
  - apply NoDup_cons in Hnd as [Hk Hnd].
    destruct (String.eqb_spec k' k) as [-> | Hne]; cbn [map fst].
    + split; [apply NoDup_cons; auto |]. split.
      * intros n. rewrite elem_of_cons. split; [intros [? | ?]; auto | intros [? | [? | ?]]; auto].
      * intros n text Hin. apply elem_of_cons in Hin as [Hin | Hin]; [left; exact Hin |].
        right. right. exact Hin.
    + destruct (IH Hnd) as (Hnd' & Hkeys & Hent). split; [| split].
      * apply NoDup_cons. split; [| exact Hnd']. rewrite Hkeys. intros [? | ?]; congruence.
      * intros n. rewrite !elem_of_cons, Hkeys. split; intros [? | [? | ?]]; auto.
      * intros n text Hin. apply elem_of_cons in Hin as [Hin | Hin].
        -- right. rewrite Hin. left.
        -- destruct (Hent n text Hin) as [? | ?]; [left | right; right]; assumption.
Qed.

Lemma recorded_more (l1 l2 : list job_file) (errors : list (string * string)) :
  l1 ⊆ l2 -> recorded l1 errors -> recorded l2 errors.
Proof.
  intros Hsub [Hnd Hent]. split; [exact Hnd |]. intros n text Hin.
  destruct (Hent n text Hin) as (f & b & Hf & Hrest). exists f, b. split; [apply Hsub, Hf | exact Hrest].
Qed.

Lemma export_job_recorded (done files : list job_file) (processed : gset string)
    (errors : list (string * string)) :
  recorded done errors ->
  exists errors',
    export_job false files processed errors = Ok errors'
    /\ recorded (done ++ files) errors'.
Proof.
  revert done processed errors.
  induction files as [| f files IH]; intros done processed errors Hrec; cbn [export_job].
  - exists errors. rewrite app_nil_r. auto.
  - replace (done ++ f :: files)%list with ((done ++ [f]) ++ files)%list
      by (rewrite <- app_assoc; reflexivity).
    destruct (export_outcome f _) as [text |] eqn:Hout.
    + apply IH. destruct Hrec as [Hnd Hent].
      destruct (dict_set_keys (name f) text errors Hnd) as (Hnd' & _ & Hent').
      split; [exact Hnd' |]. intros n t Hin.
      destruct (Hent' n t Hin) as [[= -> ->] | Hold].
      * exists f, (negb (bool_decide (name f ∈ processed))).
        split; [apply elem_of_app; right; left | auto].
      * destruct (Hent n t Hold) as (g & b & Hg & Hrest). exists g, b.
        split; [apply elem_of_app; left; exact Hg | exact Hrest].
    + apply IH. apply (recorded_more done); [| exact Hrec].
      intros x Hx. apply elem_of_app. left. exact Hx.
Qed.

Lemma export_jobs_recorded (done : list job_file) (jobs : list (list job_file))
    (errors : list (string * string)) :
  recorded done errors ->
  exists errors',
    export_jobs false jobs errors = Ok errors'
    /\ recorded (done ++ concat jobs) errors'.
Proof.
  revert done errors. induction jobs as [| files jobs IH]; intros done errors Hrec;
    cbn [export_jobs concat].
  - exists errors. rewrite app_nil_r. auto.
  - destruct (export_job_recorded done files ∅ errors Hrec) as (errors1 & -> & Hrec1).
    cbn [mbind result_bind]. rewrite app_assoc. apply IH, Hrec1.
Qed.

(** X23: with the strict flag off and whatever the names of the files,
    the batch returns and the report lists entries with pairwise different
    names, each the name of a file of the batch with the text of a failed
    export of it; there is no report when there is no entry. *)
Theorem batch_report_entries (jobs : list (list job_file)) (old_log : option string) :
  exists errors,
    ctms_to_textgrids_non_mp false jobs old_log
    = Ok (match errors with [] => None | _ => Some (report errors) end)
    /\ NoDup (map fst errors)
    /\ forall n text, (n, text) ∈ errors ->
         exists f b, f ∈ concat jobs /\ name f = n /\ export_outcome f b = Some text.
Proof.
  destruct (export_jobs_recorded [] jobs []) as (errors & Hrun & Hnd & Hent).
  { split; [constructor | intros n text H; inversion H]. }
  exists errors. unfold ctms_to_textgrids_non_mp. rewrite Hrun. cbn [mbind result_bind].
  rewrite output_errors_report. auto.
Qed.

Lemma export_job_strict (files : list job_file) (processed : gset string)
    (errors : list (string * string)) :
  match export_job true files processed errors with
  | Ok errors' =>
      errors' = errors /\ forall f, f ∈ files -> exists b, export_outcome f b = None
  | Raise e =>
      e = ExportError /\ exists f b, f ∈ files /\ export_outcome f b <> None
  end.
Proof.
  revert processed. induction files as [| f files IH]; intros processed; cbn [export_job].
  - split; [reflexivity | intros f H; inversion H].
  - destruct (export_outcome f _) as [text |] eqn:Hout.
    + split; [reflexivity |]. exists f, (negb (bool_decide (name f ∈ processed))).
      split; [left | congruence].
    + specialize (IH ({[name f]} ∪ processed)).
      destruct (export_job true files _ errors) as [errors' | e].
      * destruct IH as [-> Hall]. split; [reflexivity |].
        intros g Hg. apply elem_of_cons in Hg as [-> | Hg]; [eauto | apply Hall, Hg].
      * destruct IH as [-> (g & b & Hg & Hb)]. split; [reflexivity |].
        exists g, b. split; [right; exact Hg | exact Hb].
Qed.

Lemma export_jobs_strict (jobs : list (list job_file)) (errors : list (string * string)) :
  match export_jobs true jobs errors with
  | Ok errors' =>
      errors' = errors /\ forall f, f ∈ concat jobs -> exists b, export_outcome f b = None
  | Raise e =>
      e = ExportError /\ exists f b, f ∈ concat jobs /\ export_outcome f b <> None
  end.
Proof.
  induction jobs as [| files jobs IH]; cbn [export_jobs concat].
  - split; [reflexivity | intros f H; inversion H].
  - pose proof (export_job_strict files ∅ errors) as Hjob.
    destruct (export_job true files ∅ errors) as [errors1 | e]; cbn [mbind result_bind].
    + destruct Hjob as [-> Hall1].
      destruct (export_jobs true jobs errors) as [errors' | e].
      * destruct IH as [-> Hall]. split; [reflexivity |].
        intros f Hf. apply elem_of_app in Hf as [Hf | Hf]; [apply Hall1, Hf | apply Hall, Hf].
      * destruct IH as [-> (g & b & Hg & Hb)]. split; [reflexivity |].
        exists g, b. split; [apply elem_of_app; right; exact Hg | exact Hb].
    + destruct Hjob as [-> (g & b & Hg & Hb)]. split; [reflexivity |].
      exists g, b. split; [apply elem_of_app; left; exact Hg | exact Hb].
Qed.

(** X22: with the strict flag on the batch writes no report: it returns
    only when an export of every file has returned, and it raises only when
    an export of some file has failed. *)
Theorem strict_batch (jobs : list (list job_file)) (old_log : option string) :
  (forall r, ctms_to_textgrids_non_mp true jobs old_log = Ok r ->
     r = None /\ forall f, f ∈ concat jobs -> exists b, export_outcome f b = None)
  /\ (forall e, ctms_to_textgrids_non_mp true jobs old_log = Raise e ->
        exists f b, f ∈ concat jobs /\ export_outcome f b <> None).
Proof.
  unfold ctms_to_textgrids_non_mp. pose proof (export_jobs_strict jobs []) as H.
  destruct (export_jobs true jobs []) as [errors | e0]; cbn [mbind result_bind].
  - destruct H as [-> Hall]. split; [| discriminate].
    intros r [= <-]. split; [reflexivity | exact Hall].
  - destruct H as [_ Hex]. split; [discriminate | intros e _; exact Hex].
Qed.

(** ** CTM reader *)

Section Reader.

Variable py_float : string -> float_outcome.
Variable py_int : string -> option Z.
Variable sanitize : string -> string -> string -> string.
Variable U : Type.
Variable corpus : Corpus U.

(** [utt != cur_utt] tells utterances apart. *)
Hypothesis differs_spec : forall u v, differs corpus u v = false <-> u = v.

Lemma relabel_phones_next (m : gmap Z string) (ps : list string) (l : list ref) (h : heap) :
  next (fst (relabel_phones py_int m ps l h)) = next h.
Proof.
  revert h. induction l as [| x l IH]; intros h; cbn [relabel_phones]; [reflexivity |].
  destruct (py_int (label (obj h x))); [| reflexivity].
  destruct (getitem m z); [| reflexivity | reflexivity].
  rewrite IH. reflexivity.
Qed.

Lemma relabel_phones_known (m : gmap Z string) (ps : list string) (l : list ref) (h : heap) :
  NoDup l ->
  (forall r, r ∈ l -> exists n w, py_int (label (obj h r)) = Some n /\ m !! n = Some w) ->
  exists h',
    relabel_phones py_int m ps l h = (h', Done ())
    /\ next h' = next h
    /\ (forall r, r ∉ l -> obj h' r = obj h r)
    /\ forall r, r ∈ l ->
         exists n w, py_int (label (obj h r)) = Some n /\ m !! n = Some w
                     /\ obj h' r = mkCtm (begin_ (obj h r)) (end_ (obj h r))
                                     (strip_positions ps w) (utterance (obj h r)).
Proof.
  intros Hnd Hknown.
  assert (Hrun : exists h', relabel_phones py_int m ps l h = (h', Done ())).
  { revert h Hknown. induction l as [| x l IH]; intros h Hknown; cbn [relabel_phones];
      [eauto |].
    apply NoDup_cons in Hnd as [Hx Hnd].
    destruct (Hknown x) as (n & w & Hn & Hw); [left |].
    rewrite Hn. unfold getitem. rewrite Hw. apply (IH Hnd).
    intros r Hr. destruct (Hknown r) as (n' & w' & Hn' & Hw'); [right; exact Hr |].
    exists n', w'. split; [| exact Hw'].
    rewrite set_label_other; [exact Hn' |]. intros ->. contradiction. }
  destruct Hrun as [h' Hrun]. exists h'. split; [exact Hrun |].
  pose proof (relabel_phones_next m ps l h) as Hnext.
  pose proof (relabel_phones_frame py_int m ps l h) as Hframe.
  rewrite Hrun in Hnext, Hframe. cbn [fst] in Hnext, Hframe.
  split; [exact Hnext |]. split; [intros r; apply Hframe |].
  intros r Hr.
  destruct (relabel_phones_done py_int m ps l h h' Hnd Hrun r Hr) as (n & w & Hn & Hw & Hl).
  exists n, w. split; [exact Hn |]. split; [exact Hw |].
  destruct (Hframe r) as (Hb & He & Hu & _).
  destruct (obj h' r) as [b e lab u]. cbn in *. congruence.
Qed.

Lemma flush_phone (st : reader U) (cur : U) :
  cur_utt st = Some cur ->
  NoDup (current_labels st) ->
  (forall r, r ∈ current_labels st ->
     exists n w, py_int (label (obj (rd_heap st) r)) = Some n
                 /\ reversed_phone_mapping corpus cur !! n = Some w) ->
  exists h',
    process_current_labels (phone_labels_of py_int corpus) st
    = (mkReader h' (Some cur) (current_labels st)
         (assignments st ++ [(cur, current_labels st)]), Done ())
    /\ next h' = next (rd_heap st)
    /\ (forall r, r ∉ current_labels st -> obj h' r = obj (rd_heap st) r)
    /\ forall r, r ∈ current_labels st ->
         exists n w, py_int (label (obj (rd_heap st) r)) = Some n
                     /\ reversed_phone_mapping corpus cur !! n = Some w
                     /\ obj h' r = mkCtm (begin_ (obj (rd_heap st) r))
                                     (end_ (obj (rd_heap st) r))
                                     (strip_positions (positions corpus cur) w)
                                     (utterance (obj (rd_heap st) r)).
Proof.
  intros Hcur Hnd Hknown.
  destruct (relabel_phones_known (reversed_phone_mapping corpus cur)
              (positions corpus cur) (current_labels st) (rd_heap st) Hnd Hknown)
    as (h' & Hrun & Hnext & Hframe & Hobj).
  exists h'. unfold process_current_labels, phone_labels_of, parse_from_phone.
  rewrite Hcur, Hrun. auto.
Qed.

Lemma reading_unbound (h0 : heap) (done : list (U * CtmInterval)) (st : reader U) :
  reading py_int corpus h0 done st -> cur_utt st = None ->
  done = [] /\ current_labels st = [] /\ assignments st = [].
Proof.
  intros (_ & Hseq & _ & Hgroups & Hcurrent & _ & _ & _ & Hne) Hcur.
  assert (Hdone : done = []).
  { destruct done as [| x done]; [reflexivity |].
    destruct (current_labels st) as [| r l] eqn:Hl; [exfalso; apply Hne; congruence |].
    destruct (Hcurrent r) as (u & c & Hu & _); [left | congruence]. }
  subst done. cbn in Hseq. apply app_eq_nil in Hseq as [Hconcat Hl].
  split; [reflexivity |]. split; [exact Hl |].
  destruct (assignments st) as [| [u refs] l]; [reflexivity |].
  destruct (Hgroups u refs) as [Hrefs _]; [left |].
  cbn in Hconcat. apply app_eq_nil in Hconcat as [? _]. contradiction.
Qed.

Lemma read_record (h0 : heap) (done : list (U * CtmInterval)) (st : reader U)
    (line key : string) (u : U) (c : CtmInterval) :
  reading py_int corpus h0 done st ->
  Forall (known py_int corpus) done ->
  String.eqb (strip line) "" = false ->
  process_ctm_line py_float (strip line) = Ok c ->
  utterance c = Some key ->
  corpus_utterances corpus !! key = Some u ->
  exists st',
    read_line py_float corpus (phone_labels_of py_int corpus) line st = (st', Done ())
    /\ reading py_int corpus h0 (done ++ [(u, c)]) st'.
Proof using differs_spec.
  intros Hst Hknown Hblank Hparse Hkey Hutt.
  pose proof Hst as (Hnext & Hseq & Hold & Hgroups & Hcurrent & Hadj & Hlast & Hnone & Hsome).
  unfold read_line. rewrite Hblank, Hparse. cbn [alloc]. rewrite Hkey.
  unfold getitem. rewrite Hutt. cbn [cur_utt current_labels assignments rd_heap].
  set (r := next (rd_heap st)).
  set (h1 := mkHeap (fun r' => if Nat.eqb r' r then c else obj (rd_heap st) r')
               (S r)).
  set (off := if is_segment corpus u then segment_begin corpus u else 0%Q).
  assert (Hr : r = (next h0 + length done)%nat) by exact Hnext.
  assert (Hin_seq : forall r0, r0 ∈ (concat (map snd (assignments st))
                                      ++ current_labels st)%list ->
                               (next h0 <= r0 < r)%nat).
  { intros r0 H0. rewrite Hseq in H0. apply elem_of_seq in H0. lia. }
  assert (Hcur_lt : forall r0, r0 ∈ current_labels st -> (next h0 <= r0 < r)%nat).
  { intros r0 H0. apply Hin_seq, elem_of_app. right. exact H0. }
  assert (Hcat_lt : forall r0, r0 ∈ concat (map snd (assignments st)) ->
                               (next h0 <= r0 < r)%nat).
  { intros r0 H0. apply Hin_seq, elem_of_app. left. exact H0. }
  assert (Hnd : NoDup (concat (map snd (assignments st)) ++ current_labels st)%list).
  { rewrite Hseq. apply NoDup_seq. }
  assert (Hlen : length (done ++ [(u, c)]) = S (length done)).
  { rewrite length_app. cbn. lia. }
  assert (Hnew : ((done ++ [(u, c)])%list : list (U * CtmInterval)) !! (r - next h0)%nat = Some (u, c)).
  { apply list_lookup_middle. lia. }
  assert (Hh1 : forall r0, r0 <> r -> obj h1 r0 = obj (rd_heap st) r0).
  { intros r0 Hne. cbn. destruct (Nat.eqb_spec r0 r); [contradiction | reflexivity]. }
  assert (Hshift : forall h r0, r0 <> r -> obj (shift_times_at r off h) r0 = obj h r0).
  { intros h r0 Hne. unfold shift_times_at, update. cbn.
    destruct (Nat.eqb_spec r0 r); [contradiction | reflexivity]. }
  assert (Hshift_r : forall h, obj h r = c ->
                               obj (shift_times_at r off h) r = as_read corpus (u, c)).
  { intros h Hc. unfold shift_times_at, update. cbn. rewrite Nat.eqb_refl, Hc. reflexivity. }
  destruct (differs corpus u match cur_utt st with Some cur => cur | None => u end)
    eqn:Hdiff.
  - (* the utterance changes *)
    destruct (cur_utt st) as [cur |] eqn:Hcur;
      [| rewrite (proj2 (differs_spec u u) eq_refl) in Hdiff; discriminate].
    assert (Hne : u <> cur).
    { intros ->. rewrite (proj2 (differs_spec cur cur) eq_refl) in Hdiff. discriminate. }
    assert (Hdone : done <> []) by (intros Hd; specialize (Hnone Hd); discriminate).
    apply NoDup_app in Hnd as (Hnd1 & Hdisj & Hnd2).
    destruct (flush_phone (mkReader h1 (Some cur) (current_labels st) (assignments st)) cur)
      as (h2 & Hrun & Hnext2 & Hframe & Hobj); [reflexivity | exact Hnd2 | |].
    { cbn [current_labels rd_heap]. intros r0 Hr0.
      destruct (Hcurrent r0 Hr0) as (u0 & c0 & [= <-] & Hc0 & Hobj0).
      rewrite Hh1 by (specialize (Hcur_lt r0 Hr0); lia).
      rewrite Hobj0. cbn.
      apply (proj1 (Forall_forall _ _) Hknown (cur, c0)), (list_elem_of_lookup_2 _ _ _ Hc0). }
    cbn [current_labels rd_heap assignments] in Hrun, Hnext2, Hframe, Hobj.
    rewrite Hrun. cbn [rd_heap assignments cur_utt current_labels app].
    eexists. split; [reflexivity |].
    assert (Hr_fresh : r ∉ current_labels st).
    { intros H0. specialize (Hcur_lt r H0). lia. }
    split; [cbn; rewrite Hnext2, Hlen; cbn; lia |].
    split; [cbn [assignments current_labels]; rewrite map_app, concat_app; cbn;
            rewrite app_nil_r, Hlen, seq_S, <- Hseq, <- Hr; reflexivity |].
    split.
    { intros r0 Hr0. cbn [rd_heap]. rewrite Hshift by lia.
      rewrite Hframe, Hh1 by (try (intros H0; specialize (Hcur_lt r0 H0)); lia).
      apply Hold, Hr0. }
    split.
    { intros u1 refs Hin. cbn [assignments rd_heap] in *.
      apply elem_of_app in Hin as [Hin | Hin].
      - destruct (Hgroups u1 refs Hin) as [Hrefs Hall]. split; [exact Hrefs |].
        intros r0 Hr0. destruct (Hall r0 Hr0) as (c0 & Hc0 & Hphone).
        exists c0. split; [apply lookup_app_l_Some, Hc0 |].
        assert (Hconcat : r0 ∈ concat (map snd (assignments st))).
        { apply list_elem_of_In, in_concat. exists refs.
          split; [| apply list_elem_of_In, Hr0].
          apply in_map_iff. exists (u1, refs). split; [reflexivity | apply list_elem_of_In, Hin]. }
        specialize (Hcat_lt r0 Hconcat).
        rewrite Hshift, Hframe, Hh1; [exact Hphone | lia | | lia].
        intros H0. apply (Hdisj r0 Hconcat H0).
      - apply list_elem_of_singleton in Hin as [= -> ->].
        split; [apply Hsome, Hdone |].
        intros r0 Hr0. destruct (Hcurrent r0 Hr0) as (u0 & c0 & [= <-] & Hc0 & Hobj0).
        exists c0. split; [apply lookup_app_l_Some, Hc0 |].
        assert (Hr0_old : r0 <> r) by (specialize (Hcur_lt r0 Hr0); lia).
        rewrite Hshift by exact Hr0_old.
        destruct (Hobj r0 Hr0) as (n & w & Hn & Hw & ->).
        rewrite Hh1 in * by exact Hr0_old. rewrite Hobj0 in *.
        exists n, w. split; [exact Hn |]. split; [exact Hw | reflexivity]. }
    split.
    { intros r0 Hr0. cbn [current_labels cur_utt rd_heap] in *.
      apply list_elem_of_singleton in Hr0 as ->.
      exists u, c. split; [reflexivity |]. split; [exact Hnew |].
      apply Hshift_r. rewrite Hframe by exact Hr_fresh. cbn. rewrite Nat.eqb_refl. reflexivity. }
    split.
    { intros j u1 refs1 u2 refs2 H1 H2. cbn [assignments] in *.
      destruct (decide (S j < length (assignments st))%nat) as [Hj | Hj].
      - rewrite lookup_app_l in H1, H2 by lia. eapply Hadj; eassumption.
      - assert (Hj' : S j = length (assignments st)).
        { apply lookup_lt_Some in H2. rewrite length_app in H2. cbn in H2. lia. }
        rewrite lookup_app_l in H1 by lia.
        rewrite list_lookup_middle in H2 by exact Hj'. injection H2 as <- <-.
        apply (Hlast u1 refs1 cur); [| reflexivity].
        rewrite last_lookup, <- Hj'. exact H1. }
    split.
    { intros u1 refs1 cur1. cbn [assignments cur_utt]. rewrite last_snoc.
      intros [= <- <-] [= <-]. congruence. }
    split; [intros Hd; destruct done; discriminate |].
    intros _. cbn. discriminate.
  - (* the utterance goes on *)
    assert (Hcur' : match cur_utt st with Some cur => cur | None => u end = u).
    { symmetry. apply differs_spec, Hdiff. }
    rewrite Hcur'. eexists. split; [reflexivity |].
    split; [cbn; rewrite Hlen; lia |].
    split; [cbn [assignments current_labels]; rewrite app_assoc, Hseq, Hlen, seq_S, <- Hr;
            reflexivity |].
    split.
    { intros r0 Hr0. cbn [rd_heap]. rewrite Hshift, Hh1 by lia. apply Hold, Hr0. }
    split.
    { intros u1 refs Hin. cbn [assignments rd_heap] in *.
      destruct (Hgroups u1 refs Hin) as [Hrefs Hall]. split; [exact Hrefs |].
      intros r0 Hr0. destruct (Hall r0 Hr0) as (c0 & Hc0 & Hphone).
      exists c0. split; [apply lookup_app_l_Some, Hc0 |].
      assert (Hconcat : r0 ∈ concat (map snd (assignments st))).
      { apply list_elem_of_In, in_concat. exists refs.
        split; [| apply list_elem_of_In, Hr0].
        apply in_map_iff. exists (u1, refs). split; [reflexivity | apply list_elem_of_In, Hin]. }
      specialize (Hcat_lt r0 Hconcat). rewrite Hshift, Hh1; [exact Hphone | lia | lia]. }
    split.
    { intros r0 Hr0. cbn [current_labels cur_utt rd_heap] in *.
      apply elem_of_app in Hr0 as [Hr0 | Hr0].
      - destruct (Hcurrent r0 Hr0) as (u0 & c0 & Hu0 & Hc0 & Hobj0).
        rewrite Hu0 in Hcur'. subst u0.
        exists u, c0. split; [reflexivity |]. split; [apply lookup_app_l_Some, Hc0 |].
        specialize (Hcur_lt r0 Hr0). rewrite Hshift, Hh1; [exact Hobj0 | lia | lia].
      - apply list_elem_of_singleton in Hr0 as ->.
        exists u, c. split; [reflexivity |]. split; [exact Hnew |].
        apply Hshift_r. cbn. rewrite Nat.eqb_refl. reflexivity. }
    split; [exact Hadj |].
    split.
    { intros u1 refs1 cur1 Hl. cbn [assignments cur_utt] in *. intros [= <-].
      destruct (cur_utt st) as [cur |] eqn:Hcur.
      - subst cur. eapply Hlast; [exact Hl | reflexivity].
      - destruct (reading_unbound h0 done st Hst Hcur) as (_ & _ & Ha).
        rewrite Ha in Hl. discriminate. }
    split; [intros Hd; destruct done; discriminate |].
    intros _. cbn. intros H0. apply app_eq_nil in H0 as [_ H0]. discriminate.
Qed.

Lemma read_lines_reading (h0 : heap) (lines : list string) (done recs : list (U * CtmInterval))
    (st : reader U) :
  records py_float corpus lines = Some recs ->
  Forall (known py_int corpus) (done ++ recs) ->
  reading py_int corpus h0 done st ->
  exists st',
    read_lines py_float corpus (phone_labels_of py_int corpus) lines st = (st', Done ())
    /\ reading py_int corpus h0 (done ++ recs) st'.
Proof using differs_spec.
  revert done recs st. induction lines as [| line lines IH]; intros done recs st Hrecs Hknown Hst.
  - injection Hrecs as <-. rewrite app_nil_r. exists st. auto.
  - cbn [records] in Hrecs. cbn [read_lines].
    destruct (String.eqb (strip line) "") eqn:Hblank.
    + unfold read_line. rewrite Hblank. apply IH; assumption.
    + destruct (process_ctm_line py_float (strip line)) as [c | e] eqn:Hparse; [| discriminate].
      destruct (utterance c) as [key |] eqn:Hkey; [| discriminate].
      destruct (corpus_utterances corpus !! key) as [u |] eqn:Hutt; [| discriminate].
      destruct (records py_float corpus lines) as [recs' |] eqn:Hrest; [| discriminate].
      injection Hrecs as <-.
      destruct (read_record h0 done st line key u c)
        as (st1 & -> & Hst1); try assumption.
      { apply Forall_app in Hknown as [Hknown _]. exact Hknown. }
      replace (done ++ (u, c) :: recs')%list with ((done ++ [(u, c)]) ++ recs')%list
        by (rewrite <- app_assoc; reflexivity).
      apply IH; [reflexivity | | exact Hst1].
      rewrite <- app_assoc. exact Hknown.
Qed.

Lemma reading_start (h : heap) : reading py_int corpus h [] (mkReader h None [] []).
Proof.
  split; [cbn; lia |]. split; [reflexivity |]. split; [reflexivity |].
  split; [intros u refs H; inversion H |]. split; [intros r H; inversion H |].
  split; [intros j u refs v refs' H; inversion H |].
  split; [intros u refs cur H; inversion H |]. split; [reflexivity | congruence].
Qed.

(** What the loop has done when it has read a file and processed the last
    labels. *)
Lemma read_file_reading (h : heap) (lines : list string) (recs : list (U * CtmInterval)) :
  records py_float corpus lines = Some recs ->
  Forall (known py_int corpus) recs ->
  exists st,
    read_file py_float corpus (phone_labels_of py_int corpus) lines (mkReader h None [] [])
    = (st, Done ())
    /\ next (rd_heap st) = (next h + length recs)%nat
    /\ concat (map snd (assignments st)) = seq (next h) (length recs)
    /\ (forall u refs, (u, refs) ∈ assignments st ->
          refs <> []
          /\ forall r, r ∈ refs ->
               exists c, recs !! (r - next h)%nat = Some (u, c)
                         /\ as_phone py_int corpus (u, c) (obj (rd_heap st) r))
    /\ (forall j u refs v refs',
          assignments st !! j = Some (u, refs) -> assignments st !! S j = Some (v, refs') ->
          u <> v)
    /\ (forall r, (r < next h)%nat -> obj (rd_heap st) r = obj h r)
    /\ (recs <> [] ->
        exists cur, cur_utt st = Some cur
                    /\ last (assignments st) = Some (cur, current_labels st)).
Proof using differs_spec.
  intros Hrecs Hknown.
  destruct (read_lines_reading h lines [] recs (mkReader h None [] []) Hrecs Hknown
              (reading_start h)) as (st & Hrun & Hst).
  cbn [app] in Hst. unfold read_file. rewrite Hrun.
  pose proof Hst as (Hnext & Hseq & Hold & Hgroups & Hcurrent & Hadj & Hlast & Hnone & Hsome).
  destruct (current_labels st) as [| r0 l0] eqn:Hl.
  - assert (Hrecs0 : recs = []).
    { destruct recs; [reflexivity |]. exfalso. apply Hsome; congruence. }
    exists st. rewrite app_nil_r in Hseq. repeat (split; [assumption || reflexivity |]).
    intros Hne. contradiction.
  - rewrite <- Hl in *.
    destruct (Hcurrent r0) as (cur & c0 & Hcur & _); [rewrite Hl; left |].
    assert (Hnd : NoDup (concat (map snd (assignments st)) ++ current_labels st)%list).
    { rewrite Hseq. apply NoDup_seq. }
    apply NoDup_app in Hnd as (Hnd1 & Hdisj & Hnd2).
    destruct (flush_phone st cur Hcur Hnd2)
      as (h' & Hflush & Hnext' & Hframe & Hobj).
    { intros r Hr. destruct (Hcurrent r Hr) as (u & c & Hu & Hc & Hobj).
      rewrite Hcur in Hu. injection Hu as <-. rewrite Hobj. cbn.
      apply (proj1 (Forall_forall _ _) Hknown (cur, c)), (list_elem_of_lookup_2 _ _ _ Hc). }
    rewrite Hflush. eexists. split; [reflexivity |].
    cbn [rd_heap assignments cur_utt current_labels].
    split; [congruence |].
    split; [rewrite map_app, concat_app; cbn; rewrite app_nil_r; exact Hseq |].
    split.
    { intros u refs Hin. apply elem_of_app in Hin as [Hin | Hin].
      - destruct (Hgroups u refs Hin) as [Hrefs Hall]. split; [exact Hrefs |].
        intros r Hr. destruct (Hall r Hr) as (c & Hc & Hphone). exists c.
        split; [exact Hc |]. rewrite Hframe; [exact Hphone |].
        intros H0. apply (Hdisj r); [| exact H0].
        apply list_elem_of_In, in_concat. exists refs. split; [| apply list_elem_of_In, Hr].
        apply in_map_iff. exists (u, refs). split; [reflexivity | apply list_elem_of_In, Hin].
      - apply list_elem_of_singleton in Hin as [= -> ->].
        split; [rewrite Hl; discriminate |].
        intros r Hr. destruct (Hcurrent r Hr) as (u & c & Hu & Hc & Hobj0).
        rewrite Hcur in Hu. injection Hu as <-. exists c. split; [exact Hc |].
        destruct (Hobj r Hr) as (n & w & Hn & Hw & ->). rewrite Hobj0 in *.
        exists n, w. split; [exact Hn |]. split; [exact Hw | reflexivity]. }
    split.
    { intros j u1 refs1 u2 refs2 H1 H2.
      destruct (decide (S j < length (assignments st))%nat) as [Hj | Hj].
      - rewrite lookup_app_l in H1, H2 by lia. eapply Hadj; eassumption.
      - assert (Hj' : S j = length (assignments st)).
        { apply lookup_lt_Some in H2. rewrite length_app in H2. cbn in H2. lia. }
        rewrite lookup_app_l in H1 by lia.
        rewrite list_lookup_middle in H2 by exact Hj'. injection H2 as <- <-.
        apply (Hlast u1 refs1 cur); [| exact Hcur].
        rewrite last_lookup, <- Hj'. exact H1. }
    split.
    { intros r Hr. rewrite Hframe; [apply Hold, Hr |].
      intros H0. assert (H1 : r ∈ seq (next h) (length recs)).
      { rewrite <- Hseq. apply elem_of_app. right. exact H0. }
      apply elem_of_seq in H1. lia. }
    intros _. exists cur. split; [reflexivity | apply last_snoc].
Qed.

(** X25: the loop of [ctms_to_textgrids_non_mp] over one phone CTM file
    whose lines all parse, name utterances of the corpus and carry ids of
    phones. It returns after creating one interval object per record, in
    order; the lists it assigns to [phone_labels] are these objects cut
    into runs of records of one utterance, none empty and no two in a row
    of the same utterance; each object has the times of its record, moved
    by the begin of its utterance when that is a segment, and the phone of
    its id without word position; older objects are untouched. *)
Theorem read_phone_ctm (h : heap) (lines : list string) (recs : list (U * CtmInterval)) :
  records py_float corpus lines = Some recs ->
  Forall (known py_int corpus) recs ->
  exists st,
    read_phone_ctms py_float py_int corpus [lines] h = (st, Done ())
    /\ concat (map snd (assignments st)) = seq (next h) (length recs)
    /\ (forall u refs, (u, refs) ∈ assignments st ->
          refs <> []
          /\ forall r, r ∈ refs -> exists c, recs !! (r - next h)%nat = Some (u, c))
    /\ (forall j u refs v refs',
          assignments st !! j = Some (u, refs) -> assignments st !! S j = Some (v, refs') ->
          u <> v)
    /\ (forall i rec, recs !! i = Some rec ->
          as_phone py_int corpus rec (obj (rd_heap st) (next h + i)%nat))
    /\ (forall r, (r < next h)%nat -> obj (rd_heap st) r = obj h r).
Proof using differs_spec.
  intros Hrecs Hknown.
  destruct (read_file_reading h lines recs Hrecs Hknown)
    as (st & Hrun & _ & Hseq & Hgroups & Hadj & Hold & _).
  exists st. unfold read_phone_ctms. cbn [read_files]. rewrite Hrun.
  split; [reflexivity |]. split; [exact Hseq |].
  split.
  { intros u refs Hin. destruct (Hgroups u refs Hin) as [Hrefs Hall]. split; [exact Hrefs |].
    intros r Hr. destruct (Hall r Hr) as (c & Hc & _). eauto. }
  split; [exact Hadj |]. split; [| exact Hold].
  intros i rec Hi.
  assert (Hin : (next h + i)%nat ∈ concat (map snd (assignments st))).
  { rewrite Hseq. apply elem_of_seq. apply lookup_lt_Some in Hi. lia. }
  apply list_elem_of_In, in_concat in Hin as (refs & Hrefs & Hr).
  apply in_map_iff in Hrefs as ([u refs'] & <- & Hin). cbn [snd] in Hr.
  destruct (Hgroups u refs' (proj2 (list_elem_of_In _ _) Hin)) as [_ Hall].
  destruct (Hall _ (proj2 (list_elem_of_In _ _) Hr)) as (c & Hc & Hphone).
  replace (next h + i - next h)%nat with i in Hc by lia.
  rewrite Hi in Hc. injection Hc as ->. exact Hphone.
Qed.

Lemma read_line_stale (line : string) (st : reader U) :
  stale py_int st ->
  (String.eqb (strip line) "" = true
   \/ exists c key u, process_ctm_line py_float (strip line) = Ok c /\ utterance c = Some key
                      /\ corpus_utterances corpus !! key = Some u) ->
  (exists st', read_line py_float corpus (phone_labels_of py_int corpus) line st
               = (st', Done ()) /\ stale py_int st')
  \/ snd (read_line py_float corpus (phone_labels_of py_int corpus) line st)
     = Failed ValueError.
Proof.
  intros (cur & r & l & Hcur & Hl & Hr & Hlabel) Hline. unfold read_line.
  destruct Hline as [-> | (c & key & u & Hparse & Hkey & Hutt)].
  { left. exists st. split; [reflexivity |]. exists cur, r, l. auto. }
  destruct (String.eqb (strip line) "").
  { left. exists st. split; [reflexivity |]. exists cur, r, l. auto. }
  rewrite Hparse. cbn [alloc]. rewrite Hkey. unfold getitem. rewrite Hutt.
  cbn [cur_utt current_labels assignments rd_heap]. rewrite Hcur.
  assert (Hsame : forall h',
            obj h' r = obj (rd_heap st) r -> py_int (label (obj h' r)) = None)
    by (intros h' ->; exact Hlabel).
  destruct (differs corpus u cur).
  - right. unfold process_current_labels, phone_labels_of, parse_from_phone.
    cbn [cur_utt current_labels rd_heap]. rewrite Hl. cbn [relabel_phones].
    rewrite Hsame; [reflexivity |]. cbn. destruct (Nat.eqb_spec r (next (rd_heap st))); [lia | reflexivity].
  - left. eexists. split; [reflexivity |]. exists cur, r, (l ++ [next (rd_heap st)])%list.
    cbn [cur_utt current_labels rd_heap]. rewrite Hl.
    split; [reflexivity |]. split; [reflexivity |]. split; [cbn; lia |].
    apply Hsame. unfold shift_times_at, update. cbn.
    destruct (Nat.eqb_spec r (next (rd_heap st))); [lia | reflexivity].
Qed.

Lemma read_file_stale (lines : list string) (recs : list (U * CtmInterval)) (st : reader U) :
  records py_float corpus lines = Some recs ->
  stale py_int st ->
  snd (read_file py_float corpus (phone_labels_of py_int corpus) lines st) = Failed ValueError.
Proof.
  unfold read_file. revert recs st.
  induction lines as [| line lines IH]; intros recs st Hrecs Hstale; cbn [read_lines].
  - destruct Hstale as (cur & r & l & Hcur & Hl & Hr & Hlabel). rewrite Hl.
    unfold process_current_labels, phone_labels_of, parse_from_phone.
    rewrite Hcur, Hl. cbn [relabel_phones]. rewrite Hlabel. reflexivity.
  - cbn [records] in Hrecs.
    assert (Hline : (String.eqb (strip line) "" = true
                     \/ exists c key u, process_ctm_line py_float (strip line) = Ok c
                                        /\ utterance c = Some key
                                        /\ corpus_utterances corpus !! key = Some u)
                    /\ exists recs', records py_float corpus lines = Some recs').
    { revert Hrecs. destruct (String.eqb (strip line) "");
        [intros Hrecs; split; [left; reflexivity | exists recs; exact Hrecs] |].
      destruct (process_ctm_line py_float (strip line)) as [c | e]; [| discriminate].
      destruct (utterance c) as [key |] eqn:Hkey; [| discriminate].
      destruct (corpus_utterances corpus !! key) as [u |] eqn:Hutt; [| discriminate].
      destruct (records py_float corpus lines) as [recs' |]; [| discriminate].
      intros _. split; [right; exists c, key, u; auto | exists recs'; reflexivity]. }
    destruct Hline as [Hline Hrest].
    destruct Hrest as [recs' Hrest].
    destruct (read_line_stale line st Hstale Hline) as [(st' & -> & Hst') | Hfail].
    + apply (IH recs' st' Hrest Hst').
    + destruct (read_line py_float corpus (phone_labels_of py_int corpus) line st)
        as [st' [[] | e |]]; cbn [snd] in Hfail; try discriminate. exact Hfail.
Qed.

(** From such a state a line, whatever it holds, is read into such a state
    again or stops the loop. *)
Lemma read_line_stale_any (line : string) (st : reader U) :
  stale py_int st ->
  match read_line py_float corpus (phone_labels_of py_int corpus) line st with
  | (st', Done _) => stale py_int st'
  | (_, Failed e) => e = ValueError \/ process_ctm_line py_float (strip line) = Raise e
  | (_, KeyError) => True
  end.
Proof.
  intros (cur & r & l & Hcur & Hl & Hr & Hlabel). unfold read_line.
  destruct (String.eqb (strip line) ""); [exists cur, r, l; auto |].
  destruct (process_ctm_line py_float (strip line)) as [c | e]; [| right; reflexivity].
  cbn [alloc]. destruct (utterance c) as [key |]; [| exact I].
  unfold getitem. destruct (corpus_utterances corpus !! key) as [u |]; [| exact I].
  cbn [cur_utt current_labels assignments rd_heap]. rewrite Hcur.
  assert (Hsame : forall h',
            obj h' r = obj (rd_heap st) r -> py_int (label (obj h' r)) = None)
    by (intros h' ->; exact Hlabel).
  destruct (differs corpus u cur).
  - unfold process_current_labels, phone_labels_of, parse_from_phone.
    cbn [cur_utt current_labels rd_heap]. rewrite Hl. cbn [relabel_phones].
    rewrite Hsame; [left; reflexivity |]. cbn.
    destruct (Nat.eqb_spec r (next (rd_heap st))); [lia | reflexivity].
  - exists cur, r, (l ++ [next (rd_heap st)])%list.
    cbn [cur_utt current_labels rd_heap]. rewrite Hl.
    split; [reflexivity |]. split; [reflexivity |]. split; [cbn; lia |].
    apply Hsame. unfold shift_times_at, update. cbn.
    destruct (Nat.eqb_spec r (next (rd_heap st))); [lia | reflexivity].
Qed.

Lemma read_file_stale_any (lines : list string) (st : reader U) :
  stale py_int st ->
  snd (read_file py_float corpus (phone_labels_of py_int corpus) lines st) <> Done ()
  /\ forall e,
       snd (read_file py_float corpus (phone_labels_of py_int corpus) lines st) = Failed e ->
       e = ValueError
       \/ exists line, line ∈ lines /\ process_ctm_line py_float (strip line) = Raise e.
Proof.
  unfold read_file. revert st.
  induction lines as [| line lines IH]; intros st Hstale; cbn [read_lines].
  - destruct Hstale as (cur & r & l & Hcur & Hl & Hr & Hlabel). rewrite Hl.
    unfold process_current_labels, phone_labels_of, parse_from_phone.
    rewrite Hcur, Hl. cbn [relabel_phones]. rewrite Hlabel.
    split; [discriminate | intros e [= <-]; left; reflexivity].
  - pose proof (read_line_stale_any line st Hstale) as Hline.
    destruct (read_line py_float corpus (phone_labels_of py_int corpus) line st)
      as [st' [[] | e |]].
    + destruct (IH st' Hline) as [Hnot Hwhat]. split; [exact Hnot |].
      intros e He. destruct (Hwhat e He) as [-> | (l & Hin & Hraise)];
        [left; reflexivity |].
      right. exists l. split; [right; exact Hin | exact Hraise].
    + split; [discriminate |]. intros e' [= <-].
      destruct Hline as [-> | Hraise]; [left; reflexivity |].
      right. exists line. split; [left | exact Hraise].
    + split; discriminate.
Qed.

(** X26: after a first phone CTM file with at least one record, the
    labels of its last utterance are still in [current_labels], relabelled,
    when the next file is read, and they are processed again. When no
    phone text reads as a number, the loop therefore never gets past a
    second phone CTM file, whatever that file holds: the run ends while
    that file is read or right after it, with the [KeyError] of a lookup,
    with the [ValueError] of [int] on a label that is a phone already, or
    with what stops [process_ctm_line] on a line of that file. When the
    lines of the second file all parse and name utterances of the corpus,
    it ends with the [ValueError]. *)
Theorem read_phone_ctms_second_file (h : heap) (lines1 lines2 : list string)
    (files : list (list string)) (recs1 : list (U * CtmInterval)) :
  records py_float corpus lines1 = Some recs1 ->
  recs1 <> [] ->
  Forall (known py_int corpus) recs1 ->
  (forall u n w, reversed_phone_mapping corpus u !! n = Some w ->
                 py_int (strip_positions (positions corpus u) w) = None) ->
  let run := snd (read_phone_ctms py_float py_int corpus (lines1 :: lines2 :: files) h) in
  run <> Done ()
  /\ (forall e, run = Failed e ->
        e = ValueError
        \/ exists line,
             line ∈ lines2 /\ process_ctm_line py_float (strip line) = Raise e)
  /\ (forall recs2, records py_float corpus lines2 = Some recs2 -> run = Failed ValueError).
Proof using differs_spec.
  intros Hrecs1 Hne Hknown Htext. cbn zeta.
  destruct (read_file_reading h lines1 recs1 Hrecs1 Hknown)
    as (st & Hrun & Hnext & Hseq & Hgroups & _ & _ & Hlast).
  destruct (Hlast Hne) as (cur & Hcur & Hl).
  unfold read_phone_ctms. cbn [read_files]. rewrite Hrun.
  assert (Hstale : stale py_int st).
  { destruct (Hgroups cur (current_labels st)) as [Hrefs Hall].
    { apply last_Some in Hl as [l' ->]. apply elem_of_app. right. left. }
    destruct (current_labels st) as [| r l] eqn:Hcl; [contradiction |].
    exists cur, r, l. split; [exact Hcur |]. split; [exact Hcl |].
    destruct (Hall r) as (c & _ & n & w & _ & Hw & ->); [left |].
    split; [| cbn; apply (Htext cur n w Hw)].
    assert (Hin : r ∈ seq (next h) (length recs1)).
    { rewrite <- Hseq. apply list_elem_of_In, in_concat. exists (r :: l).
      split; [| left; reflexivity]. apply in_map_iff. exists (cur, r :: l).
      split; [reflexivity |]. apply list_elem_of_In.
      apply last_Some in Hl as [l' ->]. apply elem_of_app. right. left. }
    apply elem_of_seq in Hin. lia. }
  destruct (read_file_stale_any lines2 st Hstale) as [Hnot Hwhat].
  pose proof (fun recs2 H => read_file_stale lines2 recs2 st H Hstale) as Hfail.
  destruct (read_file py_float corpus (phone_labels_of py_int corpus) lines2 st)
    as [st' [[] | e |]]; cbn [snd] in *.
  - contradiction.
  - split; [discriminate |]. split; [exact Hwhat | exact Hfail].
  - split; [discriminate |]. split; [discriminate | exact Hfail].
Qed.

Lemma read_files_same (corpus' : Corpus U)
    (labels_of labels_of' : U -> list ref -> heap -> heap * attempt (list ref))
    (files : list (list string)) (st : reader U) :
  corpus_utterances corpus' = corpus_utterances corpus ->
  differs corpus' = differs corpus ->
  is_segment corpus' = is_segment corpus ->
  segment_begin corpus' = segment_begin corpus ->
  (forall u l h, labels_of' u l h = labels_of u l h) ->
  read_files py_float corpus' labels_of' files st = read_files py_float corpus labels_of files st.
Proof.
  intros Hu Hd Hs Hb Hl.
  assert (Hflush : forall st, process_current_labels labels_of' st
                              = process_current_labels labels_of st).
  { intros st0. unfold process_current_labels. destruct (cur_utt st0); [| reflexivity].
    rewrite Hl. reflexivity. }
  assert (Hline : forall line st, read_line py_float corpus' labels_of' line st
                                  = read_line py_float corpus labels_of line st).
  { intros line st0. unfold read_line. rewrite Hu, Hd, Hs, Hb.
    destruct (String.eqb (strip line) ""); [reflexivity |].
    destruct (process_ctm_line py_float (strip line)); [| reflexivity].
    cbn [alloc]. destruct (utterance a); [| reflexivity].
    destruct (getitem (corpus_utterances corpus) s); try reflexivity.
    rewrite Hflush. reflexivity. }
  assert (Hlines : forall lines st, read_lines py_float corpus' labels_of' lines st
                                    = read_lines py_float corpus labels_of lines st).
  { intros lines. induction lines as [| line lines IH]; intros st0; cbn [read_lines];
      [reflexivity |].
    rewrite Hline. destruct (read_line _ _ _ _ _) as [st1 [[] | e |]]; auto. }
  revert st. induction files as [| lines files IH]; intros st; cbn [read_files];
    [reflexivity |].
  unfold read_file. rewrite Hlines.
  destruct (read_lines _ _ _ _ _) as [st1 [[] | e |]]; try reflexivity.
  destruct (current_labels st1); [apply IH |].
  rewrite Hflush. destruct (process_current_labels _ _) as [st2 [[] | e |]]; auto.
Qed.

(** X27: without cleanup the loop over the word CTM files is the loop over
    the phone CTM files, with the reversed word mapping in the place of the
    reversed phone mapping and no word position. *)
Theorem read_word_ctms_no_cleanup (files : list (list string)) (h : heap) :
  read_word_ctms py_float py_int sanitize corpus false files h
  = read_phone_ctms py_float py_int (words_as_phones corpus) files h.
Proof.
  unfold read_word_ctms, read_phone_ctms. symmetry.
  apply read_files_same; try reflexivity.
  intros u l h0. unfold phone_labels_of, word_labels_of, words_as_phones.
  cbn [reversed_phone_mapping positions].
  unfold parse_from_word_no_cleanup, parse_from_phone.
  rewrite relabel_words_as_phones. reflexivity.
Qed.

Lemma process_ctm_line_utterance (line : string) (c : CtmInterval) :
  process_ctm_line py_float line = Ok c -> exists key, utterance c = Some key.
Proof.
  rewrite process_ctm_line_cases.
  destruct (split_char " " line) as [| f0 [| f1 [| f2 [| f3 [| f4 rest]]]]];
    try discriminate;
    destruct (py_float f2); try discriminate;
    destruct (py_float f3); try discriminate.
  intros [= <-]. exists f0. reflexivity.
Qed.

Lemma process_ctm_line_raises (line : string) (e : exn) :
  process_ctm_line py_float line = Raise e ->
  e = IndexError \/ e = ValueError \/ e = OutOfModel.
Proof.
  rewrite process_ctm_line_cases.
  destruct (split_char " " line) as [| f0 [| f1 [| f2 [| f3 [| f4 rest]]]]];
    try (intros [= <-]; auto);
    destruct (py_float f2); try (intros [= <-]; auto);
    destruct (py_float f3); try (intros [= <-]; auto); discriminate.
Qed.

Section Bound.

Variable labels_of : U -> list ref -> heap -> heap * attempt (list ref).
Hypothesis relabelling :
  forall u l h e, snd (labels_of u l h) = Failed e -> e = ValueError.

Lemma process_current_labels_bound (st : reader U) :
  cur_utt st <> None ->
  (forall e, snd (process_current_labels labels_of st) = Failed e -> e = ValueError)
  /\ cur_utt (fst (process_current_labels labels_of st)) <> None
  /\ current_labels (fst (process_current_labels labels_of st)) = current_labels st.
Proof using relabelling.
  intros Hcur. unfold process_current_labels.
  destruct (cur_utt st) as [u |] eqn:Hu; [| contradiction].
  pose proof (relabelling u (current_labels st) (rd_heap st)) as Hm.
  destruct (labels_of u (current_labels st) (rd_heap st)) as [h [l | e |]]; cbn in *;
    repeat split; try congruence; try discriminate.
  intros e' [= <-]. apply Hm. reflexivity.
Qed.

Lemma read_line_bound (line : string) (st : reader U) :
  (current_labels st <> [] -> cur_utt st <> None) ->
  (forall e, snd (read_line py_float corpus labels_of line st) = Failed e ->
             e = ValueError \/ process_ctm_line py_float (strip line) = Raise e)
  /\ (current_labels (fst (read_line py_float corpus labels_of line st)) <> [] ->
      cur_utt (fst (read_line py_float corpus labels_of line st)) <> None).
Proof using relabelling.
  intros Hst. unfold read_line.
  destruct (String.eqb (strip line) ""); [split; [discriminate | exact Hst] |].
  destruct (process_ctm_line py_float (strip line)) as [c | e] eqn:Hparse.
  2: { split; [| exact Hst]. cbn. intros e' [= <-]. right. reflexivity. }
  destruct (process_ctm_line_utterance _ _ Hparse) as [key Hkey].
  cbn [alloc]. rewrite Hkey.
  destruct (getitem (corpus_utterances corpus) key) as [utt | e |] eqn:Hget;
    cbn [cur_utt current_labels assignments rd_heap].
  - destruct (differs corpus utt _).
    + match goal with |- context [process_current_labels labels_of ?s] =>
        destruct (process_current_labels_bound s) as (Hm & Hc & Hl); [cbn; discriminate |];
        destruct (process_current_labels labels_of s) as [st2 [[] | e |]] end;
        cbn [fst snd] in *.
      * split; [discriminate | cbn; discriminate].
      * split; [intros e' He'; left; apply Hm, He' | intros _; exact Hc].
      * split; [discriminate | intros _; exact Hc].
    + split; [discriminate | cbn; discriminate].
  - unfold getitem in Hget. destruct (_ !! key); discriminate.
  - split; [discriminate | exact Hst].
Qed.

Lemma read_lines_bound (lines : list string) (st : reader U) :
  (current_labels st <> [] -> cur_utt st <> None) ->
  (forall e, snd (read_lines py_float corpus labels_of lines st) = Failed e ->
             e = ValueError
             \/ exists line, line ∈ lines /\ process_ctm_line py_float (strip line) = Raise e)
  /\ (current_labels (fst (read_lines py_float corpus labels_of lines st)) <> [] ->
      cur_utt (fst (read_lines py_float corpus labels_of lines st)) <> None).
Proof using relabelling.
  revert st. induction lines as [| line lines IH]; intros st Hst; cbn [read_lines].
  - split; [discriminate | exact Hst].
  - destruct (read_line_bound line st Hst) as [Hm Hb].
    destruct (read_line py_float corpus labels_of line st) as [st1 [[] | e |]];
      cbn [fst snd] in *.
    + destruct (IH st1 Hb) as [Hm1 Hb1]. split; [| exact Hb1].
      intros e He. destruct (Hm1 e He) as [-> | (l & Hl & Hraise)]; [left; reflexivity |].
      right. exists l. split; [right; exact Hl | exact Hraise].
    + split; [| exact Hb]. intros e' He'.
      destruct (Hm e' He') as [-> | Hraise]; [left; reflexivity |].
      right. exists line. split; [left | exact Hraise].
    + split; [discriminate | exact Hb].
Qed.

Lemma read_files_bound (files : list (list string)) (st : reader U) (e : exn) :
  (current_labels st <> [] -> cur_utt st <> None) ->
  snd (read_files py_float corpus labels_of files st) = Failed e ->
  e = ValueError
  \/ exists line, line ∈ concat files /\ process_ctm_line py_float (strip line) = Raise e.
Proof using relabelling.
  revert st. induction files as [| lines files IH]; intros st Hst; cbn [read_files concat];
    [discriminate |].
  assert (Hlater : (e = ValueError
                    \/ exists line, line ∈ concat files
                                    /\ process_ctm_line py_float (strip line) = Raise e) ->
                   e = ValueError
                   \/ exists line, line ∈ (lines ++ concat files)%list
                                   /\ process_ctm_line py_float (strip line) = Raise e).
  { intros [-> | (l & Hl & Hraise)]; [left; reflexivity |].
    right. exists l. split; [apply elem_of_app; right; exact Hl | exact Hraise]. }
  unfold read_file. destruct (read_lines_bound lines st Hst) as [Hm Hb].
  destruct (read_lines py_float corpus labels_of lines st) as [st1 [[] | e1 |]];
    cbn [fst snd] in *.
  - destruct (current_labels st1) as [| r l] eqn:Hl.
    + intros He. apply Hlater, (IH st1); [rewrite Hl; congruence | exact He].
    + destruct (process_current_labels_bound st1) as (Hm' & Hc & Hl');
        [apply Hb; discriminate |].
      destruct (process_current_labels labels_of st1) as [st2 [[] | e2 |]];
        cbn [fst snd] in *.
      * intros He. apply Hlater, (IH st2); [intros _; exact Hc | exact He].
      * intros [= <-]. left. apply Hm'. reflexivity.
      * discriminate.
  - intros [= <-]. destruct (Hm e1 eq_refl) as [-> | (l & Hl & Hraise)]; [left; reflexivity |].
    right. exists l. split; [apply elem_of_app; left; exact Hl | exact Hraise].
  - discriminate.
Qed.

End Bound.

Lemma relabel_phones_fails (m : gmap Z string) (ps : list string) (l : list ref)
    (h : heap) (e : exn) :
  snd (relabel_phones py_int m ps l h) = Failed e -> e = ValueError.
Proof.
  revert h. induction l as [| x l IH]; intros h; cbn [relabel_phones]; [discriminate |].
  destruct (py_int (label (obj h x))); [| intros [= <-]; reflexivity].
  unfold getitem. destruct (m !! z); [apply IH | discriminate].
Qed.

(** X28: in the loop over the phone CTM files, and in the loop over the
    word CTM files without cleanup, [cur_utt.speaker] is never read while
    [cur_utt] is [None]: neither loop raises [AttributeError]. Beside the
    [KeyError] of a dict lookup, what ends either loop early is the
    [ValueError] of [int] on a label or what stops [process_ctm_line] on a
    line of the files. *)
Theorem read_ctms_bound (files : list (list string)) (h : heap) :
  let phone := snd (read_phone_ctms py_float py_int corpus files h) in
  let word := snd (read_word_ctms py_float py_int sanitize corpus false files h) in
  phone <> Failed AttributeError
  /\ word <> Failed AttributeError
  /\ forall e,
       phone = Failed e \/ word = Failed e ->
       e = ValueError
       \/ exists line,
            line ∈ concat files /\ process_ctm_line py_float (strip line) = Raise e.
Proof.
  cbn zeta.
  assert (Hphone : forall (c : Corpus U) u l h0 e,
            snd (phone_labels_of py_int c u l h0) = Failed e -> e = ValueError).
  { intros c u l h0 e. unfold phone_labels_of, parse_from_phone.
    pose proof (relabel_phones_fails (reversed_phone_mapping c u) (positions c u) l h0 e).
    destruct (relabel_phones _ _ _ _ _) as [h1 [[] | e1 |]]; cbn in *;
      intros Hf; first [discriminate | injection Hf as ->; apply H; reflexivity]. }
  assert (Hword : forall u l h0 e,
            snd (word_labels_of py_int sanitize corpus false u l h0) = Failed e ->
            e = ValueError).
  { intros u l h0 e. unfold word_labels_of, parse_from_word_no_cleanup.
    rewrite relabel_words_as_phones.
    pose proof (relabel_phones_fails (reversed_words_mapping corpus u) [] l h0 e).
    destruct (relabel_phones _ _ _ _ _) as [h1 [[] | e1 |]]; cbn in *;
      intros Hf; first [discriminate | injection Hf as ->; apply H; reflexivity]. }
  assert (Hall : forall e,
            snd (read_phone_ctms py_float py_int corpus files h) = Failed e
            \/ snd (read_word_ctms py_float py_int sanitize corpus false files h) = Failed e ->
            e = ValueError
            \/ exists line,
                 line ∈ concat files /\ process_ctm_line py_float (strip line) = Raise e).
  { intros e [He | He].
    - eapply read_files_bound; [apply Hphone | | exact He]. cbn. congruence.
    - eapply read_files_bound; [apply Hword | | exact He]. cbn. congruence. }
  assert (Hnever : forall e,
            snd (read_phone_ctms py_float py_int corpus files h) = Failed e
            \/ snd (read_word_ctms py_float py_int sanitize corpus false files h) = Failed e ->
            e <> AttributeError).
  { intros e He ->. destruct (Hall _ He) as [| (line & _ & Hraise)]; [discriminate |].
    destruct (process_ctm_line_raises _ _ Hraise) as [| [|]]; discriminate. }
  split; [intros H; apply (Hnever _ (or_introl H)); reflexivity |].
  split; [intros H; apply (Hnever _ (or_intror H)); reflexivity | exact Hall].
Qed.

End Reader.

(** ** Worked inputs *)



(** C8: the sample record parses to begin 2.0, end 2.5, label "5" and
    utterance "u"; in general begin is the third field rounded to four
    decimals and end is begin plus the fourth field, rounded to four
    decimals, where rounding to four decimals gives a multiple of 1/10000
    at distance at most 1/20000. *)
Theorem process_ctm_line_rounds :
  process_ctm_line decimal_float "u 1 2.0000 0.5000 5" = Ok (mkCtm 2 (5 # 2) "5" (Some "u"))
  /\ (forall (py_float : string -> float_outcome) line f0 f1 f2 f3 f4 rest x d,
        split_char " " line = f0 :: f1 :: f2 :: f3 :: f4 :: rest ->
        py_float f2 = Number x ->
        py_float f3 = Number d ->
        process_ctm_line py_float line
        = Ok (mkCtm (round4 x) (round4 (round4 x + d)) f4 (Some f0)))
  /\ (forall x : Q,
        exists n : Z, (round4 x == n # 10000)%Q /\ (Qabs (round4 x - x) <= 1 # 20000)%Q).
Proof.
  split; [vm_compute; reflexivity |]. split.
  - intros. eapply process_ctm_line_five; eauto.
  - apply round4_near.
Qed.

Lemma process_ctm_line_rounds_witness :
  process_ctm_line decimal_float "a 1 0.12346 0.3 7"
  = Ok (mkCtm (247 # 2000) (847 # 2000) "7" (Some "a")).
Proof.
  rewrite (proj1 (proj2 process_ctm_line_rounds) decimal_float
             "a 1 0.12346 0.3 7" "a" "1" "0.12346" "0.3" "7" [] (6173 # 50000) (3 # 10));
    vm_compute; reflexivity.
Defined.

(** The word "cat's" against a vocabulary that holds "cat" and the clitic
    "'s": the split is accepted. The word "dog's" against a vocabulary
    that holds neither "dog" nor "'s": the split is not. *)
Lemma lookup_accepts_split_witness :
  _lookup strip_punctuation {[ "cat" := 5%Z; "'s" := 6%Z ]} ".,?" {[ "'s" ]} "'" "-" "cat's"
  = Ok ["cat"; "'s"]
  /\ _lookup strip_punctuation {[ "cat" := 5%Z ]} ".,?" {[ "'s" ]} "'" "-" "dog's"
     = Ok ["dog's"].
Proof.
  split.
  - refine (proj1 (lookup_accepts_split strip_punctuation
                     {[ "cat" := 5%Z; "'s" := 6%Z ]} ".,?" {[ "'s" ]} "'" "-" "cat's"
                     ["cat"; "'s"] _ _ _) _);
      vm_compute; try reflexivity. lia.
  - refine (proj1 (proj2 (lookup_accepts_split strip_punctuation
                            {[ "cat" := 5%Z ]} ".,?" {[ "'s" ]} "'" "-" "dog's"
                            ["dog"; "'s"] _ _ _)) _);
      vm_compute; try reflexivity. lia.
Defined.

(** The end-to-end example of the specification: "cat's" is rebuilt from
    the entries of "cat" and "'s". Both entries match, their times are in
    range, and they follow one another without a gap. *)
Lemma parse_from_word_bounds_witness :
  (exists cs,
    chunks strip_punctuation
      [mkCtm 0 (3 # 10) "5" (Some "u"); mkCtm (3 # 10) (1 # 2) "6" (Some "u")]
      cats_dictionary ["cat's"] 0 = Ok cs
    /\ Forall2 (fun ch iv =>
         let m := matched decimal_int (ch_ids ch) (ch_entries ch) in
         label iv = ch_word ch
         /\ length (ch_entries ch) = length (ch_ids ch)
         /\ (m = [] -> begin_ iv = 1000000%Q /\ end_ iv = (-1)%Q)
         /\ (m <> [] -> Forall (fun c => (begin_ c <= end_ c)%Q) m ->
             (begin_ iv <= end_ iv)%Q)
         /\ (m <> [] -> Forall well_timed m ->
             (begin_ iv <= end_ iv)%Q
             /\ (exists c, c ∈ m /\ begin_ iv = begin_ c)
             /\ (forall c, c ∈ m -> (begin_ iv <= begin_ c)%Q)
             /\ (exists c, c ∈ m /\ end_ iv = end_ c)
             /\ (forall c, c ∈ m -> (end_ c <= end_ iv)%Q)
             /\ (chained (ch_entries ch) ->
                 Forall (fun c => (begin_ c <= end_ c)%Q) (ch_entries ch) ->
                 forall t, (begin_ iv <= t)%Q -> (t <= end_ iv)%Q ->
                           covered (ch_entries ch) t)))
         cs [mkCtm 0 (1 # 2) "cat's" (Some "u")])
  /\ matched decimal_int [5; 6]%Z
       [mkCtm 0 (3 # 10) "5" (Some "u"); mkCtm (3 # 10) (1 # 2) "6" (Some "u")]
     = [mkCtm 0 (3 # 10) "5" (Some "u"); mkCtm (3 # 10) (1 # 2) "6" (Some "u")]
  /\ Forall well_timed
       [mkCtm 0 (3 # 10) "5" (Some "u"); mkCtm (3 # 10) (1 # 2) "6" (Some "u")]
  /\ chained [mkCtm 0 (3 # 10) "5" (Some "u"); mkCtm (3 # 10) (1 # 2) "6" (Some "u")].
Proof.
  split; [| split; [| split]].
  - apply (parse_from_word_bounds decimal_int strip_punctuation
             [mkCtm 0 (3 # 10) "5" (Some "u"); mkCtm (3 # 10) (1 # 2) "6" (Some "u")]
             ["cat's"] cats_dictionary).
    vm_compute. reflexivity.
  - vm_compute. reflexivity.
  - repeat constructor; unfold Qle, Qlt; cbn; lia.
  - cbn. repeat split; unfold Qle; cbn; lia.
Defined.

(** C1 on an aligned entry whose id is not the expected one: no entry
    matches, nothing guards the case, and the word gets the two values the
    bounds start from, begin 1000000 above end -1. *)
Lemma parse_from_word_unmatched :
  exists out,
    parse_from_word decimal_int strip_punctuation
      [mkCtm 0 (3 # 10) "7" (Some "u")] ["cat"] cats_dictionary = Ok out
    /\ ~ Forall (fun iv => (begin_ iv <= end_ iv)%Q) out.
Proof.
  exists [mkCtm 1000000 (-1) "cat" (Some "u")]. split; [vm_compute; reflexivity |].
  intros H. apply Forall_cons in H as [H _]. vm_compute in H. apply H. reflexivity.
Qed.


(** The same export, seen from the caller: the word object at address 1
    has a new end and the label it had. *)
Lemma export_textgrid_in_place_witness :
  let run :=
    export_textgrid toy_textgrid (string * list Interval) (fun _ => [])
      (fun _ => Raise ExportError) toy_tier toy_add toy_replace (fun _ _ => Ok ())
      two_seconds (mkFile 2 ["spk"]) "out.TextGrid"
      [("spk", mkTierData [0; 1]%nat [2; 3; 4]%nat)] 10 true in
  end_ (obj (fst run) 1%nat) = 2%Q /\ label (obj (fst run) 1%nat) = "cat".
Proof.
  cbn zeta.
  pose proof (export_textgrid_in_place toy_textgrid (string * list Interval)
            (fun _ => []) (fun _ => Raise ExportError) toy_tier toy_add toy_replace
            (fun _ _ => Ok ()) two_seconds (mkFile 2 ["spk"]) "out.TextGrid"
            [("spk", mkTierData [0; 1]%nat [2; 3; 4]%nat)] 10 true) as (Hsame & _ & Hok).
  split.
  - apply Hok.
    + vm_compute. reflexivity.
    + vm_compute. right; left.
    + vm_compute. reflexivity.
  - apply (Hsame 1%nat).
Defined.

Lemma batch_report_witness :
  ctms_to_textgrids_non_mp false sample_batch (Some "stale")
  = Ok (Some (report [("b.wav", "boom"); ("c.wav", "bang")])).
Proof.
  refine (proj2 (proj2 (proj2 (batch_report sample_batch (Some "stale")) _)) _).
  - apply (bool_decide_unpack _). vm_compute. exact I.
  - vm_compute. lia.
Defined.

(** Two jobs hold a file of the name "rec.wav" each, and both exports
    fail: two files fail, and the report has the one entry of the name,
    with the text of the later failure. *)
Lemma batch_report_same_name :
  let jobs := [[mkJobFile "rec.wav" (fun _ => Some "boom")];
               [mkJobFile "rec.wav" (fun _ => Some "bang")]] in
  failing (concat jobs) = [("rec.wav", "boom"); ("rec.wav", "bang")]
  /\ ctms_to_textgrids_non_mp false jobs None = Ok (Some (report [("rec.wav", "bang")]))
  /\ ctms_to_textgrids_non_mp false jobs None <> Ok (Some (report (failing (concat jobs)))).
Proof.
  cbn zeta. split; [vm_compute; reflexivity |]. split; [vm_compute; reflexivity |].
  vm_compute. discriminate.
Qed.

(** The phone "a" is relabelled to "a:", and ":" is the diacritic to
    strip. *)
Lemma relabel_strips_witness :
  let st := fst (map_to_original_pronunciation one_phone [0]%nat
                   [[mkEntry ["a"] (Some ["a:"])]] [":"]) in
  relabels st = [(0%nat, "a", "a:")]
  /\ strip_all [":"] (label (obj (rs_heap st) 0%nat)) = "a".
Proof.
  cbn zeta. split; [vm_compute; reflexivity |].
  apply (proj2 (relabel_strips one_phone [0]%nat [[mkEntry ["a"] (Some ["a:"])]] [":"])).
  - apply (bool_decide_unpack _). vm_compute. exact I.
  - repeat constructor.
  - left.
  - vm_compute. discriminate.
Defined.

(** The sample record has a duration of half a second. *)
Lemma process_ctm_line_ordered_witness :
  (begin_ (mkCtm 2 (5 # 2) "5" (Some "u")) <= end_ (mkCtm 2 (5 # 2) "5" (Some "u")))%Q.
Proof.
  apply (process_ctm_line_ordered decimal_float "u 1 2.0000 0.5000 5" "0.5000" (1 # 2)).
  - reflexivity.
  - vm_compute. reflexivity.
  - unfold Qle. cbn. lia.
  - vm_compute. reflexivity.
Defined.

(** "cat's" splits into two tokens of the vocabulary. *)
Lemma lookup_tokens_witness :
  ["cat"; "'s"] <> []
  /\ ((exists t, t ∈ ["cat"; "'s"]
                 /\ in_mapping {[ "cat" := 5%Z; "'s" := 6%Z ]} t = true)
      \/ ["cat"; "'s"] = [strip_punctuation "cat's" ".,?" "'"]).
Proof.
  apply (lookup_tokens strip_punctuation {[ "cat" := 5%Z; "'s" := 6%Z ]} ".,?"
           {[ "'s" ]} "'" "-" "cat's").
  vm_compute. reflexivity.
Defined.

(** The word "cat" of the vocabulary has the id 5. *)
Lemma to_int_ids_witness :
  to_int strip_punctuation {[ "cat" := 5%Z; "'s" := 6%Z ]} ".,?" {[ "'s" ]} "'" "-" 1 "cat"
  = Ok [5%Z].
Proof.
  apply (proj1 (proj2 (to_int_ids strip_punctuation {[ "cat" := 5%Z; "'s" := 6%Z ]} ".,?"
                         {[ "'s" ]} "'" "-" 1 "cat"))).
  - discriminate.
  - vm_compute. reflexivity.
Defined.

(** Two entries for the two sub-words of "cat's". *)
Lemma parse_from_word_returns_witness :
  exists out,
    parse_from_word decimal_int strip_punctuation
      [mkCtm 0 (3 # 10) "5" (Some "u"); mkCtm (3 # 10) (1 # 2) "6" (Some "u")]
      ["cat's"] cats_dictionary = Ok out
    /\ map label out = ["cat's"].
Proof.
  refine (proj1 (parse_from_word_returns decimal_int strip_punctuation
            [mkCtm 0 (3 # 10) "5" (Some "u"); mkCtm (3 # 10) (1 # 2) "6" (Some "u")]
            ["cat's"] cats_dictionary
            [mkChunk "cat's" [5; 6]%Z
               [mkCtm 0 (3 # 10) "5" (Some "u"); mkCtm (3 # 10) (1 # 2) "6" (Some "u")]]
            _ _) _).
  - vm_compute. reflexivity.
  - repeat constructor; vm_compute; eauto.
  - cbn. lia.
Defined.

(** The phone "AH" at the beginning of a word. *)
Lemma strip_positions_marked_witness :
  strip_positions ["_B"; "_E"; "_I"; "_S"] ("AH" ++ "_B") = "AH".
Proof.
  apply (strip_positions_marked ["_B"; "_E"; "_I"; "_S"] "AH" "_B").
  - left.
  - repeat constructor.
  - repeat constructor.
Defined.

(** An empty position after "_B". *)
Lemma strip_positions_erases_witness : strip_positions ["_B"; ""] "AH_B" = "".
Proof. apply (strip_positions_erases ["_B"; ""] "AH_B"). right. left. Defined.

(** The ids 3 and 4 become "AH" and "K". *)
Lemma parse_from_phone_done_witness :
  exists n w,
    decimal_int (label (obj phone_ids 1%nat)) = Some n
    /\ ({[ 3%Z := "AH_B"; 4%Z := "K_E" ]} : gmap Z string) !! n = Some w
    /\ label (obj (fst (parse_from_phone decimal_int phone_ids [0; 1]%nat
                          {[ 3%Z := "AH_B"; 4%Z := "K_E" ]} ["_B"; "_E"])) 1%nat)
       = strip_positions ["_B"; "_E"] w.
Proof.
  refine (proj2 (proj2 (proj2 (parse_from_phone_done decimal_int phone_ids _ [0; 1]%nat
            [0; 1]%nat {[ 3%Z := "AH_B"; 4%Z := "K_E" ]} ["_B"; "_E"] _))) _ 1%nat _).
  - vm_compute. reflexivity.
  - apply (bool_decide_unpack _). vm_compute. exact I.
  - right. left.
Defined.

(** The id 4 is not in the mapping. *)
Lemma parse_from_word_no_cleanup_missing_witness :
  snd (parse_from_word_no_cleanup decimal_int phone_ids ([0%nat] ++ [1%nat])%list
         {[ 3%Z := "the" ]}) = KeyError.
Proof.
  refine (proj1 (parse_from_word_no_cleanup_missing decimal_int phone_ids [0]%nat []
            1%nat {[ 3%Z := "the" ]} 4%Z _ _ _ _)).
  - apply (bool_decide_unpack _). vm_compute. exact I.
  - constructor; [| constructor]. exists 3%Z, "the". split; vm_compute; reflexivity.
  - vm_compute. reflexivity.
  - vm_compute. reflexivity.
Defined.

(** One utterance outside the multilingual mode. *)
Lemma generate_tiers_copies_witness :
  exists out,
    generate_tiers strip_punctuation after_silence [cat_utterance] true []
    = (after_silence, Done out).
Proof.
  destruct (generate_tiers_copies strip_punctuation after_silence [cat_utterance] true)
    as (out & Hrun & _).
  - repeat constructor.
  - exists out. exact Hrun.
Defined.

(** The phone "k" is kept, the silence before it is not. *)
Lemma generate_tiers_no_silence_witness :
  exists u, u ∈ [cat_utterance] /\ speaker u = "spk" /\ word_labels u <> []
            /\ 2%nat ∈ phone_labels u
            /\ label (obj after_silence 2%nat) ∉ silences (dictionary_data u).
Proof.
  apply (generate_tiers_no_silence strip_punctuation after_silence [cat_utterance]
           [("spk", mkTierData [0]%nat [2; 3; 4]%nat)] "spk" 2%nat).
  - repeat constructor.
  - vm_compute. reflexivity.
  - left.
Defined.

(** Up to the first second the loop reads the silence and "k", and keeps
    "k". *)
Lemma gather_phones_witness :
  exists k,
    2%nat = (0 + k)%nat /\ (k <= length [1; 2; 3; 4]%nat)%nat
    /\ [2%nat] = filter (fun p => label (obj after_silence p) ∉ ({[ "sil" ]} : gset string))
                   (take k [1; 2; 3; 4]%nat)
    /\ Forall (fun p => (end_ (obj after_silence p) <= 1)%Q) (take k [1; 2; 3; 4]%nat)
    /\ forall p, [1; 2; 3; 4]%nat !! k = Some p -> (1 < end_ (obj after_silence p))%Q.
Proof.
  apply (proj1 (gather_phones after_silence {[ "sil" ]} 1 [1; 2; 3; 4]%nat 0) 2%nat [2%nat]).
  vm_compute. reflexivity.
Defined.

(** The word "cat" without any phone label. *)
Lemma generate_tiers_no_phones_witness :
  generate_tiers strip_punctuation after_silence
    [mkUtterance "spk" ipa_tiers [0]%nat []] true []
  = (after_silence, Failed IndexError).
Proof.
  apply (generate_tiers_no_phones strip_punctuation after_silence
           (mkUtterance "spk" ipa_tiers [0]%nat []) [] [] 0%nat [] ["cat"]
           [[mkEntry ["k"; "ae"; "t"] None]]).
  - reflexivity.
  - reflexivity.
  - reflexivity.
  - vm_compute. reflexivity.
  - vm_compute. reflexivity.
Defined.

(** The phone "t" ends at 1.995 s in a file of two seconds. *)
Lemma ctm_to_textgrid_snaps_witness :
  let run :=
    ctm_to_textgrid strip_punctuation toy_textgrid (string * list Interval) (fun _ => [])
      (fun _ => Raise ExportError) toy_tier toy_add toy_replace (fun _ _ => Ok ())
      after_silence (mkFile 2 ["spk"]) [cat_utterance] "out.TextGrid" true 10 true in
  end_ (obj (fst run) 4%nat) = 2%Q.
Proof.
  cbn zeta.
  refine (proj1 (ctm_to_textgrid_snaps strip_punctuation toy_textgrid
            (string * list Interval) (fun _ => [])
            (fun _ => Raise ExportError) toy_tier toy_add toy_replace (fun _ _ => Ok ())
            after_silence _ (mkFile 2 ["spk"]) [cat_utterance] "out.TextGrid" true 10 true
            _ _) cat_utterance 4%nat _ _ _ _).
  - repeat constructor.
  - vm_compute. reflexivity.
  - left.
  - discriminate.
  - apply (bool_decide_unpack _). vm_compute. exact I.
  - vm_compute. reflexivity.
Defined.

(** The word "cat" of the file of two seconds. *)
Lemma export_textgrid_fits_witness :
  (end_ (obj (fst (export_textgrid toy_textgrid (string * list Interval) (fun _ => [])
                     (fun _ => Raise ExportError) toy_tier toy_add toy_replace
                     (fun _ _ => Ok ()) two_seconds (mkFile 2 ["spk"]) "out.TextGrid"
                     [("spk", mkTierData [0; 1]%nat [2; 3; 4]%nat)] 10 true)) 1%nat)
   <= duration (mkFile 2 ["spk"]))%Q.
Proof.
  apply (export_textgrid_fits toy_textgrid (string * list Interval) (fun _ => [])
           (fun _ => Raise ExportError) toy_tier toy_add toy_replace (fun _ _ => Ok ())
           two_seconds _ (mkFile 2 ["spk"]) "out.TextGrid"
           [("spk", mkTierData [0; 1]%nat [2; 3; 4]%nat)] 10 true 1%nat).
  - unfold Qle. cbn. lia.
  - vm_compute. reflexivity.
  - apply (bool_decide_unpack _). vm_compute. exact I.
Defined.

(** A second export into the file that the first one wrote. *)
Lemma export_textgrid_again_witness :
  let export h first :=
    export_textgrid toy_textgrid (string * list Interval) (fun _ => [])
      (fun _ => Ok [("words", []); ("phones", [])]) toy_tier
      (fun tg tier => Ok (tg ++ [tier])%list) toy_replace (fun _ _ => Ok ())
      h (mkFile 2 ["spk"]) "out.TextGrid"
      [("spk", mkTierData [0; 1]%nat [2; 3; 4]%nat)] 10 first in
  obj (fst (export (fst (export two_seconds true)) false)) 1%nat
  = obj (fst (export two_seconds true)) 1%nat.
Proof.
  cbn zeta.
  apply (export_textgrid_again toy_textgrid (string * list Interval) (fun _ => [])
           (fun _ => Ok [("words", []); ("phones", [])]) toy_tier
           (fun tg tier => Ok (tg ++ [tier])%list) toy_replace (fun _ _ => Ok ())
           two_seconds _ _ (mkFile 2 ["spk"]) "out.TextGrid" "out.TextGrid"
           [("spk", mkTierData [0; 1]%nat [2; 3; 4]%nat)] 10 true false 1%nat).
  - vm_compute. reflexivity.
  - vm_compute. reflexivity.
Defined.

(** The phone "a" against an entry for "b". *)
Lemma remap_passthrough_witness :
  snd (map_to_original_pronunciation one_phone [0]%nat [[mkEntry ["b"] (Some ["b:"])]] [":"])
  = Ok [0]%nat.
Proof.
  refine (proj1 (remap_passthrough one_phone [0]%nat [mkEntry ["b"] (Some ["b:"])] []
                   [":"] _)).
  intros p Hp. apply list_elem_of_singleton in Hp as ->. split; vm_compute; reflexivity.
Defined.

(** The second entry is the whole transcription of "cat's". *)
Lemma remap_exact_witness :
  snd (map_to_original_pronunciation cats_phones [0; 1; 2; 3]%nat
         [[mkEntry ["k"; "ae"] None; mkEntry ["k"; "ae"; "t"; "s"] None]] [])
  = Ok [0; 1; 2; 3]%nat.
Proof.
  refine (proj1 (remap_exact cats_phones [0; 1; 2; 3]%nat
                   [mkEntry ["k"; "ae"] None; mkEntry ["k"; "ae"; "t"; "s"] None] [] []
                   (mkEntry ["k"; "ae"; "t"; "s"] None) _ _)).
  - right. left.
  - vm_compute. reflexivity.
Defined.

(** The phone "a", relabelled to "a:", keeps its times. *)
Lemma remap_keeps_times_witness :
  let h' := rs_heap (fst (map_to_original_pronunciation one_phone [0]%nat
                            [[mkEntry ["a"] (Some ["a:"])]] [":"])) in
  begin_ (obj h' 0%nat) = begin_ (obj one_phone 0%nat)
  /\ end_ (obj h' 0%nat) = end_ (obj one_phone 0%nat)
  /\ utterance (obj h' 0%nat) = utterance (obj one_phone 0%nat).
Proof.
  apply (remap_keeps_times one_phone [0]%nat [[mkEntry ["a"] (Some ["a:"])]] [":"] 0%nat).
  vm_compute. lia.
Defined.

(** The phones "t" and "s" of "cat's" stand for the one original phone
    "ts": two intervals are returned as they are and one is new. *)
Lemma remap_returns_witness :
  Forall (fun r =>
            r ∈ [0; 1; 2; 3]%nat
            \/ merged cats_phones [0; 1; 2; 3]%nat
                 (rs_heap (fst (map_to_original_pronunciation cats_phones [0; 1; 2; 3]%nat
                                  [[mkEntry ["k"; "ae"; "t"; "s"] (Some ["k"; "ae"; "ts"])]]
                                  []))) r)
    [0; 1; 4]%nat.
Proof.
  apply (remap_returns cats_phones [0; 1; 2; 3]%nat
           [[mkEntry ["k"; "ae"; "t"; "s"] (Some ["k"; "ae"; "ts"])]] [] [0; 1; 4]%nat).
  - apply (bool_decide_unpack _). vm_compute. exact I.
  - repeat constructor; vm_compute; lia.
  - vm_compute. reflexivity.
Defined.

(** The markers "'" and "-" are taken literally. *)
Lemma split_clitics_content_witness :
  exists tokens,
    split_clitics {[ "cat" := 5%Z; "'s" := 6%Z ]} {[ "'s" ]} "'" "-" "cat's" = Ok tokens
    /\ content "'" "-" tokens = content "'" "-" ["cat's"].
Proof.
  apply (split_clitics_content {[ "cat" := 5%Z; "'s" := 6%Z ]} {[ "'s" ]} "'" "-").
  - vm_compute. reflexivity.
  - vm_compute. reflexivity.
Defined.

(** The sample batch raises under the strict flag. *)
Lemma strict_batch_witness :
  exists f b, f ∈ concat sample_batch /\ export_outcome f b <> None.
Proof.
  apply (proj2 (strict_batch sample_batch None) ExportError).
  vm_compute. reflexivity.
Defined.


(** Two records of the utterance "u" and, after a blank line, one of the
    segment "v": three objects in two groups. *)
Lemma read_phone_ctm_witness :
  exists st,
    read_phone_ctms decimal_float decimal_int two_utterances [phone_ctm] (heap_of [])
    = (st, Done ())
    /\ concat (map snd (assignments st)) = seq 0 3.
Proof.
  destruct (read_phone_ctm decimal_float decimal_int string two_utterances) with
    (h := heap_of []) (lines := phone_ctm) (recs := phone_records)
    as (st & Hrun & Hseq & _).
  - intros u v. cbn. rewrite negb_false_iff. apply String.eqb_eq.
  - vm_compute. reflexivity.
  - repeat constructor; [exists 3%Z, "AH_B" | exists 4%Z, "K_E" | exists 3%Z, "AH_B"];
      split; vm_compute; reflexivity.
  - exists st. split; [exact Hrun | exact Hseq].
Defined.

(** The same file followed by a line that is no record, and by an empty
    file. *)
Lemma read_phone_ctms_second_file_witness :
  snd (read_phone_ctms decimal_float decimal_int two_utterances [phone_ctm; ["x"]]
         (heap_of [])) <> Done ()
  /\ snd (read_phone_ctms decimal_float decimal_int two_utterances [phone_ctm; []]
            (heap_of [])) = Failed ValueError.
Proof.
  split.
  - refine (proj1 (read_phone_ctms_second_file decimal_float decimal_int string
                     two_utterances _ (heap_of []) phone_ctm ["x"] [] phone_records
                     _ _ _ _)).
    + intros u v. cbn. rewrite negb_false_iff. apply String.eqb_eq.
    + vm_compute. reflexivity.
    + discriminate.
    + repeat constructor; [exists 3%Z, "AH_B" | exists 4%Z, "K_E" | exists 3%Z, "AH_B"];
        split; vm_compute; reflexivity.
    + intros u n w. cbn [two_utterances reversed_phone_mapping positions].
      rewrite lookup_insert_Some, lookup_singleton_Some.
      intros [[_ <-] | [_ [_ <-]]]; vm_compute; reflexivity.
  - refine (proj2 (proj2 (read_phone_ctms_second_file decimal_float decimal_int string
                            two_utterances _ (heap_of []) phone_ctm [] [] phone_records
                            _ _ _ _)) [] _).
    + intros u v. cbn. rewrite negb_false_iff. apply String.eqb_eq.
    + vm_compute. reflexivity.
    + discriminate.
    + repeat constructor; [exists 3%Z, "AH_B" | exists 4%Z, "K_E" | exists 3%Z, "AH_B"];
        split; vm_compute; reflexivity.
    + intros u n w. cbn [two_utterances reversed_phone_mapping positions].
      rewrite lookup_insert_Some, lookup_singleton_Some.
      intros [[_ <-] | [_ [_ <-]]]; vm_compute; reflexivity.
    + reflexivity.
Defined.
